(** * BusTub primer: the skip list of [src/primer/skiplist.cpp]

    A shallow embedding of [SkipList<K, Compare, MaxHeight, Seed>] and of its
    nested [SkipNode].  Nodes live in a store addressed by pointers, so that
    the sharing created by [std::shared_ptr] (one node referenced by several
    predecessors, one per level) is kept; every member function is a
    function on that store, in an error monad whose faults are the ones the
    C++ code can exhibit. *)

From Stdlib Require Import ZArith Lia List Sorting.Sorted Permutation.
From stdpp Require Import base tactics option list sorting.

#[local] Unset Default Proof Using.
#[local] Open Scope nat_scope.

(** ** Outcomes of a member function *)

(** [Ok a]: normal return.  [OutOfRange level]: the exception thrown by
    [SkipNode::Next] and [SkipNode::SetNext] (the C++ code throws the string
    "level <level> out of range").  [Undefined]: behaviour the C++ standard
    leaves undefined (dereferencing a pointer that owns no node, indexing a
    vector past its end, [top()] of an empty stack).  [Diverge]: a [while]
    loop did not finish within its bound. *)
Inductive outcome (A : Type) : Type :=
| Ok (a : A)
| OutOfRange (level : nat)
| Undefined
| Diverge.

Arguments Ok {A} a.
Arguments OutOfRange {A} level.
Arguments Undefined {A}.
Arguments Diverge {A}.

Definition bind {A B : Type} (x : outcome A) (f : A -> outcome B) : outcome B :=
  match x with
  | Ok a => f a
  | OutOfRange level => OutOfRange level
  | Undefined => Undefined
  | Diverge => Diverge
  end.

Notation "'do' x <- e ; k" := (bind e (fun x => k))
  (at level 10, x pattern, e at level 100, k at level 200).

(** Pointers are addresses in the store; a [std::shared_ptr<SkipNode>] is an
    [option ptr], with [None] for [nullptr]. *)
Abbreviation ptr := nat (only parsing).

(** [size_t] is 64 bits wide on the targets BusTub builds for. *)
Definition size_t_modulus : Z := 2 ^ 64.
Definition wrap_size_t (z : Z) : Z := z mod size_t_modulus.

(** One write to a forward reference, as it happens in program order. *)
Inductive event : Type :=
| EvSetNext (node : ptr) (level : nat) (next : option ptr)
| EvMoveOut (node : ptr) (level : nat).

Section SkipList.

(** Template parameters and members whose declarations live in
    [primer/skiplist.h]: the key type, the comparator object [compare_], the
    bound [MaxHeight], the value-initialised key [K{}] stored in the header,
    and the generator [rng_] ([std::mt19937], seeded with [Seed]) with its
    call operator, of which only the 32-bit outputs matter here.
    [MaxHeight] is taken within the range of [int], the type of the level
    counter of the scans (the instantiations of the source use 14 and 8). *)
Context {K : Type}.
Variable compare_ : K -> K -> bool.
Variable MaxHeight : nat.
Variable K_default : K.
Context {Rng : Type}.
Variable rng_call : Rng -> N * Rng.
Variable rng_seeded : Rng.

(** ** SkipNode *)

Record SkipNode : Type := mkSkipNode {
  links_ : list (option ptr);
  key_ : K
}.

(** Modelled from the spec: the constructor [SkipNode(height, key)] is
    declared in the absent header; a node is built "with that many
    forward-reference slots", each slot holding no reference. *)
Definition SkipNode_new (height : nat) (key : K) : SkipNode :=
  mkSkipNode (replicate height None) key.

Definition Height (n : SkipNode) : nat := length (links_ n).

Definition Next (n : SkipNode) (level : nat) : outcome (option ptr) :=
  if length (links_ n) <=? level then OutOfRange level
  else Ok (default None (links_ n !! level)).

Definition SetNext (n : SkipNode) (level : nat) (node : option ptr) : outcome SkipNode :=
  if length (links_ n) <=? level then OutOfRange level
  else Ok (mkSkipNode (<[level := node]> (links_ n)) (key_ n)).

Definition Key (n : SkipNode) : K := key_ n.

(** ** The store and the container *)

(** The store holds every node ever allocated; [make_shared] appends a node
    and its address is never reused.  Reference counts are not stored: the
    count of a node is read off the store, as the number of forward
    references that designate it (see [use_count]).  A node that has been
    destroyed stays in the store with every slot null, out of reach of
    every operation, where C++ would reclaim its memory. *)
Abbreviation store := (list SkipNode) (only parsing).

(** [header_] is allocated first and never reassigned: it is address 0. *)
Definition header_ : ptr := 0.

Record SkipList : Type := mkSkipList {
  nodes_ : store;
  size_ : Z;
  rng_ : Rng
}.

(** Modelled from the spec: the member initialisers of the absent header.
    The header is "a distinguished node carrying no key, with a
    forward-reference array sized to the container's maximum height"; the
    live count starts at zero and the sampler is seeded at construction. *)
Definition SkipList_new : SkipList :=
  mkSkipList [SkipNode_new MaxHeight K_default] 0 rng_seeded.

(** [*p] *)
Definition deref (m : store) (p : ptr) : outcome SkipNode :=
  match m !! p with
  | Some n => Ok n
  | None => Undefined
  end.

(** [p->Next(level)] *)
Definition NextAt (m : store) (p : ptr) (level : nat) : outcome (option ptr) :=
  do n <- deref m p; Next n level.

(** [p->SetNext(level, node)] *)
Definition SetNextAt (m : store) (p : ptr) (level : nat) (node : option ptr)
  : outcome store :=
  do n <- deref m p;
  do n' <- SetNext n level node;
  Ok (<[p := n']> m).

(** [std::move(p->links_[i])]: unchecked [operator[]], the slot is left
    null and its former content is returned. *)
Definition MoveOut (m : store) (p : ptr) (i : nat) : outcome (option ptr * store) :=
  do n <- deref m p;
  match links_ n !! i with
  | None => Undefined
  | Some nx => Ok (nx, <[p := mkSkipNode (<[i := None]> (links_ n)) (key_ n)]> m)
  end.

(** Bound given to every pointer-chasing [while] loop: such a loop visits a
    node at most once in a well-formed store. *)
Definition gas (m : store) : nat := S (length m).

Definition Empty (s : SkipList) : bool := (size_ s =? 0)%Z.

Definition Size (s : SkipList) : Z := size_ s.

(** ** Drop and Clear *)

Fixpoint Drop_walk (fuel : nat) (m : store) (curr : option ptr) (i : nat)
  : outcome (store * list event) :=
  match curr with
  | None => Ok (m, [])
  | Some c =>
      match fuel with
      | 0 => Diverge
      | S fuel' =>
          do r <- MoveOut m c i;
          do r' <- Drop_walk fuel' (snd r) (fst r) i;
          Ok (fst r', EvMoveOut c i :: snd r')
      end
  end.

(** The [for] loop of [Drop]: [n] levels remain, starting at level [i]. *)
Fixpoint Drop_levels (n : nat) (i : nat) (m : store) : outcome (store * list event) :=
  match n with
  | 0 => Ok (m, [])
  | S n' =>
      do r <- MoveOut m header_ i;
      do r' <- Drop_walk (gas m) (snd r) (fst r) i;
      do r'' <- Drop_levels n' (S i) (fst r');
      Ok (fst r'', EvMoveOut header_ i :: snd r' ++ snd r'')
  end.

Definition Drop_traced (m : store) : outcome (store * list event) :=
  Drop_levels MaxHeight 0 m.

Definition Drop (m : store) : outcome store :=
  do r <- Drop_traced m; Ok (fst r).

Definition Clear (s : SkipList) : outcome SkipList :=
  let size' := 0%Z in
  do m <- Drop (nodes_ s);
  Ok (mkSkipList m size' (rng_ s)).

(** ** Release of nodes *)

(** Modelled from the spec: ownership of a node is "shared
    (reference-counted)"; "a node remains reachable, and must remain alive,
    as long as at least one predecessor at any level still references it",
    and a node released by the host mechanism releases its successors in
    turn ("implicit cascading destruction").  This is what
    [std::shared_ptr] does for the [links_] of [SkipNode]: the node is
    destroyed when its last owner goes, and the destructor of the node
    destroys [links_], reference by reference. *)

Definition designates (p : ptr) (v : option ptr) : bool :=
  match v with
  | Some q => Nat.eqb q p
  | None => false
  end.

(** [use_count()] of the node [p]: the number of forward references of the
    store and of variables [owners] that designate it. *)
Definition use_count (m : store) (owners : list (option ptr)) (p : ptr) : nat :=
  length (List.filter (designates p) (flat_map links_ m ++ owners)).

(** The destructor of [p] at work on [links_]: the [k] slots from level [L]
    on are emptied in turn, and the node a slot designated is released.
    The result is the store, the nodes destroyed and the depth of the
    nested destructor calls. *)
Fixpoint destroy_links (release : store -> ptr -> outcome (store * list ptr * nat))
    (k L : nat) (m : store) (p : ptr) : outcome (store * list ptr * nat) :=
  match k with
  | 0 => Ok (m, [], 0)
  | S k' =>
      do r <- MoveOut m p L;
      do d <- match fst r with
              | None => Ok (snd r, [], 0)
              | Some q => release (snd r) q
              end;
      do d' <- destroy_links release k' (S L) (fst (fst d)) p;
      Ok (fst (fst d'), snd (fst d) ++ snd (fst d'), Nat.max (snd d) (snd d'))
  end.

(** A reference to [p] has just gone.  When no owner is left the node is
    destroyed, which is one more level of destructor calls on top of those
    its own references set off; otherwise nothing happens.  [fuel] bounds
    the depth of the cascade. *)
Fixpoint release (fuel : nat) (owners : list (option ptr)) (m : store) (p : ptr)
  : outcome (store * list ptr * nat) :=
  match fuel with
  | 0 => Diverge
  | S fuel' =>
      if use_count m owners p =? 0 then
        do n <- deref m p;
        do d <- destroy_links (release fuel' owners) (Height n) 0 m p;
        Ok (fst (fst d), p :: snd (fst d), S (snd d))
      else Ok (m, [], 0)
  end.

(** [Drop] with the release that each assignment to [curr] sets off.
    [curr = std::move(curr->links_[i])] takes over the reference of the
    slot, which is a move and releases nothing, and gives up the reference
    [curr] held to the node it leaves; the owners at that moment are
    [header_] and [curr]. *)
Fixpoint Drop_walk_released (fuel : nat) (m : store) (curr : option ptr) (i : nat)
  : outcome (store * list ptr * nat) :=
  match curr with
  | None => Ok (m, [], 0)
  | Some c =>
      match fuel with
      | 0 => Diverge
      | S fuel' =>
          do r <- MoveOut m c i;
          do d <- release (gas m) [Some header_; fst r] (snd r) c;
          do r' <- Drop_walk_released fuel' (fst (fst d)) (fst r) i;
          Ok (fst (fst r'), snd (fst d) ++ snd (fst r'), Nat.max (snd d) (snd r'))
      end
  end.

Fixpoint Drop_levels_released (n : nat) (i : nat) (m : store)
  : outcome (store * list ptr * nat) :=
  match n with
  | 0 => Ok (m, [], 0)
  | S n' =>
      do r <- MoveOut m header_ i;
      do r' <- Drop_walk_released (gas m) (snd r) (fst r) i;
      do r'' <- Drop_levels_released n' (S i) (fst (fst r'));
      Ok (fst (fst r''), snd (fst r') ++ snd (fst r''), Nat.max (snd r') (snd r''))
  end.

(** The store [Drop] leaves, the nodes destroyed on the way, in order, and
    the greatest depth of destructor calls reached. *)
Definition Drop_released (m : store) : outcome (store * list ptr * nat) :=
  Drop_levels_released MaxHeight 0 m.

(** What happens without [Drop], when [header_] is simply given up and the
    destructors are left to do the work. *)
Definition release_header (m : store) : outcome (store * list ptr * nat) :=
  release (gas m) [] m header_.


(** ** Contains *)

(** The [while (true)] loop of [Contains] at level [i]; [(true, _)] is
    [return true], [(false, cur)] is [break] with the current pointer. *)
Fixpoint Contains_scan (fuel : nat) (m : store) (cur : ptr) (i : nat) (key : K)
  : outcome (bool * ptr) :=
  match fuel with
  | 0 => Diverge
  | S fuel' =>
      do nxt_ptr <- NextAt m cur i;
      match nxt_ptr with
      | None => Ok (false, cur)
      | Some nx =>
          do nn <- deref m nx;
          let nxt_key := Key nn in
          if compare_ key nxt_key then Ok (false, cur)
          else if negb (compare_ nxt_key key) then Ok (true, cur)
          else Contains_scan fuel' m nx i key
      end
  end.

(** The [for (int i = MaxHeight - 1; i >= 0; --i)] loop, [n = i + 1]. *)
Fixpoint Contains_levels (n : nat) (m : store) (cur : ptr) (key : K) : outcome bool :=
  match n with
  | 0 => Ok false
  | S i =>
      do r <- Contains_scan (gas m) m cur i key;
      if fst r then Ok true else Contains_levels i m (snd r) key
  end.

Definition Contains (s : SkipList) (key : K) : outcome bool :=
  Contains_levels MaxHeight (nodes_ s) header_ key.

(** ** RandomHeight *)

Definition branching_factor : N := 4.

Fixpoint RandomHeight_loop (fuel : nat) (height : nat) (g : Rng) : outcome (nat * Rng) :=
  match fuel with
  | 0 => Diverge
  | S fuel' =>
      if height <? MaxHeight then
        let r := rng_call g in
        if (fst r mod branching_factor =? 0)%N
        then RandomHeight_loop fuel' (S height) (snd r)
        else Ok (height, snd r)
      else Ok (height, g)
  end.

Definition RandomHeight (g : Rng) : outcome (nat * Rng) :=
  RandomHeight_loop (S MaxHeight) 1 g.

(** ** Insert *)

(** [if (nodes.empty() or cur_ptr != nodes.top()) nodes.push(cur_ptr)];
    the head of the list is the top of the stack. *)
Definition push_distinct (nodes : list ptr) (cur_ptr : ptr) : list ptr :=
  match nodes with
  | [] => [cur_ptr]
  | top :: _ => if Nat.eqb cur_ptr top then nodes else cur_ptr :: nodes
  end.

Fixpoint Insert_scan (fuel : nat) (m : store) (cur : ptr) (i : nat) (key : K)
  : outcome ptr :=
  match fuel with
  | 0 => Diverge
  | S fuel' =>
      do nxt_ptr <- NextAt m cur i;
      match nxt_ptr with
      | None => Ok cur
      | Some nx =>
          do nn <- deref m nx;
          if compare_ key (Key nn) then Ok cur
          else Insert_scan fuel' m nx i key
      end
  end.

Fixpoint Insert_levels (n : nat) (m : store) (cur : ptr) (nodes : list ptr) (key : K)
  : outcome (list ptr) :=
  match n with
  | 0 => Ok nodes
  | S i =>
      do cur' <- Insert_scan (gas m) m cur i key;
      Insert_levels i m cur' (push_distinct nodes cur') key
  end.

(** The inner [while (level < std::min(height, node->Height()))] loop;
    returns the store, the level reached and the writes performed. *)
Fixpoint Insert_link (fuel : nat) (m : store) (node to_insert : ptr)
    (height level : nat) : outcome (store * nat * list event) :=
  match fuel with
  | 0 => Diverge
  | S fuel' =>
      do n <- deref m node;
      if level <? Nat.min height (Height n) then
        do nxt_node <- NextAt m node level;
        do m1 <- SetNextAt m node level (Some to_insert);
        do m2 <- SetNextAt m1 to_insert level nxt_node;
        do r <- Insert_link fuel' m2 node to_insert height (S level);
        Ok (fst r, EvSetNext node level (Some to_insert)
                   :: EvSetNext to_insert level nxt_node :: snd r)
      else Ok (m, level, [])
  end.

(** The outer [while (level < height)] loop; each round pops one node. *)
Fixpoint Insert_splice (nodes : list ptr) (m : store) (to_insert : ptr)
    (height level : nat) : outcome (store * list event) :=
  if level <? height then
    match nodes with
    | [] => Undefined
    | node :: nodes' =>
        do r <- Insert_link (S height) m node to_insert height level;
        do r' <- Insert_splice nodes' (fst (fst r)) to_insert height (snd (fst r));
        Ok (fst r', snd r ++ snd r')
    end
  else Ok (m, []).

Definition Insert_traced (s : SkipList) (key : K)
  : outcome (bool * SkipList * list event) :=
  do c <- Contains s key;
  if c then Ok (false, s, []) else
  do nodes <- Insert_levels MaxHeight (nodes_ s) header_ [] key;
  do hg <- RandomHeight (rng_ s);
  let height := fst hg in
  let to_insert := length (nodes_ s) in
  let m := nodes_ s ++ [SkipNode_new height key] in
  do r <- Insert_splice nodes m to_insert height 0;
  Ok (true, mkSkipList (fst r) (wrap_size_t (size_ s + 1)) (snd hg), snd r).

Definition Insert (s : SkipList) (key : K) : outcome (bool * SkipList) :=
  do r <- Insert_traced s key; Ok (fst r).

(** ** Erase *)

Fixpoint Erase_scan (fuel : nat) (m : store) (cur : ptr) (to_erase : option ptr)
    (i : nat) (key : K) : outcome (ptr * option ptr) :=
  match fuel with
  | 0 => Diverge
  | S fuel' =>
      do nxt_ptr <- NextAt m cur i;
      match nxt_ptr with
      | None => Ok (cur, to_erase)
      | Some nx =>
          do nn <- deref m nx;
          let nxt_key := Key nn in
          if compare_ key nxt_key then Ok (cur, to_erase)
          else if compare_ nxt_key key then Erase_scan fuel' m nx to_erase i key
          else Ok (cur, Some nx)
      end
  end.

Fixpoint Erase_levels (n : nat) (m : store) (cur : ptr) (to_erase : option ptr)
    (nodes : list ptr) (key : K) : outcome (list ptr * option ptr) :=
  match n with
  | 0 => Ok (nodes, to_erase)
  | S i =>
      do r <- Erase_scan (gas m) m cur to_erase i key;
      Erase_levels i m (fst r) (snd r) (push_distinct nodes (fst r)) key
  end.

Fixpoint Erase_unlink (fuel : nat) (m : store) (node to_erase : ptr)
    (height level : nat) : outcome (store * nat) :=
  match fuel with
  | 0 => Diverge
  | S fuel' =>
      do n <- deref m node;
      if level <? Nat.min height (Height n) then
        do nxt_node <- NextAt m to_erase level;
        do m1 <- SetNextAt m to_erase level None;
        do m2 <- SetNextAt m1 node level nxt_node;
        Erase_unlink fuel' m2 node to_erase height (S level)
      else Ok (m, level)
  end.

Fixpoint Erase_splice (nodes : list ptr) (m : store) (to_erase : ptr)
    (height level : nat) : outcome store :=
  if level <? height then
    match nodes with
    | [] => Undefined
    | node :: nodes' =>
        do r <- Erase_unlink (S height) m node to_erase height level;
        Erase_splice nodes' (fst r) to_erase height (snd r)
    end
  else Ok m.

Definition Erase (s : SkipList) (key : K) : outcome (bool * SkipList) :=
  do c <- Contains s key;
  if negb c then Ok (false, s) else
  do r <- Erase_levels MaxHeight (nodes_ s) header_ None [] key;
  match snd r with
  | None => Undefined
  | Some to_erase =>
      do n <- deref (nodes_ s) to_erase;
      let height := Height n in
      do m <- Erase_splice (fst r) (nodes_ s) to_erase height 0;
      Ok (true, mkSkipList m (wrap_size_t (size_ s - 1)) (rng_ s))
  end.

(** ** Print *)

Definition LOWEST_LEVEL : nat := 0.

(** The loop of [Print], at any level: the nodes met by following
    [Next(level)] until the null pointer, each with its content. *)
Fixpoint Walk (fuel : nat) (m : store) (node : option ptr) (level : nat)
  : outcome (list (ptr * SkipNode)) :=
  match node with
  | None => Ok []
  | Some p =>
      match fuel with
      | 0 => Diverge
      | S fuel' =>
          do n <- deref m p;
          do nxt <- Next n level;
          do rest <- Walk fuel' m nxt level;
          Ok ((p, n) :: rest)
      end
  end.

Definition Chain (s : SkipList) (level : nat) : outcome (list (ptr * SkipNode)) :=
  do first <- NextAt (nodes_ s) header_ level;
  Walk (gas (nodes_ s)) (nodes_ s) first level.

(** What [Print] writes, one (key, height) pair per line. *)
Definition Print (s : SkipList) : outcome (list (K * nat)) :=
  do l <- Chain s LOWEST_LEVEL;
  Ok (map (fun x => (Key (snd x), Height (snd x))) l).

(** The keys met along level [level], in chain order. *)
Definition ChainKeys (s : SkipList) (level : nat) : outcome (list K) :=
  do l <- Chain s level;
  Ok (map (fun x => Key (snd x)) l).

(** * Vocabulary of the properties *)

(** ** Observations on a store

    Every property of the container below is stated through three
    observations: the height of the node at an address, its key, and its
    forward reference at a level. *)

Definition hgt (m : store) (p : ptr) : nat :=
  match m !! p with Some n => Height n | None => 0 end.

Definition keyof (m : store) (p : ptr) : K :=
  match m !! p with Some n => Key n | None => K_default end.

Definition link (m : store) (p : ptr) (L : nat) : option ptr :=
  match m !! p with Some n => default None (links_ n !! L) | None => None end.

(** The store after [p->links_[L] = v]. *)
Definition set_link (m : store) (p : ptr) (L : nat) (v : option ptr) : store :=
  match m !! p with
  | Some n => <[p := mkSkipNode (<[L := v]> (links_ n)) (key_ n)]> m
  | None => m
  end.

(** ** The comparator *)

(** [!compare_(a, b) && !compare_(b, a)]: neither key compares less than
    the other. *)
Definition equiv_key (a b : K) : bool :=
  negb (compare_ a b) && negb (compare_ b a).

(** The requirement [Compare] has to meet (as for the ordered containers of
    the standard library): a strict weak ordering. *)
Record StrictWeakOrder : Prop := {
  swo_irrefl : forall a, compare_ a a = false;
  swo_trans : forall a b c,
    compare_ a b = true -> compare_ b c = true -> compare_ a c = true;
  swo_incomp : forall a b c,
    equiv_key a b = true -> equiv_key b c = true -> equiv_key a c = true
}.

(** [key_other key k]: [k] is not equivalent to [key]. *)
Definition key_other (key : K) (k : K) : bool := negb (equiv_key key k).

(** ** The sampler, as specified *)

(** The sampler in the words of the specification: starting from height 1,
    one trial per additional level, each succeeding when the generator's
    output falls in one residue class out of [branching_factor]; the
    extension stops at the first failed trial or when [budget] levels, the
    distance to [MaxHeight], have been added.  Returns the number of levels
    added and the generator after the trials made. *)
Fixpoint sample_extensions (budget : nat) (g : Rng) : nat * Rng :=
  match budget with
  | 0 => (0, g)
  | S budget' =>
      let r := rng_call g in
      if (fst r mod branching_factor =? 0)%N
      then let e := sample_extensions budget' (snd r) in (S (fst e), snd e)
      else (0, snd r)
  end.

Definition sampled_height (g : Rng) : nat * Rng :=
  let e := sample_extensions (MaxHeight - 1) g in (1 + fst e, snd e).

(** [n] successive calls of [RandomHeight], threading the generator. *)
Fixpoint RandomHeights (n : nat) (g : Rng) : outcome (list nat) :=
  match n with
  | 0 => Ok []
  | S n' =>
      do r <- RandomHeight g;
      do rest <- RandomHeights n' (snd r);
      Ok (fst r :: rest)
  end.

(** The heights the specification's sampler yields over [n] draws. *)
Fixpoint sampled_heights (n : nat) (g : Rng) : list nat :=
  match n with
  | 0 => []
  | S n' => fst (sampled_height g) :: sampled_heights n' (snd (sampled_height g))
  end.

(** ** Histories *)

Inductive op : Type :=
| OpInsert (key : K)
| OpErase (key : K)
| OpClear.

Definition step (s : SkipList) (o : op) : outcome SkipList :=
  match o with
  | OpInsert key => do r <- Insert s key; Ok (snd r)
  | OpErase key => do r <- Erase s key; Ok (snd r)
  | OpClear => Clear s
  end.

Fixpoint run (s : SkipList) (ops : list op) : outcome SkipList :=
  match ops with
  | [] => Ok s
  | o :: ops' => do s' <- step s o; run s' ops'
  end.

(** A state is reachable when some history of [Insert], [Erase] and [Clear]
    leads to it from the freshly constructed container. *)
Definition reachable (s : SkipList) : Prop :=
  exists ops, run SkipList_new ops = Ok s.

(** The live keys in the words of the specification: a key becomes live
    when an insert accepts it (no equivalent key is live), stops being live
    when it is erased, and [Clear] leaves no live key. *)
Definition live_step (ks : list K) (o : op) : list K :=
  match o with
  | OpInsert key => if existsb (equiv_key key) ks then ks else key :: ks
  | OpErase key => List.filter (key_other key) ks
  | OpClear => []
  end.

Definition live (ops : list op) : list K := fold_left live_step ops [].

(** The inserts of a list of keys, in order, with their results. *)
Fixpoint InsertAll (s : SkipList) (keys : list K) : outcome (list bool * SkipList) :=
  match keys with
  | [] => Ok ([], s)
  | key :: keys' =>
      do r <- Insert s key;
      do r' <- InsertAll (snd r) keys';
      Ok (fst r :: fst r', snd r')
  end.

Definition accepted (bs : list bool) : nat := length (List.filter id bs).

(** The nodes of level [L], in chain order. *)
Definition chain_nodes (s : SkipList) (L : nat) : list ptr :=
  match Chain s L with
  | Ok l => map fst l
  | _ => []
  end.

(** [is_pred s L key p]: [p] is the predecessor of [key] at level [L], the
    header or a node of the level-[L] chain whose key is below [key], and
    whose successor at that level, if any, is above [key]. *)
Definition is_pred (s : SkipList) (L : nat) (key : K) (p : ptr) : Prop :=
  L < hgt (nodes_ s) p /\
  (p = header_ \/
   (p ∈ chain_nodes s L /\ compare_ (keyof (nodes_ s) p) key = true)) /\
  match link (nodes_ s) p L with
  | Some q => compare_ key (keyof (nodes_ s) q) = true
  | None => True
  end.

(** The order of the two writes of a splice as the specification words it:
    whenever a node's reference at a level is set to the new node, the new
    node's own reference at that level has been written before. *)
Definition new_node_written_first (ev : list event) (new : ptr) : Prop :=
  forall i p L,
    ev !! i = Some (EvSetNext p L (Some new)) ->
    exists j v, j < i /\ ev !! j = Some (EvSetNext new L v).

(** * The store *)

Lemma hgt_lookup m p L :
  L < hgt m p -> exists n, m !! p = Some n /\ Height n = hgt m p.
Proof.
  unfold hgt. destruct (m !! p) as [n|]; [eauto | lia].
Qed.

Lemma hgt_lt_length m p L : L < hgt m p -> p < length m.
Proof.
  intros H. destruct (hgt_lookup _ _ _ H) as (n & Hn & _).
  eapply lookup_lt_Some; eauto.
Qed.

Lemma NextAt_ok m p L : L < hgt m p -> NextAt m p L = Ok (link m p L).
Proof.
  intros H. unfold NextAt, deref, link, hgt in *.
  destruct (m !! p) as [n|]; [|lia]. simpl. unfold Next, Height in *.
  destruct (Nat.leb_spec (length (links_ n)) L); [lia | reflexivity].
Qed.

Lemma SetNextAt_ok m p L v : L < hgt m p -> SetNextAt m p L v = Ok (set_link m p L v).
Proof.
  intros H. unfold SetNextAt, deref, set_link, hgt in *.
  destruct (m !! p) as [n|]; [|lia]. simpl. unfold SetNext, Height in *.
  destruct (Nat.leb_spec (length (links_ n)) L); [lia | reflexivity].
Qed.

Lemma MoveOut_ok m p L :
  L < hgt m p -> MoveOut m p L = Ok (link m p L, set_link m p L None).
Proof.
  intros H. unfold MoveOut, deref, set_link, link, hgt in *.
  destruct (m !! p) as [n|]; [|lia]. simpl. unfold Height in *.
  destruct (lookup_lt_is_Some_2 (links_ n) L H) as [x Hx]. rewrite Hx. reflexivity.
Qed.

Lemma length_set_link m p L v : length (set_link m p L v) = length m.
Proof.
  unfold set_link. destruct (m !! p); [apply length_insert | reflexivity].
Qed.

Lemma lookup_set_link m p L v q :
  set_link m p L v !! q =
  if decide (q = p)
  then (fun n => mkSkipNode (<[L := v]> (links_ n)) (key_ n)) <$> m !! p
  else m !! q.
Proof.
  unfold set_link. destruct (m !! p) as [n|] eqn:Hn.
  - destruct (decide (q = p)) as [->|Hne].
    + rewrite list_lookup_insert_eq; [reflexivity|]. eapply lookup_lt_Some; eauto.
    + rewrite list_lookup_insert_ne; auto.
  - destruct (decide (q = p)) as [->|Hne]; auto.
Qed.

Lemma hgt_set_link m p L v q : hgt (set_link m p L v) q = hgt m q.
Proof.
  unfold hgt. rewrite lookup_set_link.
  destruct (decide (q = p)) as [->|]; [|reflexivity].
  destruct (m !! p); simpl; [|reflexivity].
  unfold Height. simpl. apply length_insert.
Qed.

Lemma keyof_set_link m p L v q : keyof (set_link m p L v) q = keyof m q.
Proof.
  unfold keyof. rewrite lookup_set_link.
  destruct (decide (q = p)) as [->|]; [|reflexivity].
  destruct (m !! p); reflexivity.
Qed.

Lemma link_set_link_eq m p L v : L < hgt m p -> link (set_link m p L v) p L = v.
Proof.
  intros H. unfold link, hgt in *. rewrite lookup_set_link.
  rewrite decide_True by reflexivity.
  destruct (m !! p) as [n|]; [|lia]. simpl.
  rewrite list_lookup_insert_eq; auto.
Qed.

Lemma link_set_link_ne m p L v q L' :
  q <> p \/ L' <> L -> link (set_link m p L v) q L' = link m q L'.
Proof.
  intros H. unfold link. rewrite lookup_set_link.
  destruct (decide (q = p)) as [->|]; [|reflexivity].
  destruct H as [H|H]; [congruence|].
  destruct (m !! p) as [n|]; [|reflexivity]. simpl.
  rewrite list_lookup_insert_ne; auto.
Qed.

(** Allocation appends a node; its address is the former length. *)
Lemma hgt_alloc m n q :
  hgt (m ++ [n]) q = if decide (q = length m) then Height n else hgt m q.
Proof.
  unfold hgt. destruct (decide (q = length m)) as [->|Hne].
  - rewrite lookup_app_r by lia. rewrite Nat.sub_diag. reflexivity.
  - destruct (Nat.lt_ge_cases q (length m)).
    + rewrite lookup_app_l by lia. reflexivity.
    + rewrite !lookup_ge_None_2; auto. rewrite length_app. simpl. lia.
Qed.

Lemma keyof_alloc m n q : q < length m -> keyof (m ++ [n]) q = keyof m q.
Proof.
  intros H. unfold keyof. rewrite lookup_app_l by lia. reflexivity.
Qed.

Lemma keyof_alloc_new m n : keyof (m ++ [n]) (length m) = Key n.
Proof.
  unfold keyof. rewrite lookup_app_r by lia. rewrite Nat.sub_diag. reflexivity.
Qed.

Lemma link_alloc m n q L : q < length m -> link (m ++ [n]) q L = link m q L.
Proof.
  intros H. unfold link. rewrite lookup_app_l by lia. reflexivity.
Qed.

Lemma link_alloc_new m h k L : link (m ++ [SkipNode_new h k]) (length m) L = None.
Proof.
  unfold link. rewrite lookup_app_r by lia. rewrite Nat.sub_diag. simpl.
  destruct (replicate h None !! L) as [x|] eqn:E; [|reflexivity].
  apply lookup_replicate in E. destruct E as [-> _]. reflexivity.
Qed.

Lemma equiv_key_spec a b :
  equiv_key a b = true <-> compare_ a b = false /\ compare_ b a = false.
Proof.
  unfold equiv_key. destruct (compare_ a b), (compare_ b a); simpl; intuition congruence.
Qed.

Lemma equiv_key_sym a b : equiv_key a b = equiv_key b a.
Proof. unfold equiv_key. apply andb_comm. Qed.

Section Order.
Hypothesis swo : StrictWeakOrder.

Lemma compare_asym a b : compare_ a b = true -> compare_ b a = false.
Proof.
  intros H. destruct (compare_ b a) eqn:E; [|reflexivity].
  pose proof (swo_trans swo _ _ _ H E) as H1.
  rewrite (swo_irrefl swo) in H1. discriminate.
Qed.

Lemma compare_equiv_l a b c :
  equiv_key a b = true -> compare_ b c = true -> compare_ a c = true.
Proof.
  intros Hab Hbc. destruct (compare_ a c) eqn:Hac; [reflexivity|].
  destruct (compare_ c a) eqn:Hca.
  - pose proof (swo_trans swo _ _ _ Hbc Hca) as Hba.
    apply equiv_key_spec in Hab. destruct Hab; congruence.
  - assert (Heq : equiv_key c a = true) by (apply equiv_key_spec; auto).
    pose proof (swo_incomp swo _ _ _ Heq Hab) as Hcb.
    apply equiv_key_spec in Hcb. destruct Hcb; congruence.
Qed.

End Order.

(** ** Chains *)

(** [chain m L first l]: following the forward references of level [L]
    from the pointer [first] visits exactly the nodes [l], in that order,
    and ends on the null pointer. *)
Inductive chain (m : store) (L : nat) : option ptr -> list ptr -> Prop :=
| chain_nil : chain m L None []
| chain_cons p l :
    L < hgt m p -> chain m L (link m p L) l -> chain m L (Some p) (p :: l).

Lemma chain_ext m m' L first l :
  (forall p, p ∈ l -> hgt m' p = hgt m p /\ link m' p L = link m p L) ->
  chain m L first l -> chain m' L first l.
Proof.
  intros Hext H. induction H; constructor.
  - destruct (Hext p) as [-> _]; [left|]; auto.
  - destruct (Hext p) as [_ ->]; [left|].
    apply IHchain. intros q Hq. apply Hext. right. auto.
Qed.

Lemma chain_app_inv m L first xs p ys :
  chain m L first (xs ++ p :: ys) -> L < hgt m p /\ chain m L (link m p L) ys.
Proof.
  revert first. induction xs as [|x xs IH]; simpl; intros first H; inversion H; subst; eauto.
Qed.

Lemma chain_first m L first p l : chain m L first (p :: l) -> first = Some p.
Proof. inversion 1; auto. Qed.

Lemma chain_nil_inv m L first : chain m L first [] -> first = None.
Proof. inversion 1; auto. Qed.

(** Last node of [c :: l]. *)
Fixpoint last_from (c : ptr) (l : list ptr) : ptr :=
  match l with
  | [] => c
  | p :: r => last_from p r
  end.

Lemma last_from_app c a p b : last_from c (a ++ p :: b) = last_from p b.
Proof. revert c. induction a; simpl; auto. Qed.

Lemma last_from_filter_split (P : ptr -> Prop) `{!forall x, Decision (P x)} c l :
  exists pre post,
    c :: l = pre ++ last_from c (filter P l) :: post /\
    filter P post = [] /\
    (pre = [] \/ P (last_from c (filter P l))).
Proof.
  revert c. induction l as [|p l IH]; intros c.
  - exists [], []. simpl. auto.
  - destruct (decide (P p)) as [Hp|Hp].
    + rewrite filter_cons_True by auto. simpl.
      destruct (IH p) as (pre & post & E & Hpost & Hor).
      exists (c :: pre), post. simpl.
      split; [f_equal; exact E|]. split; [exact Hpost|].
      right. destruct Hor as [->|Hr]; [|exact Hr].
      simpl in E. injection E as E1 E2. rewrite <- E1. exact Hp.
    + rewrite filter_cons_False by auto.
      destruct (IH c) as (pre & post & E & Hpost & Hor).
      destruct pre as [|c' pre].
      * simpl in E. injection E as E1 E2.
        exists [], (p :: l). simpl. split; [f_equal; exact E1|].
        split; [|auto]. rewrite filter_cons_False by auto.
        rewrite E2. exact Hpost.
      * simpl in E. injection E as E1 E2.
        exists (c :: p :: pre), post. simpl.
        split; [do 2 f_equal; exact E2|].
        split; [exact Hpost|]. right. destruct Hor as [|Hr]; [discriminate | exact Hr].
Qed.

Lemma filter_nil_impl (P Q : ptr -> Prop)
    `{!forall x, Decision (P x)} `{!forall x, Decision (Q x)} (l : list ptr) :
  (forall x, Q x -> P x) -> filter P l = [] -> filter Q l = [].
Proof.
  intros HPQ. induction l as [|x l IH]; [auto|].
  destruct (decide (P x)).
  - rewrite (filter_cons_True P) by auto. discriminate.
  - rewrite (filter_cons_False P) by auto. intros Hnil.
    rewrite filter_cons_False by auto. auto.
Qed.

Lemma deref_obs m p L :
  L < hgt m p ->
  exists n, deref m p = Ok n /\ Height n = hgt m p /\ Key n = keyof m p.
Proof.
  intros H. destruct (hgt_lookup _ _ _ H) as (n & Hn & Hh).
  exists n. unfold deref, keyof. rewrite Hn. auto.
Qed.

(** ** The representation invariant *)

Definition key_lt (m : store) (p q : ptr) : Prop :=
  compare_ (keyof m p) (keyof m q) = true.

(** [wf m l0]: [l0] lists the live nodes in level-0 order.  Keys increase
    strictly along [l0]; at every level [L] the chain hanging from the
    header consists of the nodes of [l0] that are taller than [L]. *)
Record wf (m : store) (l0 : list ptr) : Prop := {
  wf_header : hgt m header_ = MaxHeight;
  wf_nodes : Forall (fun p => p <> header_ /\ 0 < hgt m p <= MaxHeight) l0;
  wf_sorted : StronglySorted (key_lt m) l0;
  wf_chain : forall L, L < MaxHeight ->
      chain m L (link m header_ L) (filter (fun p => L < hgt m p) l0);
  wf_bound : length l0 < length m
}.

Definition Inv (s : SkipList) (l0 : list ptr) : Prop :=
  wf (nodes_ s) l0 /\ size_ s = wrap_size_t (Z.of_nat (length l0)).

(** The live nodes split around a key: strictly below, equivalent, strictly
    above. *)
Record Split (m : store) (key : K) (l0 lo mid hi : list ptr) : Prop := {
  split_eq : l0 = lo ++ mid ++ hi;
  split_lo : Forall (fun p => compare_ key (keyof m p) = false /\
                              compare_ (keyof m p) key = true) lo;
  split_mid : Forall (fun p => equiv_key key (keyof m p) = true) mid;
  split_hi : Forall (fun p => compare_ key (keyof m p) = true) hi;
  split_one : length mid <= 1
}.

Lemma sorted_split (swo : StrictWeakOrder) m key l0 :
  StronglySorted (key_lt m) l0 -> exists lo mid hi, Split m key l0 lo mid hi.
Proof.
  induction 1 as [|p l Hs IH Hall].
  - exists [], [], []. constructor; simpl; auto.
  - destruct (compare_ (keyof m p) key) eqn:Hpk.
    + destruct IH as (lo & mid & hi & [E Hlo Hmid Hhi Hone]).
      exists (p :: lo), mid, hi. constructor; auto.
      * simpl. congruence.
      * constructor; auto. split; auto. apply compare_asym; auto.
    + destruct (compare_ key (keyof m p)) eqn:Hkp.
      * exists [], [], (p :: l). constructor; simpl; auto.
        constructor; auto.
        rewrite Forall_forall in Hall |- *. intros q Hq.
        apply (swo_trans swo key (keyof m p)); [auto | apply Hall; auto].
      * exists [], [p], l. constructor; simpl; auto.
        -- constructor; auto. apply equiv_key_spec; auto.
        -- rewrite Forall_forall in Hall |- *. intros q Hq.
           apply (compare_equiv_l swo key (keyof m p));
             [apply equiv_key_spec; auto | apply Hall; auto].
Qed.

(** ** The three scans along one level *)

Lemma Insert_scan_spec m i key a b :
  forall cur fuel,
    i < hgt m cur ->
    chain m i (link m cur i) (a ++ b) ->
    Forall (fun p => compare_ key (keyof m p) = false) a ->
    match b with [] => True | p :: _ => compare_ key (keyof m p) = true end ->
    length a < fuel ->
    Insert_scan fuel m cur i key = Ok (last_from cur a).
Proof.
  induction a as [|p a IH]; intros cur fuel Hc Hch Ha Hb Hf;
    (destruct fuel as [|fuel]; [simpl in Hf; lia|]); simpl;
    rewrite NextAt_ok by auto; simpl.
  - simpl in Hch. destruct b as [|q b].
    + apply chain_nil_inv in Hch. rewrite Hch. reflexivity.
    + pose proof (chain_first _ _ _ _ _ Hch) as E. rewrite E.
      apply (chain_app_inv _ _ _ []) in Hch. destruct Hch as [Hq _].
      destruct (deref_obs _ _ _ Hq) as (n & -> & _ & Hk). simpl.
      rewrite Hk, Hb. reflexivity.
  - simpl in Hch. pose proof (chain_first _ _ _ _ _ Hch) as E. rewrite E.
    apply (chain_app_inv _ _ _ []) in Hch. destruct Hch as [Hp Hch].
    destruct (deref_obs _ _ _ Hp) as (n & -> & _ & Hk). simpl.
    inversion Ha as [|? ? Hpa Ha']; subst. rewrite Hk, Hpa.
    apply IH; auto. simpl in Hf. lia.
Qed.

Lemma Contains_scan_spec m i key a b :
  forall cur fuel,
    i < hgt m cur ->
    chain m i (link m cur i) (a ++ b) ->
    Forall (fun p => compare_ key (keyof m p) = false /\
                     compare_ (keyof m p) key = true) a ->
    match b with [] => True | p :: _ => compare_ (keyof m p) key = false end ->
    length a < fuel ->
    Contains_scan fuel m cur i key =
      Ok (match b with [] => false | p :: _ => equiv_key key (keyof m p) end,
          last_from cur a).
Proof.
  induction a as [|p a IH]; intros cur fuel Hc Hch Ha Hb Hf;
    (destruct fuel as [|fuel]; [simpl in Hf; lia|]); simpl;
    rewrite NextAt_ok by auto; simpl.
  - simpl in Hch. destruct b as [|q b].
    + apply chain_nil_inv in Hch. rewrite Hch. reflexivity.
    + pose proof (chain_first _ _ _ _ _ Hch) as E. rewrite E.
      apply (chain_app_inv _ _ _ []) in Hch. destruct Hch as [Hq _].
      destruct (deref_obs _ _ _ Hq) as (n & -> & _ & Hk). simpl.
      rewrite Hk. unfold equiv_key. rewrite Hb.
      destruct (compare_ key (keyof m q)); reflexivity.
  - simpl in Hch. pose proof (chain_first _ _ _ _ _ Hch) as E. rewrite E.
    apply (chain_app_inv _ _ _ []) in Hch. destruct Hch as [Hp Hch].
    destruct (deref_obs _ _ _ Hp) as (n & -> & _ & Hk). simpl.
    inversion Ha as [|? ? [Hpa Hpb] Ha']; subst. rewrite Hk, Hpa, Hpb. simpl.
    apply IH; auto. simpl in Hf. lia.
Qed.

Lemma Erase_scan_spec m i key te a b :
  forall cur fuel,
    i < hgt m cur ->
    chain m i (link m cur i) (a ++ b) ->
    Forall (fun p => compare_ key (keyof m p) = false /\
                     compare_ (keyof m p) key = true) a ->
    match b with [] => True | p :: _ => compare_ (keyof m p) key = false end ->
    length a < fuel ->
    Erase_scan fuel m cur te i key =
      Ok (last_from cur a,
          match b with
          | [] => te
          | p :: _ => if equiv_key key (keyof m p) then Some p else te
          end).
Proof.
  induction a as [|p a IH]; intros cur fuel Hc Hch Ha Hb Hf;
    (destruct fuel as [|fuel]; [simpl in Hf; lia|]); simpl;
    rewrite NextAt_ok by auto; simpl.
  - simpl in Hch. destruct b as [|q b].
    + apply chain_nil_inv in Hch. rewrite Hch. reflexivity.
    + pose proof (chain_first _ _ _ _ _ Hch) as E. rewrite E.
      apply (chain_app_inv _ _ _ []) in Hch. destruct Hch as [Hq _].
      destruct (deref_obs _ _ _ Hq) as (n & -> & _ & Hk). simpl.
      rewrite Hk. unfold equiv_key. rewrite Hb.
      destruct (compare_ key (keyof m q)); reflexivity.
  - simpl in Hch. pose proof (chain_first _ _ _ _ _ Hch) as E. rewrite E.
    apply (chain_app_inv _ _ _ []) in Hch. destruct Hch as [Hp Hch].
    destruct (deref_obs _ _ _ Hp) as (n & -> & _ & Hk). simpl.
    inversion Ha as [|? ? [Hpa Hpb] Ha']; subst. rewrite Hk, Hpa, Hpb.
    apply IH; auto. simpl in Hf. lia.
Qed.

Lemma filter_nil_Forall (P : ptr -> Prop) `{!forall x, Decision (P x)} (l : list ptr) :
  filter P l = [] <-> Forall (fun x => ~ P x) l.
Proof.
  induction l as [|x l IH]; [split; auto|].
  destruct (decide (P x)).
  - rewrite filter_cons_True by auto. split; [discriminate|].
    inversion 1; subst. tauto.
  - rewrite filter_cons_False by auto. rewrite IH. split; [auto|].
    inversion 1; auto.
Qed.

(** ** Predecessors *)

(** The predecessor of the key at level [i]: the last node taller than [i]
    among the nodes below the key, or the header when there is none. *)
Definition pred (m : store) (lo : list ptr) (i : nat) : ptr :=
  last_from header_ (filter (fun p => i < hgt m p) lo).

(** First node of the stack that is taller than [l]. *)
Definition first_tall (m : store) (l : nat) (st : list ptr) : option ptr :=
  find (fun p => l <? hgt m p) st.

Section Position.
Hypothesis swo : StrictWeakOrder.
Variables (m : store) (key : K) (l0 lo mid hi : list ptr).
Hypothesis Hwf : wf m l0.
Hypothesis Hsp : Split m key l0 lo mid hi.

Lemma lo_nodes : Forall (fun p => p <> header_ /\ 0 < hgt m p <= MaxHeight) lo.
Proof.
  pose proof (wf_nodes _ _ Hwf) as H. rewrite (split_eq _ _ _ _ _ _ Hsp) in H.
  apply Forall_app in H. tauto.
Qed.

Lemma mid_nodes : Forall (fun p => p <> header_ /\ 0 < hgt m p <= MaxHeight) mid.
Proof.
  pose proof (wf_nodes _ _ Hwf) as H. rewrite (split_eq _ _ _ _ _ _ Hsp) in H.
  apply Forall_app in H. destruct H as [_ H]. apply Forall_app in H. tauto.
Qed.

Lemma lo_length : length lo < length m.
Proof.
  pose proof (wf_bound _ _ Hwf) as H. rewrite (split_eq _ _ _ _ _ _ Hsp) in H.
  rewrite length_app in H. lia.
Qed.

Lemma pred_split i :
  exists pre post,
    header_ :: lo = pre ++ pred m lo i :: post /\
    filter (fun p => i < hgt m p) post = [] /\
    (pre = [] \/ i < hgt m (pred m lo i)).
Proof. apply (last_from_filter_split (fun p => i < hgt m p)). Qed.

Lemma pred_in i : pred m lo i ∈ header_ :: lo.
Proof.
  destruct (pred_split i) as (pre & post & E & _). rewrite E.
  apply elem_of_app. right. left.
Qed.

Lemma pred_hgt i : i < MaxHeight -> i < hgt m (pred m lo i).
Proof.
  intros Hi. destruct (pred_split i) as (pre & post & E & _ & [->|H]); auto.
  simpl in E. injection E as E _. rewrite <- E, (wf_header _ _ Hwf). auto.
Qed.

Lemma pred_top : pred m lo MaxHeight = header_.
Proof.
  unfold pred. rewrite (proj2 (filter_nil_Forall _ lo)); [reflexivity|].
  eapply Forall_impl; [apply lo_nodes|]. simpl. intros p. lia.
Qed.

Lemma last_from_pred i pre cur post :
  header_ :: lo = pre ++ cur :: post ->
  i < hgt m cur ->
  last_from cur (filter (fun p => i < hgt m p) post) = pred m lo i.
Proof.
  intros E Hc. unfold pred. destruct pre as [|h pre]; simpl in E; injection E as E1 E2.
  - subst. reflexivity.
  - subst lo. rewrite filter_app, filter_cons_True by auto.
    rewrite last_from_app. reflexivity.
Qed.

Lemma pred_stable i j :
  i <= j -> j < hgt m (pred m lo i) -> pred m lo j = pred m lo i.
Proof.
  intros Hij Hj. destruct (pred_split i) as (pre & post & E & Hpost & _).
  rewrite <- (last_from_pred j pre (pred m lo i) post E Hj).
  rewrite (filter_nil_impl (fun p => i < hgt m p) (fun p => j < hgt m p)); auto.
  intros x. lia.
Qed.

Lemma rest_chain i pre cur post :
  i < MaxHeight ->
  header_ :: lo = pre ++ cur :: post ->
  i < hgt m cur ->
  chain m i (link m cur i)
    (filter (fun p => i < hgt m p) post ++ filter (fun p => i < hgt m p) (mid ++ hi)).
Proof.
  intros Hi E Hc. pose proof (wf_chain _ _ Hwf i Hi) as Hch.
  rewrite (split_eq _ _ _ _ _ _ Hsp) in Hch.
  destruct pre as [|h pre]; simpl in E; injection E as E1 E2.
  - subst. rewrite filter_app in Hch. exact Hch.
  - subst lo. rewrite <- !app_assoc in Hch. simpl in Hch.
    rewrite filter_app, filter_cons_True, filter_app in Hch by auto.
    apply chain_app_inv in Hch. tauto.
Qed.

Lemma filter_lo_below i post pre cur :
  header_ :: lo = pre ++ cur :: post ->
  Forall (fun p => compare_ key (keyof m p) = false /\
                   compare_ (keyof m p) key = true)
         (filter (fun p => i < hgt m p) post).
Proof.
  intros E. assert (Hsub : forall x, x ∈ post -> x ∈ lo).
  { intros x Hx. destruct pre as [|h pre]; simpl in E; injection E as E1 E2.
    - subst. auto.
    - subst lo. apply elem_of_app. right. right. auto. }
  pose proof (split_lo _ _ _ _ _ _ Hsp) as Hlo.
  rewrite Forall_forall in Hlo |- *. intros x Hx.
  apply list_elem_of_filter in Hx. apply Hlo, Hsub. tauto.
Qed.

Lemma filter_post_length i post pre cur :
  header_ :: lo = pre ++ cur :: post ->
  length (filter (fun p => i < hgt m p) post) < gas m.
Proof.
  intros E. pose proof (length_filter (fun p => i < hgt m p) post) as H1.
  pose proof lo_length as H2.
  assert (length post <= length lo).
  { apply (f_equal length) in E. simpl in E. rewrite length_app in E. simpl in E. lia. }
  unfold gas. lia.
Qed.

(** What stands after the predecessor at level [i] is not below the key. *)
Lemma after_pred_head i :
  match filter (fun p => i < hgt m p) (mid ++ hi) with
  | [] => True
  | p :: _ => compare_ (keyof m p) key = false
  end.
Proof.
  destruct (filter _ (mid ++ hi)) as [|p r] eqn:E; [exact I|].
  assert (Hp : p ∈ mid ++ hi).
  { assert (Hin : p ∈ filter (fun p => i < hgt m p) (mid ++ hi)) by (rewrite E; left).
    apply list_elem_of_filter in Hin. tauto. }
  apply elem_of_app in Hp. destruct Hp as [Hp|Hp].
  - pose proof (split_mid _ _ _ _ _ _ Hsp) as Hm. rewrite Forall_forall in Hm.
    apply Hm in Hp. apply equiv_key_spec in Hp. tauto.
  - pose proof (split_hi _ _ _ _ _ _ Hsp) as Hh. rewrite Forall_forall in Hh.
    apply Hh in Hp. apply compare_asym; auto.
Qed.

Lemma Insert_scan_pred i cur :
  mid = [] -> i < MaxHeight -> cur ∈ header_ :: lo -> i < hgt m cur ->
  Insert_scan (gas m) m cur i key = Ok (pred m lo i).
Proof.
  intros Hmid Hi Hin Hc. apply list_elem_of_split in Hin.
  destruct Hin as (pre & post & E).
  rewrite <- (last_from_pred i pre cur post E Hc).
  apply Insert_scan_spec with (b := filter (fun p => i < hgt m p) (mid ++ hi)); auto.
  - eapply rest_chain; eauto.
  - eapply Forall_impl; [eapply filter_lo_below; eauto|]. simpl. tauto.
  - subst mid. simpl. destruct (filter _ hi) as [|p r] eqn:Eh; [exact I|].
    assert (Hp : p ∈ filter (fun p => i < hgt m p) hi) by (rewrite Eh; left).
    apply list_elem_of_filter in Hp. destruct Hp as [_ Hp].
    pose proof (split_hi _ _ _ _ _ _ Hsp) as Hh. rewrite Forall_forall in Hh. auto.
  - eapply filter_post_length; eauto.
Qed.

Lemma Contains_scan_pred i cur :
  i < MaxHeight -> cur ∈ header_ :: lo -> i < hgt m cur ->
  Contains_scan (gas m) m cur i key =
    Ok (match filter (fun p => i < hgt m p) (mid ++ hi) with
        | [] => false
        | p :: _ => equiv_key key (keyof m p)
        end, pred m lo i).
Proof.
  intros Hi Hin Hc. apply list_elem_of_split in Hin.
  destruct Hin as (pre & post & E).
  rewrite <- (last_from_pred i pre cur post E Hc).
  apply Contains_scan_spec; auto.
  - eapply rest_chain; eauto.
  - eapply filter_lo_below; eauto.
  - apply after_pred_head.
  - eapply filter_post_length; eauto.
Qed.

Lemma Erase_scan_pred i cur te :
  i < MaxHeight -> cur ∈ header_ :: lo -> i < hgt m cur ->
  Erase_scan (gas m) m cur te i key =
    Ok (pred m lo i,
        match filter (fun p => i < hgt m p) (mid ++ hi) with
        | [] => te
        | p :: _ => if equiv_key key (keyof m p) then Some p else te
        end).
Proof.
  intros Hi Hin Hc. apply list_elem_of_split in Hin.
  destruct Hin as (pre & post & E).
  rewrite <- (last_from_pred i pre cur post E Hc).
  apply Erase_scan_spec; auto.
  - eapply rest_chain; eauto.
  - eapply filter_lo_below; eauto.
  - apply after_pred_head.
  - eapply filter_post_length; eauto.
Qed.



Lemma mid_tall_head i :
  match filter (fun p => i < hgt m p) (mid ++ hi) with
  | [] => False
  | p :: _ => equiv_key key (keyof m p) = true
  end <-> filter (fun p => i < hgt m p) mid <> [].
Proof.
  rewrite filter_app.
  destruct (filter (fun p => i < hgt m p) mid) as [|t r] eqn:E; simpl.
  - split; [|congruence]. destruct (filter _ hi) as [|p r] eqn:Eh; [tauto|].
    intros Hp. exfalso.
    assert (Hin : p ∈ filter (fun p => i < hgt m p) hi) by (rewrite Eh; left).
    apply list_elem_of_filter in Hin. destruct Hin as [_ Hin].
    pose proof (split_hi _ _ _ _ _ _ Hsp) as Hh. rewrite Forall_forall in Hh.
    apply Hh in Hin. apply equiv_key_spec in Hp. destruct Hp; congruence.
  - split; [congruence|]. intros _.
    assert (Hin : t ∈ filter (fun p => i < hgt m p) mid) by (rewrite E; left).
    apply list_elem_of_filter in Hin. destruct Hin as [_ Hin].
    pose proof (split_mid _ _ _ _ _ _ Hsp) as Hm. rewrite Forall_forall in Hm. auto.
Qed.

(** The outcome of one level of [Contains]: a match is reported exactly
    when the equivalent node is taller than the level. *)
Lemma Contains_scan_found i cur :
  i < MaxHeight -> cur ∈ header_ :: lo -> i < hgt m cur ->
  Contains_scan (gas m) m cur i key =
    Ok (match filter (fun p => i < hgt m p) mid with [] => false | _ => true end,
        pred m lo i).
Proof.
  intros Hi Hin Hc. rewrite Contains_scan_pred by auto. do 2 f_equal.
  pose proof (mid_tall_head i) as H.
  destruct (filter (fun p => i < hgt m p) (mid ++ hi)) as [|p r] eqn:E.
  - destruct (filter _ mid); [reflexivity|]. exfalso. apply H; congruence.
  - destruct (equiv_key key (keyof m p)) eqn:Ek.
    + destruct (filter _ mid); [|reflexivity]. exfalso. apply H; auto.
    + destruct (filter _ mid) as [|t r'] eqn:Em; [reflexivity|].
      assert (false = true); [|discriminate]. apply H. congruence.
Qed.

Lemma Contains_levels_spec n :
  forall cur,
    n <= MaxHeight -> cur ∈ header_ :: lo -> n <= hgt m cur ->
    Contains_levels n m cur key =
      Ok (match mid with [] => false | _ => 0 <? n end).
Proof.
  induction n as [|i IH]; intros cur Hn Hin Hc; cbn [Contains_levels].
  - destruct mid; reflexivity.
  - rewrite Contains_scan_found by (auto; lia). simpl.
    destruct (filter (fun p => i < hgt m p) mid) as [|t r] eqn:E.
    + rewrite IH; [| lia | apply pred_in |].
      * pose proof mid_nodes as Hm. apply filter_nil_Forall in E.
        destruct mid as [|t r]; [reflexivity|]. f_equal.
        inversion E as [|? ? Ht _]; subst.
        inversion Hm as [|? ? [_ Hh] _]; subst.
        destruct (Nat.ltb_spec 0 i); [reflexivity | lia].
      * pose proof (pred_hgt i). lia.
    + destruct mid; [discriminate | reflexivity].
Qed.

(** Invariant of the stack of predecessors once the levels [n] and above
    have been scanned. *)
Definition stack_ok (n : nat) (st : list ptr) : Prop :=
  (forall l, n <= l < MaxHeight -> first_tall m l st = Some (pred m lo l)) /\
  (n < MaxHeight -> head st = Some (pred m lo n)) /\
  (n = MaxHeight -> st = []) /\
  Forall (fun p => p ∈ header_ :: lo) st.

Lemma stack_ok_push i st :
  i < MaxHeight -> stack_ok (S i) st ->
  stack_ok i (push_distinct st (pred m lo i)).
Proof.
  intros Hi (Hff & Hhd & Hnil & Hall).
  pose proof (pred_hgt i Hi) as Hpi.
  assert (Hfirst : forall r, first_tall m i (pred m lo i :: r) = Some (pred m lo i)).
  { intros r. unfold first_tall. simpl.
    destruct (Nat.ltb_spec i (hgt m (pred m lo i))); [reflexivity | lia]. }
  unfold push_distinct. destruct st as [|top st'].
  - assert (S i = MaxHeight).
    { destruct (decide (S i = MaxHeight)); [auto|].
      assert (Hlt : S i < MaxHeight) by lia. apply Hhd in Hlt. discriminate. }
    split; [|split; [|split]].
    + intros l Hl. assert (l = i) by lia. subst l. apply Hfirst.
    + intros _. reflexivity.
    + intros ->. lia.
    + constructor; [apply pred_in | constructor].
  - assert (Hlt : S i < MaxHeight).
    { destruct (decide (S i = MaxHeight)) as [E|]; [|lia].
      apply Hnil in E. discriminate. }
    pose proof (Hhd Hlt) as Htop. simpl in Htop. injection Htop as Htop.
    destruct (Nat.eqb_spec (pred m lo i) top) as [E|E].
    + split; [|split; [|split]].
      * intros l Hl. destruct (decide (l = i)) as [->|]; [|apply Hff; lia].
        rewrite <- E. apply Hfirst.
      * intros _. simpl. congruence.
      * intros ->. lia.
      * exact Hall.
    + split; [|split; [|split]].
      * intros l Hl. destruct (decide (l = i)) as [->|]; [apply Hfirst|].
        unfold first_tall. simpl.
        destruct (Nat.ltb_spec l (hgt m (pred m lo i))) as [Hl'|Hl'].
        -- exfalso. apply E. rewrite Htop. symmetry.
           apply pred_stable; lia.
        -- apply Hff. lia.
      * intros _. reflexivity.
      * intros ->. lia.
      * constructor; [apply pred_in | exact Hall].
Qed.

Lemma Insert_levels_spec n :
  forall st,
    mid = [] -> n <= MaxHeight -> stack_ok n st ->
    exists st', Insert_levels n m (pred m lo n) st key = Ok st' /\ stack_ok 0 st'.
Proof.
  induction n as [|i IH]; intros st Hmid Hn Hst; cbn [Insert_levels].
  - eauto.
  - assert (Hh : i < hgt m (pred m lo (S i))).
    { destruct (decide (S i = MaxHeight)) as [E|].
      - rewrite E, pred_top, (wf_header _ _ Hwf). lia.
      - pose proof (pred_hgt (S i)). lia. }
    rewrite Insert_scan_pred; [| auto | lia | apply pred_in | exact Hh].
    simpl. apply IH; [auto | lia |]. apply stack_ok_push; auto.
Qed.

(** The node that [Erase] has identified once the levels [n] and above have
    been scanned. *)
Definition found_above (n : nat) : option ptr :=
  head (filter (fun p => n < hgt m p) mid).

Lemma found_above_step i :
  match filter (fun p => i < hgt m p) (mid ++ hi) with
  | [] => found_above (S i)
  | p :: _ => if equiv_key key (keyof m p) then Some p else found_above (S i)
  end = found_above i.
Proof.
  unfold found_above. pose proof (mid_tall_head i) as H.
  assert (Hmono : filter (fun p => i < hgt m p) mid = [] ->
                  filter (fun p => S i < hgt m p) mid = []).
  { apply filter_nil_impl. intros x. lia. }
  rewrite filter_app in *.
  destruct (filter (fun p => i < hgt m p) mid) as [|t r] eqn:Em; simpl in *.
  - rewrite Hmono by auto. simpl.
    destruct (filter _ hi) as [|p r]; [reflexivity|].
    destruct (equiv_key key (keyof m p)); [|reflexivity].
    exfalso. apply H; auto.
  - rewrite (proj2 H) by congruence. reflexivity.
Qed.

Lemma Erase_levels_spec n :
  forall st,
    n <= MaxHeight -> stack_ok n st ->
    exists st',
      Erase_levels n m (pred m lo n) (found_above n) st key = Ok (st', found_above 0) /\
      stack_ok 0 st'.
Proof.
  induction n as [|i IH]; intros st Hn Hst; cbn [Erase_levels].
  - eauto.
  - assert (Hh : i < hgt m (pred m lo (S i))).
    { destruct (decide (S i = MaxHeight)) as [E|].
      - rewrite E, pred_top, (wf_header _ _ Hwf). lia.
      - pose proof (pred_hgt (S i)). lia. }
    rewrite Erase_scan_pred; [| lia | apply pred_in | exact Hh].
    simpl. rewrite found_above_step. apply IH; [lia |]. apply stack_ok_push; auto.
Qed.

Lemma stack_ok_init : stack_ok MaxHeight [].
Proof.
  split; [|split; [|split]]; try lia; auto.
Qed.

Lemma found_above_top : found_above MaxHeight = None.
Proof.
  unfold found_above. rewrite (proj2 (filter_nil_Forall _ mid)); [reflexivity|].
  eapply Forall_impl; [apply mid_nodes|]. simpl. intros p. lia.
Qed.

Lemma filter_id_Forall (P : ptr -> Prop) `{!forall x, Decision (P x)} (l : list ptr) :
  Forall P l -> filter P l = l.
Proof.
  induction 1 as [|x l Hx _ IH]; [reflexivity|].
  rewrite filter_cons_True by auto. f_equal. exact IH.
Qed.

Lemma found_above_bottom : found_above 0 = head mid.
Proof.
  unfold found_above. rewrite filter_id_Forall; [reflexivity|].
  eapply Forall_impl; [apply mid_nodes|]. simpl. intros p. lia.
Qed.

End Position.

(** ** Splicing and unsplicing *)

(** [linked P new l h m m']: [m'] is [m] after the node [new] has been
    spliced in behind [P L] at every level [L] of [[l, h)]. *)
Definition linked (P : nat -> ptr) (new : ptr) (l h : nat) (m m' : store) : Prop :=
  length m' = length m /\
  (forall q, hgt m' q = hgt m q) /\
  (forall q, keyof m' q = keyof m q) /\
  (forall q L, link m' q L =
     if decide (l <= L < h) then
       if decide (q = P L) then Some new
       else if decide (q = new) then link m (P L) L
       else link m q L
     else link m q L).

(** The writes of a splice over the levels [[l, h)], in program order. *)
Definition link_events (P : nat -> ptr) (new : ptr) (m : store) (l h : nat)
  : list event :=
  flat_map (fun L => [EvSetNext (P L) L (Some new);
                      EvSetNext new L (link m (P L) L)]) (seq l (h - l)).

(** [unlinked P t l h m m']: [m'] is [m] after the node [t] has been
    bypassed by [P L] at every level [L] of [[l, h)]. *)
Definition unlinked (P : nat -> ptr) (t : ptr) (l h : nat) (m m' : store) : Prop :=
  length m' = length m /\
  (forall q, hgt m' q = hgt m q) /\
  (forall q, keyof m' q = keyof m q) /\
  (forall q L, link m' q L =
     if decide (l <= L < h) then
       if decide (q = P L) then link m t L
       else if decide (q = t) then None
       else link m q L
     else link m q L).

Ltac cases :=
  repeat (case_decide; subst; simpl in *; try lia; try congruence; auto).

Lemma linked_refl P new l m : linked P new l l m m.
Proof.
  repeat split; auto. intros q L. rewrite decide_False by lia. reflexivity.
Qed.

Lemma linked_trans P new l l1 h m m1 m2 :
  l <= l1 <= h -> (forall L, l <= L < h -> P L <> new) ->
  linked P new l l1 m m1 -> linked P new l1 h m1 m2 -> linked P new l h m m2.
Proof.
  intros Hl HP (Hlen1 & Hh1 & Hk1 & Hl1) (Hlen2 & Hh2 & Hk2 & Hl2).
  split; [congruence|]. split; [intros; rewrite Hh2; auto|].
  split; [intros; rewrite Hk2; auto|].
  intros q L. rewrite Hl2, !Hl1.
  assert (l <= L < h -> P L <> new) by auto. cases.
Qed.

Lemma linked_one P new L m :
  P L <> new -> L < hgt m (P L) -> L < hgt m new ->
  linked P new L (S L) m
    (set_link (set_link m (P L) L (Some new)) new L (link m (P L) L)).
Proof.
  intros Hne H1 H2. split; [rewrite !length_set_link; auto|].
  split; [intros; rewrite !hgt_set_link; auto|].
  split; [intros; rewrite !keyof_set_link; auto|].
  intros q L'. destruct (decide (L <= L' < S L)) as [HL|HL].
  - assert (L' = L) by lia. subst L'.
    destruct (decide (q = P L)) as [->|Hq].
    + rewrite link_set_link_ne by auto. apply link_set_link_eq. auto.
    + destruct (decide (q = new)) as [->|Hq'].
      * apply link_set_link_eq. rewrite hgt_set_link. auto.
      * rewrite !link_set_link_ne by auto. reflexivity.
  - rewrite !link_set_link_ne by (right; lia). reflexivity.
Qed.

Lemma flat_map_agree {A B : Type} (f g : A -> list B) (l : list A) :
  (forall a, In a l -> f a = g a) -> flat_map f l = flat_map g l.
Proof.
  induction l as [|a l IH]; intros H; simpl; [reflexivity|].
  rewrite H by (left; reflexivity). f_equal. apply IH. intros; apply H; right; auto.
Qed.

Lemma link_events_split P new m m1 l l1 h :
  l <= l1 <= h ->
  (forall L, l1 <= L < h -> link m1 (P L) L = link m (P L) L) ->
  link_events P new m l l1 ++ link_events P new m1 l1 h = link_events P new m l h.
Proof.
  intros Hl Hm. unfold link_events.
  replace (h - l) with ((l1 - l) + (h - l1)) by lia.
  rewrite seq_app, flat_map_app. f_equal.
  replace (l + (l1 - l)) with l1 by lia.
  apply flat_map_agree. intros L HL. apply in_seq in HL.
  rewrite Hm by lia. reflexivity.
Qed.

Lemma Insert_link_spec P node new h fuel :
  forall m level,
    node <> new -> hgt m new = h -> 0 < hgt m node -> level <= h ->
    h - level < fuel ->
    (forall L, level <= L < Nat.min h (hgt m node) -> P L = node) ->
    exists m',
      Insert_link fuel m node new h level =
        Ok (m', Nat.max level (Nat.min h (hgt m node)),
            link_events P new m level (Nat.max level (Nat.min h (hgt m node)))) /\
      linked P new level (Nat.max level (Nat.min h (hgt m node))) m m'.
Proof.
  induction fuel as [|fuel IH]; intros m level Hne Hnew Hnode Hlev Hf HP; [lia|].
  cbn [Insert_link].
  destruct (deref_obs _ _ _ Hnode) as (n & -> & Hn & _). cbn [bind]. rewrite Hn.
  destruct (Nat.ltb_spec level (Nat.min h (hgt m node))) as [Hlt|Hge].
  - assert (HPl : P level = node) by (apply HP; lia).
    rewrite NextAt_ok by lia. cbn [bind].
    rewrite SetNextAt_ok by lia. cbn [bind].
    rewrite SetNextAt_ok by (rewrite hgt_set_link; lia). cbn [bind].
    set (m2 := set_link (set_link m node level (Some new)) new level (link m node level)).
    assert (Hone : linked P new level (S level) m m2).
    { subst m2. rewrite <- HPl. apply linked_one; rewrite ?HPl; auto; lia. }
    pose proof Hone as (Hlen & Hh & Hk & Hl).
    destruct (IH m2 (S level)) as (m' & Hrun & Hlk); auto.
    + rewrite Hh. auto.
    + rewrite Hh. auto.
    + lia.
    + lia.
    + intros L HL. rewrite Hh in HL. apply HP. lia.
    + rewrite Hh in Hrun, Hlk. rewrite Hrun. cbn [bind fst snd].
      replace (Nat.max (S level) (Nat.min h (hgt m node)))
        with (Nat.max level (Nat.min h (hgt m node))) in * by lia.
      exists m'. split.
      * do 2 f_equal.
        assert (E1 : link_events P new m level (S level) =
                     [EvSetNext node level (Some new);
                      EvSetNext new level (link m node level)]).
        { unfold link_events. replace (S level - level) with 1 by lia.
          simpl. rewrite HPl. reflexivity. }
        rewrite <- (link_events_split P new m m2 level (S level)); [| lia |].
        -- rewrite E1. reflexivity.
        -- intros L HL. rewrite Hl. rewrite decide_False by lia. reflexivity.
      * eapply linked_trans; [| | exact Hone | exact Hlk]; [lia|].
        intros L HL. rewrite HP by lia. auto.
  - exists m. replace (Nat.max level (Nat.min h (hgt m node))) with level by lia.
    split; [|apply linked_refl].
    unfold link_events. rewrite Nat.sub_diag. reflexivity.
Qed.

Lemma first_tall_ext m m' L st :
  (forall q, hgt m' q = hgt m q) -> first_tall m' L st = first_tall m L st.
Proof.
  intros H. unfold first_tall. induction st as [|p st IH]; simpl; [reflexivity|].
  rewrite H, IH. reflexivity.
Qed.

Lemma Insert_splice_spec P new h st :
  forall m level,
    hgt m new = h -> level <= h ->
    (forall L, level <= L < h -> first_tall m L st = Some (P L)) ->
    Forall (fun p => 0 < hgt m p /\ p <> new) st ->
    exists m',
      Insert_splice st m new h level = Ok (m', link_events P new m level h) /\
      linked P new level h m m'.
Proof.
  induction st as [|node st IH]; intros m level Hnew Hlev Hft Hall;
    cbn [Insert_splice]; destruct (Nat.ltb_spec level h) as [Hlt|Hge].
  - specialize (Hft level ltac:(lia)). discriminate.
  - assert (level = h) by lia. subst level. exists m. split; [|apply linked_refl].
    unfold link_events. rewrite Nat.sub_diag. reflexivity.
  - inversion Hall as [|? ? [Hnode Hne] Hall']; subst.
    set (level' := Nat.max level (Nat.min (hgt m new) (hgt m node))).
    assert (HP : forall L, level <= L < Nat.min (hgt m new) (hgt m node) -> P L = node).
    { intros L HL. specialize (Hft L ltac:(lia)). unfold first_tall in Hft. simpl in Hft.
      destruct (Nat.ltb_spec L (hgt m node)); [congruence | lia]. }
    assert (HPne : forall L, level <= L < hgt m new -> P L <> new).
    { intros L HL. specialize (Hft L HL). unfold first_tall in Hft.
      apply find_some in Hft. destruct Hft as [Hin _].
      rewrite Forall_forall in Hall. apply list_elem_of_In in Hin.
      apply Hall in Hin. tauto. }
    destruct (Insert_link_spec P node new (hgt m new) (S (hgt m new)) m level)
      as (m1 & Hrun & Hlk); auto; [lia|].
    fold level' in Hrun, Hlk. rewrite Hrun. cbn [bind fst snd].
    pose proof Hlk as (Hlen & Hh & Hk & Hl).
    destruct (IH m1 level') as (m' & Hrun' & Hlk').
    + rewrite Hh. reflexivity.
    + subst level'. lia.
    + intros L HL. rewrite (first_tall_ext m m1) by auto.
      specialize (Hft L ltac:(subst level'; lia)).
      unfold first_tall in Hft |- *. simpl in Hft.
      destruct (Nat.ltb_spec L (hgt m node)); [subst level'; lia | auto].
    + eapply Forall_impl; [exact Hall'|]. simpl. intros p. rewrite Hh. auto.
    + rewrite Hrun'. cbn [bind fst snd]. exists m'. split.
      * do 2 f_equal. apply link_events_split; [subst level'; lia|].
        intros L HL. rewrite Hl. rewrite decide_False by lia. reflexivity.
      * eapply linked_trans; [| | exact Hlk | exact Hlk']; [subst level'; lia | auto].
  - assert (level = h) by lia. subst level. exists m. split; [|apply linked_refl].
    unfold link_events. rewrite Nat.sub_diag. reflexivity.
Qed.

(** ** Chains under a splice *)

Lemma last_from_in c a : last_from c a ∈ c :: a.
Proof.
  revert c. induction a as [|x a IH]; intros c; simpl; [left|].
  right. apply IH.
Qed.

Lemma chain_insert m m' L new b :
  forall a c,
    chain m L (link m c L) (a ++ b) ->
    NoDup (c :: a ++ b) ->
    L < hgt m' new ->
    link m' (last_from c a) L = Some new ->
    link m' new L = link m (last_from c a) L ->
    (forall q, q ∈ c :: a ++ b -> q <> last_from c a -> link m' q L = link m q L) ->
    (forall q, q ∈ a ++ b -> hgt m' q = hgt m q) ->
    chain m' L (link m' c L) (a ++ new :: b).
Proof.
  induction a as [|x a IH]; intros c Hch Hnd Hnew Hp Hn Hother Hh; simpl in *.
  - rewrite Hp. constructor; [auto|]. rewrite Hn.
    apply NoDup_cons in Hnd. destruct Hnd as [Hc _].
    eapply chain_ext; [|exact Hch]. intros q Hq. split; [auto|].
    apply Hother; [right; auto|]. intros ->. auto.
  - apply NoDup_cons in Hnd. destruct Hnd as [Hc Hnd].
    assert (Hcp : c <> last_from x a).
    { intros ->. apply Hc. pose proof (last_from_in x a) as Hin.
      apply elem_of_cons in Hin. destruct Hin as [->|Hin]; [left|].
      right. apply elem_of_app. auto. }
    rewrite (Hother c) by (auto; left).
    pose proof (chain_first _ _ _ _ _ Hch) as E. rewrite E.
    apply (chain_app_inv _ _ _ []) in Hch. destruct Hch as [Hx Hch].
    constructor; [rewrite Hh by left; auto|].
    apply IH; auto.
    + intros q Hq Hne. apply Hother; auto. right. auto.
    + intros q Hq. apply Hh. right. auto.
Qed.

Lemma chain_remove m m' L t b :
  forall a c,
    chain m L (link m c L) (a ++ t :: b) ->
    NoDup (c :: a ++ t :: b) ->
    link m' (last_from c a) L = link m t L ->
    (forall q, q ∈ c :: a ++ b -> q <> last_from c a -> link m' q L = link m q L) ->
    (forall q, q ∈ a ++ b -> hgt m' q = hgt m q) ->
    chain m' L (link m' c L) (a ++ b).
Proof.
  induction a as [|x a IH]; intros c Hch Hnd Hp Hother Hh; simpl in *.
  - rewrite Hp. apply (chain_app_inv _ _ _ []) in Hch. destruct Hch as [_ Hch].
    apply NoDup_cons in Hnd. destruct Hnd as [Hc _].
    eapply chain_ext; [|exact Hch]. intros q Hq. split; [auto|].
    apply Hother; [right; auto|]. intros ->. apply Hc. right. auto.
  - apply NoDup_cons in Hnd. destruct Hnd as [Hc Hnd].
    assert (Hcp : c <> last_from x a).
    { intros ->. apply Hc. pose proof (last_from_in x a) as Hin.
      apply elem_of_cons in Hin. destruct Hin as [->|Hin]; [left|].
      right. apply elem_of_app. auto. }
    rewrite (Hother c) by (auto; left).
    pose proof (chain_first _ _ _ _ _ Hch) as E. rewrite E.
    apply (chain_app_inv _ _ _ []) in Hch. destruct Hch as [Hx Hch].
    constructor; [rewrite Hh by left; auto|].
    apply IH; auto.
    + intros q Hq Hne. apply Hother; auto. right. auto.
    + intros q Hq. apply Hh. right. auto.
Qed.

Lemma filter_agree (P Q : ptr -> Prop)
    `{!forall x, Decision (P x)} `{!forall x, Decision (Q x)} (l : list ptr) :
  (forall x, x ∈ l -> (P x <-> Q x)) -> filter P l = filter Q l.
Proof.
  induction l as [|x l IH]; intros Hag; [reflexivity|].
  assert (Hx : P x <-> Q x) by (apply Hag; left).
  assert (Hl : filter P l = filter Q l) by (apply IH; intros; apply Hag; right; auto).
  destruct (decide (P x)).
  - rewrite !filter_cons_True by tauto. congruence.
  - rewrite !filter_cons_False by tauto. congruence.
Qed.

Lemma sorted_NoDup (swo : StrictWeakOrder) m l :
  StronglySorted (key_lt m) l -> NoDup l.
Proof.
  induction 1 as [|p l Hs IH Hall]; constructor; auto.
  intros Hin. rewrite Forall_forall in Hall. specialize (Hall p Hin).
  unfold key_lt in Hall. rewrite (swo_irrefl swo) in Hall. discriminate.
Qed.

Lemma sorted_ext m m' l :
  (forall q, q ∈ l -> keyof m' q = keyof m q) ->
  StronglySorted (key_lt m) l -> StronglySorted (key_lt m') l.
Proof.
  intros H Hs. induction Hs as [|p l Hs IH Hall]; constructor.
  - apply IH. intros; apply H; right; auto.
  - rewrite Forall_forall in Hall |- *. intros q Hq. unfold key_lt.
    rewrite !H by (try left; try right; auto). apply Hall; auto.
Qed.

Lemma wf_NoDup (swo : StrictWeakOrder) m l0 : wf m l0 -> NoDup (header_ :: l0).
Proof.
  intros Hwf. constructor.
  - intros Hin. pose proof (wf_nodes _ _ Hwf) as H. rewrite Forall_forall in H.
    apply H in Hin. tauto.
  - eapply sorted_NoDup; eauto. apply (wf_sorted _ _ Hwf).
Qed.

Lemma wf_allocated m l0 q : wf m l0 -> 0 < MaxHeight -> q ∈ header_ :: l0 -> 0 < hgt m q.
Proof.
  intros Hwf HM Hq. apply elem_of_cons in Hq. destruct Hq as [->|Hq].
  - rewrite (wf_header _ _ Hwf). auto.
  - pose proof (wf_nodes _ _ Hwf) as H. rewrite Forall_forall in H.
    apply H in Hq. tauto.
Qed.

Lemma NoDup_filter_app (P : ptr -> Prop) `{!forall x, Decision (P x)} c (a b : list ptr) :
  NoDup (c :: a ++ b) -> NoDup (c :: filter P a ++ filter P b).
Proof.
  intros Hnd. apply NoDup_cons in Hnd. destruct Hnd as [Hc Hnd]. apply NoDup_cons. split.
  - intros Hin. apply Hc. rewrite <- filter_app in Hin.
    apply list_elem_of_filter in Hin. tauto.
  - rewrite <- filter_app. apply NoDup_filter. auto.
Qed.

(** ** The height sampler *)

Lemma sample_extensions_le budget g : fst (sample_extensions budget g) <= budget.
Proof.
  revert g. induction budget as [|b IH]; intros g; simpl; [lia|].
  destruct (_ =? _)%N; simpl; [|lia]. specialize (IH (snd (rng_call g))). lia.
Qed.

Lemma RandomHeight_loop_spec fuel :
  forall height g,
    height <= MaxHeight -> MaxHeight - height < fuel ->
    RandomHeight_loop fuel height g =
      Ok (height + fst (sample_extensions (MaxHeight - height) g),
          snd (sample_extensions (MaxHeight - height) g)).
Proof.
  induction fuel as [|fuel IH]; intros height g Hh Hf; [lia|].
  cbn [RandomHeight_loop]. destruct (Nat.ltb_spec height MaxHeight) as [Hlt|Hge].
  - replace (MaxHeight - height) with (S (MaxHeight - S height)) by lia.
    cbn [sample_extensions]. destruct (_ =? _)%N.
    + rewrite IH by lia. cbn [fst snd]. do 2 f_equal. lia.
    + cbn [fst snd]. do 2 f_equal. lia.
  - replace (MaxHeight - height) with 0 by lia. simpl. do 2 f_equal. lia.
Qed.

Lemma RandomHeight_spec g :
  0 < MaxHeight -> RandomHeight g = Ok (sampled_height g).
Proof.
  intros HM. unfold RandomHeight, sampled_height.
  rewrite RandomHeight_loop_spec by lia. reflexivity.
Qed.

Lemma sampled_height_range g :
  0 < MaxHeight -> 1 <= fst (sampled_height g) <= MaxHeight.
Proof.
  intros HM. unfold sampled_height. simpl.
  pose proof (sample_extensions_le (MaxHeight - 1) g). lia.
Qed.

(** ** Insert preserves the invariant *)

Lemma sorted_insert m m' key lo hi new :
  keyof m' new = key ->
  (forall q, q ∈ lo ++ hi -> keyof m' q = keyof m q) ->
  Forall (fun p => compare_ (keyof m p) key = true) lo ->
  Forall (fun p => compare_ key (keyof m p) = true) hi ->
  StronglySorted (key_lt m) (lo ++ hi) ->
  StronglySorted (key_lt m') (lo ++ new :: hi).
Proof.
  intros Hnew Hold Hlo Hhi Hs.
  apply (sorted_ext m m') in Hs; [|auto].
  apply StronglySorted_app in Hs. destruct Hs as (Hcross & Hslo & Hshi).
  apply StronglySorted_app. split; [|split; auto].
  - intros x1 x2 H1 H2. apply elem_of_cons in H2. destruct H2 as [->|H2]; [|auto].
    unfold key_lt. rewrite Hnew, Hold by (apply elem_of_app; auto).
    rewrite Forall_forall in Hlo. auto.
  - constructor; [auto|]. rewrite Forall_forall in Hhi |- *. intros q Hq.
    unfold key_lt. rewrite Hnew, Hold by (apply elem_of_app; auto). auto.
Qed.

Lemma wf_insert (swo : StrictWeakOrder) m l0 key lo hi h m' :
  wf m l0 -> Split m key l0 lo [] hi ->
  0 < h <= MaxHeight ->
  linked (pred m lo) (length m) 0 h (m ++ [SkipNode_new h key]) m' ->
  wf m' (lo ++ length m :: hi) /\
  keyof m' (length m) = key /\
  hgt m' (length m) = h /\
  (forall q, q < length m -> keyof m' q = keyof m q /\ hgt m' q = hgt m q).
Proof.
  intros Hwf Hsp Hh (Hlen & Hhgt & Hkey & Hlink).
  assert (HM : 0 < MaxHeight) by lia.
  set (new := length m) in *.
  pose proof (split_eq _ _ _ _ _ _ Hsp) as El0. simpl in El0.
  assert (Halloc : forall q, q ∈ header_ :: l0 -> q < new).
  { intros q Hq. eapply hgt_lt_length, wf_allocated; eauto. }
  assert (Hh' : forall q, q < new -> hgt m' q = hgt m q).
  { intros q Hq. rewrite Hhgt, hgt_alloc. rewrite decide_False by (fold new; lia). auto. }
  assert (Hk' : forall q, q < new -> keyof m' q = keyof m q).
  { intros q Hq. rewrite Hkey. apply keyof_alloc. auto. }
  assert (Hhn : hgt m' new = h).
  { rewrite Hhgt, hgt_alloc. rewrite decide_True by reflexivity.
    unfold Height, SkipNode_new. simpl. apply length_replicate. }
  assert (Hkn : keyof m' new = key).
  { rewrite Hkey. unfold new. rewrite keyof_alloc_new. reflexivity. }
  assert (HP : forall L, pred m lo L ∈ header_ :: l0).
  { intros L. pose proof (pred_in m lo L) as Hin. rewrite El0.
    apply elem_of_cons in Hin. destruct Hin as [->|Hin]; [left|].
    right. apply elem_of_app. auto. }
  assert (Hnd : NoDup (header_ :: l0)) by (eapply wf_NoDup; eauto).
  split; [|split; [auto|split; [auto|intros; split; auto]]].
  constructor.
  - rewrite Hh' by (apply Halloc; left). apply (wf_header _ _ Hwf).
  - pose proof (wf_nodes _ _ Hwf) as Hn. rewrite El0 in Hn.
    apply Forall_app in Hn. destruct Hn as [Hn1 Hn2].
    assert (Hold : forall l : list ptr, (forall q, q ∈ l -> q ∈ l0) ->
       Forall (fun p => p <> header_ /\ 0 < hgt m p <= MaxHeight) l ->
       Forall (fun p => p <> header_ /\ 0 < hgt m' p <= MaxHeight) l).
    { intros l Hsub Hl. rewrite Forall_forall in Hl |- *. intros q Hq.
      rewrite Hh' by (apply Halloc; right; auto). auto. }
    apply Forall_app. split; [|constructor].
    + apply Hold; auto. intros q Hq. rewrite El0. apply elem_of_app. auto.
    + rewrite Hhn. split; [|lia]. unfold header_.
      pose proof (wf_bound _ _ Hwf). unfold new. lia.
    + apply Hold; auto. intros q Hq. rewrite El0. apply elem_of_app. auto.
  - apply (sorted_insert m m' key); auto.
    + intros q Hq. apply Hk', Halloc. right. rewrite El0. auto.
    + eapply Forall_impl; [apply (split_lo _ _ _ _ _ _ Hsp)|]. simpl. tauto.
    + apply (split_hi _ _ _ _ _ _ Hsp).
    + rewrite <- El0. apply (wf_sorted _ _ Hwf).
  - intros L HL.
    assert (Hf : forall l : list ptr, (forall q, q ∈ l -> q ∈ l0) ->
               filter (fun p => L < hgt m' p) l = filter (fun p => L < hgt m p) l).
    { intros l Hsub. apply filter_agree. intros q Hq.
      rewrite Hh' by (apply Halloc; right; auto). tauto. }
    assert (Hsub1 : forall q, q ∈ lo -> q ∈ l0).
    { intros q Hq. rewrite El0. apply elem_of_app. auto. }
    assert (Hsub2 : forall q, q ∈ hi -> q ∈ l0).
    { intros q Hq. rewrite El0. apply elem_of_app. auto. }
    pose proof (wf_chain _ _ Hwf L HL) as Hch. rewrite El0, filter_app in Hch.
    rewrite filter_app, Hf by auto.
    destruct (decide (L < h)) as [HLh|HLh].
    + rewrite filter_cons_True, Hf by (auto; lia).
      apply (chain_insert m); auto.
      * apply NoDup_filter_app. rewrite <- El0. auto.
      * lia.
      * fold (pred m lo L). rewrite Hlink, decide_True by lia.
        rewrite decide_True by reflexivity. reflexivity.
      * fold (pred m lo L). rewrite Hlink, decide_True by lia.
        assert (pred m lo L < new) by (apply Halloc, HP).
        rewrite decide_False by lia. rewrite decide_True by reflexivity.
        apply link_alloc. auto.
      * fold (pred m lo L). intros q Hq Hne.
        assert (Hq0 : q ∈ header_ :: l0).
        { apply elem_of_cons in Hq. destruct Hq as [->|Hq]; [left|right].
          rewrite <- filter_app, <- El0 in Hq. apply list_elem_of_filter in Hq. tauto. }
        apply Halloc in Hq0. rewrite Hlink, decide_True by lia.
        rewrite decide_False by auto. rewrite decide_False by lia.
        apply link_alloc. auto.
      * intros q Hq. apply Hh', Halloc. right.
        rewrite <- filter_app, <- El0 in Hq. apply list_elem_of_filter in Hq. tauto.
    + rewrite filter_cons_False, Hf by (auto; lia).
      rewrite Hlink, decide_False by lia.
      rewrite link_alloc by (apply Halloc; left).
      eapply chain_ext; [|exact Hch]. intros q Hq.
      assert (Hq0 : q < new).
      { apply Halloc. right. rewrite <- filter_app, <- El0 in Hq.
        apply list_elem_of_filter in Hq. tauto. }
      split; [auto|]. rewrite Hlink, decide_False by lia. apply link_alloc. auto.
  - rewrite Hlen. pose proof (wf_bound _ _ Hwf) as Hb. rewrite El0 in Hb.
    rewrite !length_app in *. simpl. lia.
Qed.

(** ** Erase preserves the invariant *)

Lemma wf_erase (swo : StrictWeakOrder) m l0 key lo t hi m' :
  wf m l0 -> Split m key l0 lo [t] hi ->
  0 < MaxHeight ->
  unlinked (pred m lo) t 0 (hgt m t) m m' ->
  wf m' (lo ++ hi).
Proof.
  intros Hwf Hsp HM (Hlen & Hhgt & Hkey & Hlink).
  pose proof (split_eq _ _ _ _ _ _ Hsp) as El0. simpl in El0.
  assert (Hnd : NoDup (header_ :: l0)) by (eapply wf_NoDup; eauto).
  assert (Hf : forall (L : nat) (l : list ptr),
             filter (fun p => L < hgt m' p) l = filter (fun p => L < hgt m p) l).
  { intros L l. apply filter_agree. intros q _. rewrite Hhgt. tauto. }
  assert (Ht : forall q, q ∈ header_ :: lo ++ hi -> q <> t).
  { intros q Hq ->. rewrite El0 in Hnd. apply NoDup_cons in Hnd.
    destruct Hnd as [Hh Hnd]. apply elem_of_cons in Hq. destruct Hq as [E|Hq].
    - apply Hh. rewrite <- E. apply elem_of_app. right. left.
    - apply NoDup_app in Hnd. destruct Hnd as (_ & Hcross & Hnd).
      apply NoDup_cons in Hnd. destruct Hnd as [Hth _].
      apply elem_of_app in Hq. destruct Hq as [Hq|Hq]; [|auto].
      apply (Hcross t Hq). left. }
  constructor.
  - rewrite Hhgt. apply (wf_header _ _ Hwf).
  - pose proof (wf_nodes _ _ Hwf) as Hn. rewrite El0 in Hn.
    apply Forall_app in Hn. destruct Hn as [Hn1 Hn2].
    inversion Hn2 as [|? ? _ Hn3]; subst.
    apply Forall_app. split; (eapply Forall_impl; [eassumption|]);
      simpl; intros q; rewrite Hhgt; auto.
  - pose proof (wf_sorted _ _ Hwf) as Hs. rewrite El0 in Hs.
    apply (sorted_ext m m') in Hs; [|auto].
    apply StronglySorted_app in Hs. destruct Hs as (Hcross & Hslo & Hshi).
    apply StronglySorted_app. split; [|split; auto].
    + intros x1 x2 H1 H2. apply Hcross; auto. right. auto.
    + inversion Hshi; auto.
  - intros L HL. pose proof (wf_chain _ _ Hwf L HL) as Hch.
    rewrite El0, filter_app in Hch. rewrite filter_app, !Hf.
    destruct (decide (L < hgt m t)) as [HLt|HLt].
    + rewrite filter_cons_True in Hch by auto.
      apply (chain_remove m m' L t); auto.
      * rewrite <- (filter_cons_True (fun p => L < hgt m p)) by auto.
        apply NoDup_filter_app. rewrite <- El0. auto.
      * fold (pred m lo L). rewrite Hlink, decide_True by lia.
        rewrite decide_True by reflexivity. reflexivity.
      * fold (pred m lo L). intros q Hq Hne.
        assert (Hqt : q <> t).
        { apply Ht. apply elem_of_cons in Hq. destruct Hq as [->|Hq]; [left|right].
          rewrite <- filter_app in Hq. apply list_elem_of_filter in Hq. tauto. }
        rewrite Hlink, decide_True by lia.
        rewrite decide_False by auto. rewrite decide_False by auto. reflexivity.
    + rewrite filter_cons_False in Hch by auto.
      rewrite Hlink, decide_False by lia.
      eapply chain_ext; [|exact Hch]. intros q Hq.
      split; [auto|]. rewrite Hlink, decide_False by lia. reflexivity.
  - rewrite Hlen. pose proof (wf_bound _ _ Hwf) as Hb. rewrite El0 in Hb.
    rewrite !length_app in *. simpl in Hb. lia.
Qed.

(** ** Drop *)

(** The writes of [Drop] at one level: the header's slot, then the slot of
    each node of the chain. *)
Definition drop_events (i : nat) (l : list ptr) : list event :=
  map (fun p => EvMoveOut p i) l.

Lemma Drop_walk_spec i l :
  forall fuel m first,
    chain m i first l -> length l < fuel -> NoDup l ->
    exists m',
      Drop_walk fuel m first i = Ok (m', drop_events i l) /\
      length m' = length m /\
      (forall q, hgt m' q = hgt m q) /\
      (forall q, keyof m' q = keyof m q) /\
      (forall q L, link m' q L =
         if decide (L = i /\ q ∈ l) then None else link m q L).
Proof.
  induction l as [|p l IH]; intros fuel m first Hch Hf Hnd.
  - apply chain_nil_inv in Hch. subst first. exists m. simpl.
    split; [destruct fuel; reflexivity|]. split; [|split; [|split]]; auto.
    intros q L. rewrite decide_False; [reflexivity|]. intros [_ Hq]. inversion Hq.
  - pose proof (chain_first _ _ _ _ _ Hch) as ->.
    apply (chain_app_inv _ _ _ []) in Hch. destruct Hch as [Hp Hch].
    destruct fuel as [|fuel]; [simpl in Hf; lia|]. cbn [Drop_walk].
    rewrite MoveOut_ok by auto. cbn [bind fst snd].
    apply NoDup_cons in Hnd. destruct Hnd as [Hpl Hnd].
    destruct (IH fuel (set_link m p i None) (link m p i)) as (m' & Hrun & Hlen & Hh & Hk & Hl).
    + eapply chain_ext; [|exact Hch]. intros q Hq. rewrite hgt_set_link.
      split; [auto|]. apply link_set_link_ne. left. intros ->. auto.
    + simpl in Hf. lia.
    + auto.
    + rewrite Hrun. cbn [bind fst snd]. exists m'.
      split; [reflexivity|]. split; [rewrite Hlen; apply length_set_link|].
      split; [intros; rewrite Hh; apply hgt_set_link|].
      split; [intros; rewrite Hk; apply keyof_set_link|].
      intros q L. rewrite Hl.
      destruct (decide (L = i /\ q ∈ l)) as [[-> Hq]|Hn].
      * rewrite decide_True; [reflexivity|]. split; [auto | right; auto].
      * destruct (decide (L = i /\ q = p)) as [[-> ->]|Hn'].
        -- rewrite link_set_link_eq by auto.
           rewrite decide_True; [reflexivity|]. split; [auto | left].
        -- rewrite link_set_link_ne by (destruct (decide (q = p)); [right; intros ->|left]; tauto).
           rewrite decide_False; [reflexivity|].
           intros [-> Hq]. apply elem_of_cons in Hq. tauto.
Qed.

Lemma Drop_levels_spec (swo : StrictWeakOrder) l0 n :
  forall i m,
    n + i = MaxHeight ->
    hgt m header_ = MaxHeight ->
    length l0 < length m ->
    NoDup (header_ :: l0) ->
    (forall L, i <= L < MaxHeight ->
       chain m L (link m header_ L) (filter (fun p => L < hgt m p) l0)) ->
    exists m',
      Drop_levels n i m =
        Ok (m', flat_map (fun L => drop_events L
                            (header_ :: filter (fun p => L < hgt m p) l0))
                         (seq i n)) /\
      length m' = length m /\
      (forall q, hgt m' q = hgt m q) /\
      (forall q, keyof m' q = keyof m q) /\
      (forall q L, link m' q L =
         if decide (i <= L < MaxHeight /\ q ∈ header_ :: l0 /\ L < hgt m q)
         then None else link m q L).
Proof.
  induction n as [|n IH]; intros i m Hn Hhd Hb Hnd Hch.
  - exists m. simpl. split; [|split; [|split; [|split]]]; auto. intros q L.
    rewrite decide_False; [reflexivity|]. lia.
  - cbn [Drop_levels]. rewrite MoveOut_ok by lia. cbn [bind fst snd].
    set (m1 := set_link m header_ i None).
    set (li := filter (fun p => i < hgt m p) l0).
    assert (Hnd' : NoDup l0) by (apply NoDup_cons in Hnd; tauto).
    assert (Hhl : header_ ∉ l0) by (apply NoDup_cons in Hnd; tauto).
    assert (Hch1 : chain m1 i (link m header_ i) li).
    { eapply chain_ext; [|apply Hch; lia]. intros q Hq. subst m1.
      rewrite hgt_set_link. split; [auto|]. apply link_set_link_ne. left.
      intros ->. apply list_elem_of_filter in Hq. tauto. }
    destruct (Drop_walk_spec i li (gas m) m1 (link m header_ i))
      as (m2 & Hrun & Hlen & Hh & Hk & Hl); auto.
    { subst li. pose proof (length_filter (fun p => i < hgt m p) l0).
      unfold gas. lia. }
    { subst li. apply NoDup_filter. auto. }
    rewrite Hrun. cbn [bind fst snd].
    assert (Hh2 : forall q, hgt m2 q = hgt m q).
    { intros q. rewrite Hh. apply hgt_set_link. }
    destruct (IH (S i) m2) as (m' & Hrun' & Hlen' & Hh' & Hk' & Hl').
    + lia.
    + rewrite Hh2. auto.
    + rewrite Hlen. subst m1. rewrite length_set_link. auto.
    + auto.
    + intros L HL.
      rewrite (filter_agree (fun p => L < hgt m2 p) (fun p => L < hgt m p))
        by (intros; rewrite Hh2; tauto).
      rewrite Hl, decide_False by lia. subst m1.
      rewrite link_set_link_ne by (right; lia).
      eapply chain_ext; [|apply Hch; lia]. intros q Hq. split; [auto|].
      rewrite Hl, decide_False by lia. apply link_set_link_ne. right. lia.
    + rewrite Hrun'. cbn [bind fst snd]. exists m'.
      split; [|split; [|split; [|split]]].
      * do 2 f_equal. simpl. f_equal. f_equal.
        apply flat_map_agree. intros L HL. f_equal. f_equal.
        apply filter_agree. intros; rewrite Hh2; tauto.
      * rewrite Hlen', Hlen. apply length_set_link.
      * intros. rewrite Hh'. auto.
      * intros. rewrite Hk', Hk. apply keyof_set_link.
      * intros q L. rewrite Hl', Hl, Hh2.
        destruct (decide (S i <= L < MaxHeight /\ q ∈ header_ :: l0 /\ L < hgt m q))
          as [Hc|Hc].
        -- rewrite decide_True; [reflexivity|]. split; [lia | tauto].
        -- destruct (decide (L = i /\ q ∈ li)) as [[-> Hq]|Hc'].
           ++ rewrite decide_True; [reflexivity|]. subst li.
              apply list_elem_of_filter in Hq. split; [lia|]. split; [right|]; tauto.
           ++ subst m1. destruct (decide (L = i /\ q = header_)) as [[-> ->]|Hc''].
              ** rewrite link_set_link_eq by lia. rewrite decide_True; [reflexivity|].
                 split; [lia|]. split; [left | lia].
              ** rewrite link_set_link_ne
                   by (destruct (decide (q = header_)); [right; intros ->|left]; tauto).
                 rewrite decide_False; [reflexivity|].
                 intros (HL & Hq & Hq'). apply elem_of_cons in Hq.
                 destruct (decide (L = i)) as [->|]; [|apply Hc; split; [lia|];
                   split; [apply elem_of_cons|]; tauto].
                 destruct Hq as [->|Hq]; [tauto|]. apply Hc'. split; [auto|].
                 subst li. apply list_elem_of_filter. tauto.
Qed.

Lemma unlinked_refl P t l m : unlinked P t l l m m.
Proof.
  repeat split; auto. intros q L. rewrite decide_False by lia. reflexivity.
Qed.

Lemma unlinked_trans P t l l1 h m m1 m2 :
  l <= l1 <= h ->
  unlinked P t l l1 m m1 -> unlinked P t l1 h m1 m2 -> unlinked P t l h m m2.
Proof.
  intros Hl (Hlen1 & Hh1 & Hk1 & Hl1) (Hlen2 & Hh2 & Hk2 & Hl2).
  split; [congruence|]. split; [intros; rewrite Hh2; auto|].
  split; [intros; rewrite Hk2; auto|].
  intros q L. rewrite Hl2, !Hl1. cases.
Qed.

Lemma unlinked_one P t L m :
  P L <> t -> L < hgt m (P L) -> L < hgt m t ->
  unlinked P t L (S L) m
    (set_link (set_link m t L None) (P L) L (link m t L)).
Proof.
  intros Hne H1 H2. split; [rewrite !length_set_link; auto|].
  split; [intros; rewrite !hgt_set_link; auto|].
  split; [intros; rewrite !keyof_set_link; auto|].
  intros q L'. destruct (decide (L <= L' < S L)) as [HL|HL].
  - assert (L' = L) by lia. subst L'.
    destruct (decide (q = P L)) as [->|Hq].
    + apply link_set_link_eq. rewrite hgt_set_link. auto.
    + rewrite link_set_link_ne by auto.
      destruct (decide (q = t)) as [->|Hq'].
      * apply link_set_link_eq. auto.
      * rewrite link_set_link_ne by auto. reflexivity.
  - rewrite !link_set_link_ne by (right; lia). reflexivity.
Qed.

Lemma Erase_unlink_spec P node t h fuel :
  forall m level,
    node <> t -> hgt m t = h -> 0 < hgt m node -> level <= h ->
    h - level < fuel ->
    (forall L, level <= L < Nat.min h (hgt m node) -> P L = node) ->
    exists m',
      Erase_unlink fuel m node t h level =
        Ok (m', Nat.max level (Nat.min h (hgt m node))) /\
      unlinked P t level (Nat.max level (Nat.min h (hgt m node))) m m'.
Proof.
  induction fuel as [|fuel IH]; intros m level Hne Hnew Hnode Hlev Hf HP; [lia|].
  cbn [Erase_unlink].
  destruct (deref_obs _ _ _ Hnode) as (n & -> & Hn & _). cbn [bind]. rewrite Hn.
  destruct (Nat.ltb_spec level (Nat.min h (hgt m node))) as [Hlt|Hge].
  - assert (HPl : P level = node) by (apply HP; lia).
    rewrite NextAt_ok by lia. cbn [bind].
    rewrite SetNextAt_ok by lia. cbn [bind].
    rewrite SetNextAt_ok by (rewrite hgt_set_link; lia). cbn [bind].
    set (m2 := set_link (set_link m t level None) node level (link m t level)).
    assert (Hone : unlinked P t level (S level) m m2).
    { subst m2. rewrite <- HPl. apply unlinked_one; rewrite ?HPl; auto; lia. }
    pose proof Hone as (Hlen & Hh & Hk & Hl).
    destruct (IH m2 (S level)) as (m' & Hrun & Hlk); auto.
    + rewrite Hh. auto.
    + rewrite Hh. auto.
    + lia.
    + lia.
    + intros L HL. rewrite Hh in HL. apply HP. lia.
    + rewrite Hh in Hrun, Hlk. rewrite Hrun.
      replace (Nat.max (S level) (Nat.min h (hgt m node)))
        with (Nat.max level (Nat.min h (hgt m node))) in * by lia.
      exists m'. split; [reflexivity|].
      eapply unlinked_trans; [| exact Hone | exact Hlk]. lia.
  - exists m. replace (Nat.max level (Nat.min h (hgt m node))) with level by lia.
    split; [reflexivity | apply unlinked_refl].
Qed.

Lemma Erase_splice_spec P t h st :
  forall m level,
    hgt m t = h -> level <= h ->
    (forall L, level <= L < h -> first_tall m L st = Some (P L)) ->
    Forall (fun p => 0 < hgt m p /\ p <> t) st ->
    exists m', Erase_splice st m t h level = Ok m' /\ unlinked P t level h m m'.
Proof.
  induction st as [|node st IH]; intros m level Hnew Hlev Hft Hall;
    cbn [Erase_splice]; destruct (Nat.ltb_spec level h) as [Hlt|Hge].
  - specialize (Hft level ltac:(lia)). discriminate.
  - assert (level = h) by lia. subst level. exists m. split; [auto | apply unlinked_refl].
  - inversion Hall as [|? ? [Hnode Hne] Hall']; subst.
    set (level' := Nat.max level (Nat.min (hgt m t) (hgt m node))).
    assert (HP : forall L, level <= L < Nat.min (hgt m t) (hgt m node) -> P L = node).
    { intros L HL. specialize (Hft L ltac:(lia)). unfold first_tall in Hft. simpl in Hft.
      destruct (Nat.ltb_spec L (hgt m node)); [congruence | lia]. }
    destruct (Erase_unlink_spec P node t (hgt m t) (S (hgt m t)) m level)
      as (m1 & Hrun & Hlk); auto; [lia|].
    fold level' in Hrun, Hlk. rewrite Hrun. cbn [bind fst snd].
    pose proof Hlk as (Hlen & Hh & Hk & Hl).
    destruct (IH m1 level') as (m' & Hrun' & Hlk').
    + rewrite Hh. reflexivity.
    + subst level'. lia.
    + intros L HL. rewrite (first_tall_ext m m1) by auto.
      specialize (Hft L ltac:(subst level'; lia)).
      unfold first_tall in Hft |- *. simpl in Hft.
      destruct (Nat.ltb_spec L (hgt m node)); [subst level'; lia | auto].
    + eapply Forall_impl; [exact Hall'|]. simpl. intros p. rewrite Hh. auto.
    + rewrite Hrun'. exists m'. split; [reflexivity|].
      eapply unlinked_trans; [| exact Hlk | exact Hlk']. subst level'; lia.
  - assert (level = h) by lia. subst level. exists m. split; [auto | apply unlinked_refl].
Qed.

(** ** The operations on a well-formed container *)

Lemma Height_SkipNode_new h key : Height (SkipNode_new h key) = h.
Proof. unfold Height, SkipNode_new. cbn [links_]. apply length_replicate. Qed.

Lemma first_tall_agree m m' L st :
  (forall q, q ∈ st -> hgt m' q = hgt m q) -> first_tall m' L st = first_tall m L st.
Proof.
  intros H. unfold first_tall. induction st as [|p st IH]; simpl; [reflexivity|].
  rewrite H by left. rewrite IH; [reflexivity|]. intros; apply H; right; auto.
Qed.

Lemma wrap_succ n :
  wrap_size_t (wrap_size_t (Z.of_nat n) + 1) = wrap_size_t (Z.of_nat (S n)).
Proof.
  unfold wrap_size_t. rewrite Zplus_mod_idemp_l. f_equal. lia.
Qed.

Lemma wrap_pred n :
  wrap_size_t (wrap_size_t (Z.of_nat (S n)) - 1) = wrap_size_t (Z.of_nat n).
Proof.
  unfold wrap_size_t. rewrite Zminus_mod_idemp_l. f_equal. lia.
Qed.

Lemma Contains_split (swo : StrictWeakOrder) s l0 key lo mid hi :
  Inv s l0 -> 0 < MaxHeight -> Split (nodes_ s) key l0 lo mid hi ->
  Contains s key = Ok (match mid with [] => false | _ => true end).
Proof.
  intros [Hwf _] HM Hsp. unfold Contains.
  rewrite (Contains_levels_spec swo _ _ _ _ _ _ Hwf Hsp); auto.
  - destruct mid; [reflexivity|]. destruct (Nat.ltb_spec 0 MaxHeight); [reflexivity|lia].
  - left.
  - rewrite (wf_header _ _ Hwf). auto.
Qed.

Lemma Insert_traced_split (swo : StrictWeakOrder) s l0 key lo mid hi :
  Inv s l0 -> 0 < MaxHeight -> Split (nodes_ s) key l0 lo mid hi ->
  match mid with
  | _ :: _ => Insert_traced s key = Ok (false, s, [])
  | [] =>
      let m := nodes_ s in
      let h := fst (sampled_height (rng_ s)) in
      let new := length m in
      exists m',
        Insert_traced s key =
          Ok (true,
              mkSkipList m' (wrap_size_t (size_ s + 1)) (snd (sampled_height (rng_ s))),
              link_events (pred m lo) new (m ++ [SkipNode_new h key]) 0 h) /\
        linked (pred m lo) new 0 h (m ++ [SkipNode_new h key]) m' /\
        Inv (mkSkipList m' (wrap_size_t (size_ s + 1)) (snd (sampled_height (rng_ s))))
            (lo ++ new :: hi)
  end.
Proof.
  intros HInv HM Hsp. pose proof HInv as [Hwf Hsize].
  unfold Insert_traced. rewrite (Contains_split swo s l0 key lo mid hi) by auto.
  destruct mid as [|t mid]; [|reflexivity]. cbn [bind].
  destruct (Insert_levels_spec _ _ _ _ _ _ Hwf Hsp MaxHeight []) as (st & Hrun & Hst);
    auto using stack_ok_init.
  rewrite (pred_top _ _ _ _ _ _ Hwf Hsp) in Hrun. rewrite Hrun. cbn [bind].
  rewrite RandomHeight_spec by auto. cbn [bind].
  pose proof (sampled_height_range (rng_ s) HM) as Hh.
  set (h := fst (sampled_height (rng_ s))) in *.
  set (m := nodes_ s) in *. set (ma := m ++ [SkipNode_new h key]).
  destruct Hst as (Hft & _ & _ & Hall).
  pose proof (split_eq _ _ _ _ _ _ Hsp) as El0. simpl in El0.
  assert (Halloc : forall q, q ∈ header_ :: lo -> q < length m).
  { intros q Hq. eapply hgt_lt_length, (wf_allocated m l0); eauto.
    apply elem_of_cons in Hq. destruct Hq as [->|Hq]; [left|right].
    rewrite El0. apply elem_of_app. auto. }
  assert (Hha : forall q, q ∈ st -> hgt ma q = hgt m q).
  { intros q Hq. rewrite Forall_forall in Hall. apply Hall, Halloc in Hq.
    unfold ma. rewrite hgt_alloc. rewrite decide_False by lia. reflexivity. }
  destruct (Insert_splice_spec (pred m lo) (length m) h st ma 0) as (m' & Hrun' & Hlk).
  - unfold ma. rewrite hgt_alloc, decide_True by reflexivity.
    apply Height_SkipNode_new.
  - lia.
  - intros L HL. rewrite (first_tall_agree m ma) by auto. apply Hft. lia.
  - rewrite Forall_forall in Hall |- *. intros q Hq. rewrite Hha by auto.
    pose proof (Halloc q (Hall q Hq)). split; [|lia].
    eapply (wf_allocated m l0); eauto. specialize (Hall q Hq).
    apply elem_of_cons in Hall. destruct Hall as [->|Hq']; [left|right].
    rewrite El0. apply elem_of_app. auto.
  - rewrite Hrun'. cbn [bind fst snd]. exists m'. split; [reflexivity|].
    split; [exact Hlk|].
    destruct (wf_insert swo m l0 key lo hi h m') as (Hwf' & _); auto.
    split; [exact Hwf'|]. cbn [size_]. rewrite Hsize, El0.
    rewrite !length_app. cbn [length]. rewrite wrap_succ. f_equal. lia.
Qed.

Lemma Erase_split (swo : StrictWeakOrder) s l0 key lo mid hi :
  Inv s l0 -> 0 < MaxHeight -> Split (nodes_ s) key l0 lo mid hi ->
  match mid with
  | [] => Erase s key = Ok (false, s)
  | t :: _ =>
      exists m',
        Erase s key = Ok (true, mkSkipList m' (wrap_size_t (size_ s - 1)) (rng_ s)) /\
        unlinked (pred (nodes_ s) lo) t 0 (hgt (nodes_ s) t) (nodes_ s) m' /\
        Inv (mkSkipList m' (wrap_size_t (size_ s - 1)) (rng_ s)) (lo ++ hi)
  end.
Proof.
  intros HInv HM Hsp. pose proof HInv as [Hwf Hsize].
  unfold Erase. rewrite (Contains_split swo s l0 key lo mid hi) by auto.
  pose proof (found_above_top _ _ _ _ _ _ Hwf Hsp) as Htop.
  pose proof (found_above_bottom _ _ _ _ _ _ Hwf Hsp) as Hbot.
  pose proof (mid_nodes _ _ _ _ _ _ Hwf Hsp) as Hmid.
  pose proof (split_one _ _ _ _ _ _ Hsp) as Hone.
  destruct mid as [|t mid]; [reflexivity|]. cbn [bind negb].
  destruct mid as [|t' mid]; [|simpl in Hone; lia].
  destruct (Erase_levels_spec swo _ _ _ _ _ _ Hwf Hsp MaxHeight []) as (st & Hrun & Hst);
    auto using stack_ok_init.
  rewrite (pred_top _ _ _ _ _ _ Hwf Hsp), Htop, Hbot in Hrun.
  rewrite Hrun. cbn [bind fst snd head].
  set (m := nodes_ s) in *.
  inversion Hmid as [|? ? [Hth Hthgt] _]; subst.
  destruct (deref_obs m t 0) as (n & -> & Hn & _); [lia|]. cbn [bind]. rewrite Hn.
  destruct Hst as (Hft & _ & _ & Hall).
  pose proof (split_eq _ _ _ _ _ _ Hsp) as El0. simpl in El0.
  assert (Hnd : NoDup (header_ :: l0)) by (eapply wf_NoDup; eauto).
  assert (Hlo : forall q, q ∈ header_ :: lo -> q ∈ header_ :: l0 /\ q <> t).
  { intros q Hq. rewrite El0 in Hnd |- *. apply NoDup_cons in Hnd.
    destruct Hnd as [Hh Hnd]. apply NoDup_app in Hnd. destruct Hnd as (_ & Hcross & _).
    apply elem_of_cons in Hq. destruct Hq as [->|Hq].
    - split; [left|]. intros <-. apply Hh. apply elem_of_app. right. left.
    - split; [right; apply elem_of_app; auto|]. intros ->. apply (Hcross t Hq). left. }
  destruct (Erase_splice_spec (pred m lo) t (hgt m t) st m 0) as (m' & Hrun' & Hlk).
  - reflexivity.
  - lia.
  - intros L HL. apply Hft. lia.
  - rewrite Forall_forall in Hall |- *. intros q Hq. apply Hall, Hlo in Hq.
    destruct Hq as [Hq Hne]. split; [|auto]. eapply wf_allocated; eauto.
  - rewrite Hrun'. cbn [bind]. exists m'. split; [reflexivity|].
    split; [exact Hlk|]. split.
    + eapply wf_erase; eauto.
    + cbn [size_]. rewrite Hsize, El0. rewrite !length_app. cbn [length].
      replace (length lo + S (length hi)) with (S (length lo + length hi)) by lia.
      apply wrap_pred.
Qed.

Lemma Clear_spec (swo : StrictWeakOrder) s l0 :
  Inv s l0 -> 0 < MaxHeight ->
  exists m',
    Drop_traced (nodes_ s) =
      Ok (m', flat_map (fun L => drop_events L
                          (header_ :: filter (fun p => L < hgt (nodes_ s) p) l0))
                       (seq 0 MaxHeight)) /\
    Clear s = Ok (mkSkipList m' 0 (rng_ s)) /\
    Inv (mkSkipList m' 0 (rng_ s)) [] /\
    (forall q L, q ∈ header_ :: l0 -> link m' q L = None).
Proof.
  intros [Hwf Hsize] HM. set (m := nodes_ s) in *.
  destruct (Drop_levels_spec swo l0 MaxHeight 0 m) as (m' & Hrun & Hlen & Hh & Hk & Hl).
  - lia.
  - apply (wf_header _ _ Hwf).
  - apply (wf_bound _ _ Hwf).
  - eapply wf_NoDup; eauto.
  - intros L HL. apply (wf_chain _ _ Hwf). lia.
  - exists m'. unfold Clear, Drop, Drop_traced. fold m. rewrite Hrun. cbn [bind fst].
    split; [reflexivity|]. split; [reflexivity|]. split; [split|].
    + constructor.
      * rewrite Hh. apply (wf_header _ _ Hwf).
      * constructor.
      * constructor.
      * intros L HL. rewrite filter_nil. rewrite Hl.
        rewrite decide_True; [constructor|].
        split; [lia|]. split; [left|]. rewrite (wf_header _ _ Hwf). auto.
      * simpl. rewrite Hlen. pose proof (wf_bound _ _ Hwf). lia.
    + reflexivity.
    + intros q L Hq. rewrite Hl.
      destruct (decide (0 <= L < MaxHeight /\ q ∈ header_ :: l0 /\ L < hgt m q))
        as [_|Hn]; [reflexivity|].
      unfold link. destruct (m !! q) as [n|] eqn:E; [|reflexivity].
      destruct (links_ n !! L) as [x|] eqn:E'; [|reflexivity].
      exfalso. apply Hn. apply lookup_lt_Some in E'.
      assert (HLq : L < hgt m q) by (unfold hgt; rewrite E; exact E').
      split; [|auto]. split; [lia|].
      apply elem_of_cons in Hq. destruct Hq as [->|Hq].
      * rewrite (wf_header _ _ Hwf) in HLq. auto.
      * pose proof (wf_nodes _ _ Hwf) as Hnodes. rewrite Forall_forall in Hnodes.
        apply Hnodes in Hq. lia.
Qed.

(** ** The abstract view: the keys of level 0 *)

Definition Keys (s : SkipList) (l0 : list ptr) : list K :=
  map (keyof (nodes_ s)) l0.


Lemma existsb_app_false {A} (f : A -> bool) (l : list A) :
  Forall (fun x => f x = false) l -> existsb f l = false.
Proof.
  induction 1 as [|x l Hx _ IH]; simpl; [reflexivity|]. rewrite Hx, IH. reflexivity.
Qed.

Lemma filter_all {A} (f : A -> bool) (l : list A) :
  Forall (fun x => f x = true) l -> List.filter f l = l.
Proof.
  induction 1 as [|x l Hx _ IH]; simpl; [reflexivity|]. rewrite Hx, IH. reflexivity.
Qed.

Lemma filter_none {A} (f : A -> bool) (l : list A) :
  Forall (fun x => f x = false) l -> List.filter f l = [].
Proof.
  induction 1 as [|x l Hx _ IH]; simpl; [reflexivity|]. rewrite Hx, IH. reflexivity.
Qed.

Lemma Forall_map_keyof m (P : K -> Prop) (l : list ptr) :
  Forall (fun p => P (keyof m p)) l -> Forall P (map (keyof m) l).
Proof. induction 1; simpl; constructor; auto. Qed.

Lemma split_lo_other m key l0 lo mid hi :
  Split m key l0 lo mid hi ->
  Forall (fun k => equiv_key key k = false) (map (keyof m) lo).
Proof.
  intros Hsp. apply Forall_map_keyof.
  eapply Forall_impl; [apply (split_lo _ _ _ _ _ _ Hsp)|]. simpl.
  intros p [_ H]. unfold equiv_key. rewrite H. apply andb_false_r.
Qed.

Lemma split_hi_other m key l0 lo mid hi :
  Split m key l0 lo mid hi ->
  Forall (fun k => equiv_key key k = false) (map (keyof m) hi).
Proof.
  intros Hsp. apply Forall_map_keyof.
  eapply Forall_impl; [apply (split_hi _ _ _ _ _ _ Hsp)|]. simpl.
  intros p H. unfold equiv_key. rewrite H. reflexivity.
Qed.

Lemma split_existsb m key l0 lo mid hi :
  Split m key l0 lo mid hi ->
  existsb (equiv_key key) (map (keyof m) l0) =
    match mid with [] => false | _ => true end.
Proof.
  intros Hsp. rewrite (split_eq _ _ _ _ _ _ Hsp), !map_app, !existsb_app.
  rewrite (existsb_app_false _ _ (split_lo_other _ _ _ _ _ _ Hsp)).
  rewrite (existsb_app_false _ _ (split_hi_other _ _ _ _ _ _ Hsp)).
  rewrite orb_false_r. simpl.
  pose proof (split_mid _ _ _ _ _ _ Hsp) as Hm.
  destruct mid as [|t mid]; [reflexivity|]. inversion Hm; subst. simpl.
  rewrite H1. reflexivity.
Qed.

Lemma split_filter_other m key l0 lo mid hi :
  Split m key l0 lo mid hi ->
  List.filter (key_other key) (map (keyof m) l0) = map (keyof m) (lo ++ hi).
Proof.
  intros Hsp. rewrite (split_eq _ _ _ _ _ _ Hsp), !map_app, !List.filter_app.
  rewrite (filter_all _ (map (keyof m) lo)), (filter_all _ (map (keyof m) hi)),
          (filter_none _ (map (keyof m) mid)); [reflexivity| | |].
  - apply Forall_map_keyof. eapply Forall_impl; [apply (split_mid _ _ _ _ _ _ Hsp)|].
    simpl. intros p H. unfold key_other. rewrite H. reflexivity.
  - eapply Forall_impl; [apply (split_hi_other _ _ _ _ _ _ Hsp)|].
    simpl. intros p H. unfold key_other. rewrite H. reflexivity.
  - eapply Forall_impl; [apply (split_lo_other _ _ _ _ _ _ Hsp)|].
    simpl. intros p H. unfold key_other. rewrite H. reflexivity.
Qed.

Lemma Contains_abs (swo : StrictWeakOrder) s l0 key :
  Inv s l0 -> 0 < MaxHeight ->
  Contains s key = Ok (existsb (equiv_key key) (Keys s l0)).
Proof.
  intros HInv HM.
  destruct (sorted_split swo (nodes_ s) key l0) as (lo & mid & hi & Hsp).
  { apply (wf_sorted _ _ (proj1 HInv)). }
  rewrite (Contains_split swo s l0 key lo mid hi) by auto.
  unfold Keys. rewrite (split_existsb _ _ _ _ _ _ Hsp). reflexivity.
Qed.

Lemma Insert_abs (swo : StrictWeakOrder) s l0 key :
  Inv s l0 -> 0 < MaxHeight ->
  exists s' l0' ev,
    Insert_traced s key =
      Ok (negb (existsb (equiv_key key) (Keys s l0)), s', ev) /\
    Inv s' l0' /\
    if existsb (equiv_key key) (Keys s l0)
    then s' = s /\ l0' = l0 /\ ev = []
    else
      size_ s' = wrap_size_t (size_ s + 1) /\
      rng_ s' = snd (sampled_height (rng_ s)) /\
      exists klo khi,
        Keys s l0 = klo ++ khi /\ Keys s' l0' = klo ++ key :: khi /\
        Forall (fun k => compare_ k key = true) klo /\
        Forall (fun k => compare_ key k = true) khi.
Proof.
  intros HInv HM.
  destruct (sorted_split swo (nodes_ s) key l0) as (lo & mid & hi & Hsp).
  { apply (wf_sorted _ _ (proj1 HInv)). }
  pose proof (Insert_traced_split swo s l0 key lo mid hi HInv HM Hsp) as H.
  unfold Keys at 1 2. rewrite (split_existsb _ _ _ _ _ _ Hsp).
  destruct mid as [|t mid].
  - destruct H as (m' & Hrun & Hlk & HInv').
    eexists _, _, _. split; [exact Hrun|]. split; [exact HInv'|].
    split; [reflexivity|]. split; [reflexivity|].
    exists (map (keyof (nodes_ s)) lo), (map (keyof (nodes_ s)) hi).
    pose proof (split_eq _ _ _ _ _ _ Hsp) as El0. simpl in El0.
    destruct HInv as [Hwf _].
    destruct (wf_insert swo (nodes_ s) l0 key lo hi _ m' Hwf Hsp
                (sampled_height_range (rng_ s) HM) Hlk) as (_ & Hkn & _ & Hold).
    assert (Hk : forall l : list ptr, (forall q, q ∈ l -> q ∈ l0) ->
               map (keyof m') l = map (keyof (nodes_ s)) l).
    { intros l Hsub. apply map_ext_in. intros q Hq. apply Hold.
      eapply hgt_lt_length, (wf_allocated (nodes_ s) l0); eauto.
      right. apply Hsub, list_elem_of_In. auto. }
    split; [unfold Keys; rewrite El0, map_app; reflexivity|]. split.
    + unfold Keys. cbn [nodes_]. rewrite map_app. cbn [map]. rewrite Hkn.
      rewrite !Hk; [reflexivity | |]; intros q Hq; rewrite El0; apply elem_of_app; auto.
    + split.
      * apply Forall_map_keyof.
        eapply Forall_impl; [apply (split_lo _ _ _ _ _ _ Hsp)|]. simpl. tauto.
      * apply Forall_map_keyof. apply (split_hi _ _ _ _ _ _ Hsp).
  - exists s, l0, []. auto.
Qed.

Lemma Erase_abs (swo : StrictWeakOrder) s l0 key :
  Inv s l0 -> 0 < MaxHeight ->
  exists s' l0',
    Erase s key = Ok (existsb (equiv_key key) (Keys s l0), s') /\
    Inv s' l0' /\
    Keys s' l0' = List.filter (key_other key) (Keys s l0) /\
    rng_ s' = rng_ s /\
    if existsb (equiv_key key) (Keys s l0)
    then size_ s' = wrap_size_t (size_ s - 1)
    else s' = s.
Proof.
  intros HInv HM.
  destruct (sorted_split swo (nodes_ s) key l0) as (lo & mid & hi & Hsp).
  { apply (wf_sorted _ _ (proj1 HInv)). }
  pose proof (Erase_split swo s l0 key lo mid hi HInv HM Hsp) as H.
  unfold Keys at 1 3 4. rewrite (split_existsb _ _ _ _ _ _ Hsp).
  rewrite (split_filter_other _ _ _ _ _ _ Hsp).
  destruct mid as [|t mid].
  - exists s, l0. split; [exact H|]. split; [exact HInv|].
    split; [|auto]. unfold Keys. rewrite (split_eq _ _ _ _ _ _ Hsp). reflexivity.
  - destruct H as (m' & Hrun & (_ & _ & Hk & _) & HInv').
    eexists _, _. split; [exact Hrun|]. split; [exact HInv'|].
    split; [|auto]. unfold Keys. cbn [nodes_]. apply map_ext. exact Hk.
Qed.

Lemma Clear_abs (swo : StrictWeakOrder) s l0 :
  Inv s l0 -> 0 < MaxHeight ->
  exists s', Clear s = Ok s' /\ Inv s' [] /\ size_ s' = 0%Z /\ rng_ s' = rng_ s.
Proof.
  intros HInv HM. destruct (Clear_spec swo s l0 HInv HM) as (m' & _ & Hrun & HInv' & _).
  eexists. split; [exact Hrun|]. auto.
Qed.

Lemma Keys_sorted s l0 :
  Inv s l0 -> StronglySorted (fun a b => compare_ a b = true) (Keys s l0).
Proof.
  intros [Hwf _]. pose proof (wf_sorted _ _ Hwf) as Hs. unfold Keys. clear Hwf.
  induction Hs as [|p l Hs IH Hall]; simpl; constructor; auto.
  apply Forall_map_keyof. exact Hall.
Qed.

Lemma Inv_new : 0 < MaxHeight -> Inv SkipList_new [].
Proof.
  intros HM. split; [|reflexivity]. constructor.
  - unfold hgt. simpl. apply Height_SkipNode_new.
  - constructor.
  - constructor.
  - intros L HL. rewrite filter_nil. unfold SkipList_new. cbn [nodes_].
    replace (link _ header_ L) with (@None ptr); [constructor|].
    symmetry. apply (link_alloc_new [] MaxHeight K_default L).
  - simpl. lia.
Qed.

(** ** Walking a level *)

Definition cell (m : store) (p : ptr) : SkipNode :=
  default (SkipNode_new 0 K_default) (m !! p).

Lemma Walk_spec m L l :
  forall fuel first,
    chain m L first l -> length l < fuel ->
    Walk fuel m first L = Ok (map (fun p => (p, cell m p)) l).
Proof.
  induction l as [|p l IH]; intros fuel first Hch Hf.
  - apply chain_nil_inv in Hch. subst. destruct fuel; reflexivity.
  - pose proof (chain_first _ _ _ _ _ Hch) as ->.
    apply (chain_app_inv _ _ _ []) in Hch. destruct Hch as [Hp Hch].
    destruct fuel as [|fuel]; [simpl in Hf; lia|]. cbn [Walk].
    pose proof (NextAt_ok m p L Hp) as Hnext. unfold NextAt in Hnext.
    destruct (hgt_lookup _ _ _ Hp) as (n & Hn & _).
    unfold deref in *. rewrite Hn in *. cbn [bind] in *. rewrite Hnext. cbn [bind].
    rewrite (IH fuel) by (auto; simpl in Hf; lia). cbn [bind map].
    assert (Hc : cell m p = n) by (unfold cell; rewrite Hn; reflexivity).
    rewrite Hc. reflexivity.
Qed.

Lemma Chain_abs s l0 L :
  Inv s l0 -> L < MaxHeight ->
  Chain s L =
    Ok (map (fun p => (p, cell (nodes_ s) p))
            (filter (fun p => L < hgt (nodes_ s) p) l0)).
Proof.
  intros [Hwf _] HL. unfold Chain.
  rewrite NextAt_ok by (rewrite (wf_header _ _ Hwf); auto). cbn [bind].
  apply Walk_spec; [apply (wf_chain _ _ Hwf); auto|].
  pose proof (length_filter (fun p => L < hgt (nodes_ s) p) l0).
  pose proof (wf_bound _ _ Hwf). unfold gas. lia.
Qed.

Lemma Key_cell m p : Key (cell m p) = keyof m p.
Proof. unfold cell, keyof. destruct (m !! p); reflexivity. Qed.

Lemma ChainKeys_abs s l0 L :
  Inv s l0 -> L < MaxHeight ->
  ChainKeys s L = Ok (map (keyof (nodes_ s)) (filter (fun p => L < hgt (nodes_ s) p) l0)).
Proof.
  intros HInv HL. unfold ChainKeys. rewrite (Chain_abs s l0 L) by auto. cbn [bind].
  rewrite map_map. f_equal. apply map_ext. intros p. apply Key_cell.
Qed.

Lemma ChainKeys_bottom s l0 :
  Inv s l0 -> 0 < MaxHeight -> ChainKeys s 0 = Ok (Keys s l0).
Proof.
  intros HInv HM. rewrite (ChainKeys_abs s l0 0) by auto. unfold Keys.
  rewrite filter_id_Forall; [reflexivity|].
  eapply Forall_impl; [apply (wf_nodes _ _ (proj1 HInv))|]. simpl. intros p. lia.
Qed.

Lemma sorted_filter_keys (P : ptr -> Prop) `{!forall x, Decision (P x)} m (l : list ptr) :
  StronglySorted (key_lt m) l ->
  StronglySorted (fun a b => compare_ a b = true) (map (keyof m) (filter P l)).
Proof.
  induction 1 as [|p l Hs IH Hall]; [constructor|].
  destruct (decide (P p)).
  - rewrite filter_cons_True by auto. simpl. constructor; [auto|].
    apply Forall_map_keyof. rewrite Forall_forall in Hall |- *.
    intros q Hq. apply list_elem_of_filter in Hq. apply Hall. tauto.
  - rewrite filter_cons_False by auto. auto.
Qed.

Lemma Insert_of_traced s key :
  Insert s key = do r <- Insert_traced s key; Ok (fst r).
Proof. reflexivity. Qed.

Lemma existsb_Permutation {A} (f : A -> bool) (l l' : list A) :
  Permutation l l' -> existsb f l = existsb f l'.
Proof.
  induction 1; simpl; auto.
  - congruence.
  - destruct (f x), (f y); reflexivity.
  - congruence.
Qed.

Lemma filter_Permutation {A} (f : A -> bool) (l l' : list A) :
  Permutation l l' -> Permutation (List.filter f l) (List.filter f l').
Proof.
  induction 1; simpl; auto.
  - destruct (f x); auto.
  - destruct (f x), (f y); auto. constructor.
  - etransitivity; eauto.
Qed.

Lemma step_abs (swo : StrictWeakOrder) s l0 o ks :
  Inv s l0 -> 0 < MaxHeight -> Permutation (Keys s l0) ks ->
  exists s' l0',
    step s o = Ok s' /\ Inv s' l0' /\ Permutation (Keys s' l0') (live_step ks o).
Proof.
  intros HInv HM Hperm. destruct o as [key|key|]; cbn [step live_step].
  - destruct (Insert_abs swo s l0 key HInv HM) as (s' & l0' & ev & Hrun & HInv' & H).
    rewrite Insert_of_traced, Hrun. cbn [bind fst snd].
    exists s', l0'. split; [reflexivity|]. split; [auto|].
    rewrite <- (existsb_Permutation _ _ _ Hperm).
    destruct (existsb (equiv_key key) (Keys s l0)).
    + destruct H as (-> & -> & _). exact Hperm.
    + destruct H as (_ & _ & klo & khi & E & -> & _).
      rewrite <- Hperm, E. symmetry. apply Permutation_middle.
  - destruct (Erase_abs swo s l0 key HInv HM) as (s' & l0' & Hrun & HInv' & Hk & _).
    rewrite Hrun. cbn [bind snd]. exists s', l0'. split; [reflexivity|].
    split; [auto|]. rewrite Hk. apply filter_Permutation. exact Hperm.
  - destruct (Clear_abs swo s l0 HInv HM) as (s' & Hrun & HInv' & _).
    exists s', []. split; [auto|]. split; [auto|]. constructor.
Qed.

Lemma run_abs (swo : StrictWeakOrder) ops :
  forall s l0 ks,
    Inv s l0 -> 0 < MaxHeight -> Permutation (Keys s l0) ks ->
    exists s' l0',
      run s ops = Ok s' /\ Inv s' l0' /\
      Permutation (Keys s' l0') (fold_left live_step ops ks).
Proof.
  induction ops as [|o ops IH]; intros s l0 ks HInv HM Hperm; cbn [run fold_left].
  - exists s, l0. auto.
  - destruct (step_abs swo s l0 o ks HInv HM Hperm) as (s1 & l1 & Hrun & HInv1 & Hperm1).
    rewrite Hrun. cbn [bind]. apply (IH s1 l1); auto.
Qed.

Lemma reachable_Inv (swo : StrictWeakOrder) s :
  0 < MaxHeight -> reachable s -> exists l0, Inv s l0.
Proof.
  intros HM [ops Hrun].
  destruct (run_abs swo ops SkipList_new [] [] (Inv_new HM) HM) as (s' & l0 & Hrun' & HInv & _).
  { constructor. }
  rewrite Hrun in Hrun'. injection Hrun' as ->. eauto.
Qed.

(** * Properties of the node accessors and of the sampler *)

(** C8: [Next(level)] and [SetNext(level, node)] raise the out-of-range
    fault exactly when [level >= Height()]; for [level < Height()], [Next]
    returns the stored forward reference (the null pointer when there is
    none) and [SetNext] installs the given reference at that level only,
    keeping height and key.  A level out of range is never mapped to a slot
    of the node: the outcome is the fault carrying that very level. *)
Theorem Next_SetNext_range (n : SkipNode) (level : nat) (node : option ptr) :
  (Next n level = OutOfRange level <-> Height n <= level) /\
  (SetNext n level node = OutOfRange level <-> Height n <= level) /\
  (Next n level = Ok (default None (links_ n !! level)) <-> level < Height n) /\
  ((exists n',
      SetNext n level node = Ok n' /\
      Next n' level = Ok node /\
      Height n' = Height n /\ Key n' = Key n /\
      forall l, l <> level -> Next n' l = Next n l)
   <-> level < Height n).
Proof.
  clear compare_ MaxHeight K_default rng_call rng_seeded Rng.
  unfold Next, SetNext, Height.
  destruct (Nat.leb_spec (length (links_ n)) level) as [Hge|Hlt].
  - split; [tauto|]. split; [tauto|]. split; [split; [discriminate|lia]|].
    split; [|lia]. intros (n' & H & _). discriminate.
  - split; [split; [discriminate|lia]|]. split; [split; [discriminate|lia]|].
    split; [tauto|]. split; [auto|]. intros _.
    eexists. split; [reflexivity|]. cbn [links_ key_].
    rewrite length_insert.
    destruct (Nat.leb_spec (length (links_ n)) level) as [|_]; [lia|].
    rewrite list_lookup_insert_eq by auto.
    split; [reflexivity|]. split; [reflexivity|]. split; [reflexivity|].
    intros l Hl. rewrite list_lookup_insert_ne by auto. reflexivity.
Qed.

(** C7: from every generator state, [RandomHeight] returns normally with
    the height the specification's sampler defines (start at 1, one more
    level for each successful trial, a trial succeeding when the generator's
    output is a multiple of the branching factor 4, stop at the first
    failure or at [MaxHeight]); that height lies in [[1, MaxHeight]]; and
    the sequence of heights drawn from a given generator state is a function
    of that state alone. *)
Theorem RandomHeight_sampler (HM : 0 < MaxHeight) (g : Rng) :
  RandomHeight g = Ok (sampled_height g) /\
  1 <= fst (sampled_height g) <= MaxHeight /\
  forall n, RandomHeights n g = Ok (sampled_heights n g) /\
            Forall (fun h => 1 <= h <= MaxHeight) (sampled_heights n g).
Proof.
  split; [apply RandomHeight_spec; auto|].
  split; [apply sampled_height_range; auto|].
  intros n. revert g. induction n as [|n IH]; intros g; cbn [RandomHeights sampled_heights].
  - split; [reflexivity | constructor].
  - rewrite RandomHeight_spec by auto. cbn [bind].
    destruct (IH (snd (sampled_height g))) as [-> Hall]. cbn [bind].
    split; [reflexivity|]. constructor; [apply sampled_height_range; auto | exact Hall].
Qed.

(** * Properties of the container *)

(** C3: when [Contains(key)] holds, [Insert(key)] returns false and hands
    back the very same container: count, store and generator are untouched
    and no forward reference is written. *)
Theorem Insert_duplicate (s : SkipList) (key : K) :
  Contains s key = Ok true ->
  Insert s key = Ok (false, s) /\ Insert_traced s key = Ok (false, s, []).
Proof.
  intros H. unfold Insert, Insert_traced. rewrite H. split; reflexivity.
Qed.

Lemma sorted_pairs {A} (R Q : A -> A -> Prop) (l : list A) :
  (forall a b, R a b -> Q a b) -> StronglySorted R l -> ForallOrdPairs Q l.
Proof.
  intros HRQ. induction 1 as [|x l Hs IH Hall]; constructor; auto.
  rewrite Forall_forall in Hall. apply List.Forall_forall. intros y Hy.
  apply HRQ, Hall. apply list_elem_of_In. exact Hy.
Qed.

Lemma compare_not_equiv (swo : StrictWeakOrder) a b :
  compare_ a b = true -> equiv_key a b = false.
Proof. intros H. unfold equiv_key. rewrite H. reflexivity. Qed.

Lemma equiv_key_refl (swo : StrictWeakOrder) a : equiv_key a a = true.
Proof. unfold equiv_key. rewrite (swo_irrefl swo). reflexivity. Qed.

(** C1: after any history of [Insert], [Erase] and [Clear] on a freshly
    constructed container, the history runs to completion and, at every
    level, the keys met by following the forward references from the header
    increase strictly under the comparator; the chain of level 0 holds the
    live keys, each exactly once (it is a permutation of them), and no two
    of its entries are duplicates, that is, equivalent under the
    comparator. *)
Theorem chains_strictly_sorted (swo : StrictWeakOrder) (HM : 0 < MaxHeight)
    (ops : list op) :
  exists s,
    run SkipList_new ops = Ok s /\
    (forall L, L < MaxHeight ->
       exists ks, ChainKeys s L = Ok ks /\
                  StronglySorted (fun a b => compare_ a b = true) ks) /\
    exists ks0,
      ChainKeys s LOWEST_LEVEL = Ok ks0 /\
      Permutation ks0 (live ops) /\
      ForallOrdPairs (fun a b => equiv_key a b = false) ks0.
Proof.
  destruct (run_abs swo ops SkipList_new [] [] (Inv_new HM) HM)
    as (s & l0 & Hrun & HInv & Hperm); [constructor|].
  exists s. split; [exact Hrun|]. split.
  - intros L HL. eexists. split; [apply (ChainKeys_abs s l0 L); auto|].
    apply sorted_filter_keys. apply (wf_sorted _ _ (proj1 HInv)).
  - exists (Keys s l0). split; [apply ChainKeys_bottom; auto|].
    split; [exact Hperm|].
    eapply sorted_pairs; [|apply Keys_sorted; eauto].
    intros a b. apply compare_not_equiv; auto.
Qed.

Lemma Inv_size_range s l0 : Inv s l0 -> (0 <= size_ s < size_t_modulus)%Z.
Proof.
  intros [_ ->]. unfold wrap_size_t. apply Z.mod_pos_bound. reflexivity.
Qed.

Lemma InsertAll_abs (swo : StrictWeakOrder) (HM : 0 < MaxHeight) keys :
  forall s l0,
    Inv s l0 ->
    exists bs s' l0',
      InsertAll s keys = Ok (bs, s') /\ Inv s' l0' /\
      length bs = length keys /\
      size_ s' = wrap_size_t (size_ s + Z.of_nat (accepted bs)) /\
      (forall k, existsb (equiv_key k) (Keys s l0) = true ->
                 existsb (equiv_key k) (Keys s' l0') = true) /\
      Forall (fun k => existsb (equiv_key k) (Keys s' l0') = true) keys /\
      (ForallOrdPairs (fun a b => equiv_key a b = false) keys ->
       Forall (fun k => existsb (equiv_key k) (Keys s l0) = false) keys ->
       bs = repeat true (length keys)).
Proof.
  induction keys as [|key keys IH]; intros s l0 HInv; cbn [InsertAll].
  - exists [], s, l0. split; [reflexivity|]. split; [auto|]. split; [reflexivity|].
    split.
    { unfold accepted. simpl. rewrite Z.add_0_r. unfold wrap_size_t.
      symmetry. apply Z.mod_small. eapply Inv_size_range; eauto. }
    split; [auto|]. split; [constructor|]. reflexivity.
  - destruct (Insert_abs swo s l0 key HInv HM) as (s1 & l1 & ev & Hrun & HInv1 & H).
    rewrite Insert_of_traced, Hrun. cbn [bind fst snd].
    destruct (IH s1 l1 HInv1) as (bs & s' & l0' & Hrun' & HInv' & Hlen & Hsz & Hmono & Hall & Hfresh).
    rewrite Hrun'. cbn [bind fst snd].
    assert (Hmono1 : forall k, existsb (equiv_key k) (Keys s l0) = true ->
                               existsb (equiv_key k) (Keys s1 l1) = true).
    { intros k Hk. destruct (existsb (equiv_key key) (Keys s l0)).
      - destruct H as (-> & -> & _). exact Hk.
      - destruct H as (_ & _ & klo & khi & E & -> & _). rewrite E in Hk.
        rewrite existsb_app in *. simpl. apply orb_true_iff in Hk.
        destruct Hk as [->| ->]; [reflexivity|]. rewrite !orb_true_r. reflexivity. }
    assert (Hin1 : existsb (equiv_key key) (Keys s1 l1) = true).
    { destruct (existsb (equiv_key key) (Keys s l0)) eqn:Ex.
      - destruct H as (-> & -> & _). exact Ex.
      - destruct H as (_ & _ & klo & khi & _ & -> & _).
        rewrite existsb_app. simpl. rewrite (equiv_key_refl swo).
        apply orb_true_r. }
    eexists _, s', l0'. split; [reflexivity|]. split; [auto|].
    split; [simpl; congruence|]. split; [|split; [auto|split]].
    + rewrite Hsz. unfold accepted. simpl.
      destruct (existsb (equiv_key key) (Keys s l0)); simpl.
      * destruct H as (-> & _). reflexivity.
      * destruct H as (-> & _). unfold wrap_size_t.
        rewrite Zplus_mod_idemp_l. f_equal. lia.
    + constructor; auto.
    + intros Hpairs Hnone. inversion Hpairs as [|? ? Hk Hpairs']; subst.
      inversion Hnone as [|? ? Hkey Hnone']; subst.
      rewrite Hkey in *. simpl. f_equal. apply Hfresh; [auto|].
      destruct H as (_ & _ & klo & khi & E & -> & _).
      rewrite List.Forall_forall in Hk. rewrite Forall_forall in Hnone' |- *.
      intros k Hin. specialize (Hnone' k Hin). rewrite E in Hnone'.
      rewrite existsb_app in *. simpl. apply orb_false_iff in Hnone'.
      destruct Hnone' as [-> ->]. rewrite equiv_key_sym.
      rewrite (Hk k) by (apply list_elem_of_In; auto). reflexivity.
Qed.

(** C2: in a reachable state, inserting a key that is not present returns
    true, adds one to the live count (as a [size_t]: exactly one unless the
    count would leave the 64-bit range), and the key is present afterwards.
    Consequently, for any sequence of inserts on a fresh container, [Size]
    is the number of accepted inserts and [Contains] holds for every key of
    the sequence; when the keys are pairwise distinct under the comparator
    every insert is accepted. *)
Theorem Insert_fresh (swo : StrictWeakOrder) (HM : 0 < MaxHeight) :
  (forall s key,
     reachable s -> Contains s key = Ok false ->
     exists s',
       Insert s key = Ok (true, s') /\
       Size s' = wrap_size_t (Size s + 1) /\
       ((Size s + 1 < size_t_modulus)%Z -> Size s' = (Size s + 1)%Z) /\
       Contains s' key = Ok true) /\
  (forall keys,
     exists bs s,
       InsertAll SkipList_new keys = Ok (bs, s) /\
       length bs = length keys /\
       Size s = wrap_size_t (Z.of_nat (accepted bs)) /\
       ((Z.of_nat (accepted bs) < size_t_modulus)%Z -> Size s = Z.of_nat (accepted bs)) /\
       Forall (fun k => Contains s k = Ok true) keys /\
       (ForallOrdPairs (fun a b => equiv_key a b = false) keys ->
        bs = repeat true (length keys) /\ accepted bs = length keys)).
Proof.
  split.
  - intros s key Hreach Hc.
    destruct (reachable_Inv swo s HM Hreach) as (l0 & HInv).
    destruct (Insert_abs swo s l0 key HInv HM) as (s' & l0' & ev & Hrun & HInv' & H).
    rewrite (Contains_abs swo s l0 key HInv HM) in Hc. injection Hc as Hc.
    rewrite Hc in *. destruct H as (Hsz & _ & klo & khi & _ & Hk' & _).
    exists s'. rewrite Insert_of_traced, Hrun. split; [reflexivity|].
    unfold Size. split; [exact Hsz|]. split.
    + intros Hlt. rewrite Hsz. unfold wrap_size_t. apply Z.mod_small.
      pose proof (Inv_size_range s l0 HInv). lia.
    + rewrite (Contains_abs swo s' l0' key HInv' HM), Hk'. f_equal.
      rewrite existsb_app. simpl. rewrite (equiv_key_refl swo). apply orb_true_r.
  - intros keys.
    destruct (InsertAll_abs swo HM keys SkipList_new [] (Inv_new HM))
      as (bs & s & l0 & Hrun & HInv & Hlen & Hsz & _ & Hall & Hfresh).
    exists bs, s. split; [exact Hrun|]. split; [exact Hlen|].
    unfold Size. simpl in Hsz. split; [exact Hsz|]. split.
    + intros Hlt. rewrite Hsz. unfold wrap_size_t. apply Z.mod_small. lia.
    + split.
      * eapply Forall_impl; [exact Hall|]. simpl. intros k Hk.
        rewrite (Contains_abs swo s l0 k HInv HM), Hk. reflexivity.
      * intros Hpairs. assert (E : bs = repeat true (length keys)).
        { apply Hfresh; [auto|]. apply Forall_forall. intros; reflexivity. }
        split; [exact E|]. rewrite E. unfold accepted.
        rewrite filter_all, repeat_length; [reflexivity|].
        apply Forall_forall. intros x Hx. apply list_elem_of_In, repeat_spec in Hx.
        subst. reflexivity.
Qed.

(** C4: in a reachable state where no key of the level-0 chain is
    equivalent to [key], [Erase(key)] returns false and hands back the very
    same container. *)
Theorem Erase_absent (swo : StrictWeakOrder) (HM : 0 < MaxHeight)
    (s : SkipList) (key : K) (ks : list K) :
  reachable s ->
  ChainKeys s LOWEST_LEVEL = Ok ks ->
  Forall (fun k => equiv_key key k = false) ks ->
  Erase s key = Ok (false, s).
Proof.
  intros Hreach Hks Hnone. unfold LOWEST_LEVEL in *.
  destruct (reachable_Inv swo s HM Hreach) as (l0 & HInv).
  rewrite (ChainKeys_bottom s l0 HInv HM) in Hks. injection Hks as <-.
  destruct (Erase_abs swo s l0 key HInv HM) as (s' & l0' & Hrun & _ & _ & _ & H).
  rewrite (existsb_app_false _ _ Hnone) in *. subst s'. exact Hrun.
Qed.

Lemma existsb_filter_other key (ks : list K) :
  existsb (equiv_key key) (List.filter (key_other key) ks) = false.
Proof.
  induction ks as [|k ks IH]; simpl; [reflexivity|]. unfold key_other at 1.
  destruct (equiv_key key k) eqn:E; simpl; [exact IH|]. rewrite E, IH. reflexivity.
Qed.

(** C5: in a reachable state, [Insert(k)] followed by [Erase(k)] both
    return normally, [k] is absent afterwards, and the level-0 chain holds
    the keys it held before the two operations, except those equivalent to
    [k], in the same order; each of these other keys is still present. *)
Theorem Insert_then_Erase (swo : StrictWeakOrder) (HM : 0 < MaxHeight)
    (s : SkipList) (k : K) :
  reachable s ->
  exists b s1 s2 ks,
    Insert s k = Ok (b, s1) /\
    Erase s1 k = Ok (true, s2) /\
    Contains s2 k = Ok false /\
    ChainKeys s LOWEST_LEVEL = Ok ks /\
    ChainKeys s2 LOWEST_LEVEL = Ok (List.filter (key_other k) ks) /\
    Forall (fun k' => equiv_key k k' = false -> Contains s2 k' = Ok true) ks.
Proof.
  intros Hreach. unfold LOWEST_LEVEL.
  destruct (reachable_Inv swo s HM Hreach) as (l0 & HInv).
  destruct (Insert_abs swo s l0 k HInv HM) as (s1 & l1 & ev & Hrun & HInv1 & H).
  destruct (Erase_abs swo s1 l1 k HInv1 HM) as (s2 & l2 & Hrun2 & HInv2 & Hk2 & _).
  assert (Hin1 : existsb (equiv_key k) (Keys s1 l1) = true /\
                 List.filter (key_other k) (Keys s1 l1) =
                 List.filter (key_other k) (Keys s l0)).
  { destruct (existsb (equiv_key k) (Keys s l0)) eqn:Ex.
    - destruct H as (-> & -> & _). auto.
    - destruct H as (_ & _ & klo & khi & -> & -> & _).
      rewrite existsb_app, !List.filter_app. simpl. unfold key_other at 2.
      rewrite (equiv_key_refl swo). simpl. split; [apply orb_true_r | reflexivity]. }
  destruct Hin1 as [Hin1 Hf]. rewrite Hin1 in Hrun2. rewrite Hf in Hk2.
  exists (negb (existsb (equiv_key k) (Keys s l0))), s1, s2, (Keys s l0).
  split; [rewrite Insert_of_traced, Hrun; reflexivity|].
  split; [exact Hrun2|].
  split; [rewrite (Contains_abs swo s2 l2 k HInv2 HM), Hk2, existsb_filter_other; reflexivity|].
  split; [apply ChainKeys_bottom; auto|].
  split; [rewrite (ChainKeys_bottom s2 l2 HInv2 HM), Hk2; reflexivity|].
  apply Forall_forall. intros k' Hk' Hne.
  rewrite (Contains_abs swo s2 l2 k' HInv2 HM), Hk2. f_equal.
  apply existsb_exists. exists k'. split; [|apply (equiv_key_refl swo)].
  apply filter_In. split; [apply list_elem_of_In; auto|].
  unfold key_other. rewrite Hne. reflexivity.
Qed.

(** C10: in a reachable state, [Contains], [Insert] and [Erase] return
    normally for every key.  The fault raised by [Next] and [SetNext] on a
    level at or above the height of the node aborts the operation that
    issued the call, so none of their internal calls uses such a level. *)
Theorem no_out_of_range (swo : StrictWeakOrder) (HM : 0 < MaxHeight)
    (s : SkipList) (key : K) :
  reachable s ->
  (exists b, Contains s key = Ok b) /\
  (exists r, Insert s key = Ok r) /\
  (exists r, Erase s key = Ok r) /\
  (forall level,
     Contains s key <> OutOfRange level /\
     Insert s key <> OutOfRange level /\
     Erase s key <> OutOfRange level).
Proof.
  intros Hreach.
  destruct (reachable_Inv swo s HM Hreach) as (l0 & HInv).
  pose proof (Contains_abs swo s l0 key HInv HM) as Hc.
  destruct (Insert_abs swo s l0 key HInv HM) as (s1 & l1 & ev & Hi & _).
  destruct (Erase_abs swo s l0 key HInv HM) as (s2 & l2 & He & _).
  rewrite Insert_of_traced, Hi, Hc, He. cbn [bind].
  split; [eauto|]. split; [eauto|]. split; [eauto|].
  intros level. repeat split; discriminate.
Qed.

Lemma pred_is_pred (swo : StrictWeakOrder) s l0 key lo hi L :
  Inv s l0 -> Split (nodes_ s) key l0 lo [] hi -> L < MaxHeight ->
  is_pred s L key (pred (nodes_ s) lo L).
Proof.
  intros HInv Hsp HL. pose proof HInv as [Hwf _]. unfold is_pred.
  set (m := nodes_ s) in *.
  pose proof (pred_hgt _ _ _ Hwf L HL : L < hgt m (pred m lo L)) as Hh.
  pose proof (split_eq _ _ _ _ _ _ Hsp) as El0. simpl in El0.
  split; [exact Hh|]. split.
  - pose proof (pred_in m lo L) as Hin. apply elem_of_cons in Hin.
    destruct Hin as [E|Hin]; [left; exact E|]. right. split.
    + unfold chain_nodes. rewrite (Chain_abs s l0 L) by auto.
      rewrite map_map. simpl. rewrite map_id. apply list_elem_of_filter.
      split; [exact Hh|]. rewrite El0. apply elem_of_app. auto.
    + pose proof (split_lo _ _ _ _ _ _ Hsp) as Hlo. rewrite Forall_forall in Hlo.
      apply Hlo in Hin. tauto.
  - destruct (pred_split m lo L) as (pre & post & E & Hpost & _).
    pose proof (rest_chain m key l0 lo [] hi Hwf Hsp L pre _ post HL E Hh) as Hch.
    rewrite Hpost in Hch. simpl in Hch.
    destruct (filter (fun p => L < hgt m p) hi) as [|q r] eqn:Eh.
    + apply chain_nil_inv in Hch. rewrite Hch. exact I.
    + pose proof (chain_first _ _ _ _ _ Hch) as ->.
      assert (Hq : q ∈ filter (fun p => L < hgt m p) hi) by (rewrite Eh; left).
      apply list_elem_of_filter in Hq. destruct Hq as [_ Hq].
      pose proof (split_hi _ _ _ _ _ _ Hsp) as Hhi. rewrite Forall_forall in Hhi. auto.
Qed.

(** C9 (as the code has it): during a successful [Insert] in a reachable
    state, the levels 0 to height - 1 of the new node are spliced in
    increasing order; at each level the predecessor's former reference is
    read, then the predecessor's reference is set to the new node, and only
    then the new node's reference is set to the value read.  When [Insert]
    returns, at each of these levels the predecessor points to the new node
    and the new node points to the predecessor's former successor. *)
Theorem Insert_splice_order (swo : StrictWeakOrder) (HM : 0 < MaxHeight)
    (s : SkipList) (key : K) :
  reachable s -> Contains s key = Ok false ->
  exists s' P,
    let height := fst (sampled_height (rng_ s)) in
    let to_insert := length (nodes_ s) in
    Insert_traced s key =
      Ok (true, s',
          flat_map (fun L => [EvSetNext (P L) L (Some to_insert);
                              EvSetNext to_insert L (link (nodes_ s) (P L) L)])
                   (seq 0 height)) /\
    hgt (nodes_ s') to_insert = height /\
    keyof (nodes_ s') to_insert = key /\
    forall L, L < height ->
      is_pred s L key (P L) /\
      link (nodes_ s') (P L) L = Some to_insert /\
      link (nodes_ s') to_insert L = link (nodes_ s) (P L) L.
Proof.
  intros Hreach Hc.
  destruct (reachable_Inv swo s HM Hreach) as (l0 & HInv).
  destruct (sorted_split swo (nodes_ s) key l0) as (lo & mid & hi & Hsp).
  { apply (wf_sorted _ _ (proj1 HInv)). }
  rewrite (Contains_split swo s l0 key lo mid hi HInv HM Hsp) in Hc.
  pose proof (Insert_traced_split swo s l0 key lo mid hi HInv HM Hsp) as H.
  destruct mid as [|t mid]; [|discriminate].
  destruct H as (m' & Hrun & Hlk & HInv').
  pose proof (sampled_height_range (rng_ s) HM) as Hh.
  destruct (wf_insert swo (nodes_ s) l0 key lo hi _ m' (proj1 HInv) Hsp Hh Hlk)
    as (_ & Hkn & Hhn & _).
  destruct Hlk as (_ & _ & _ & Hl).
  pose proof (split_eq _ _ _ _ _ _ Hsp) as El0. simpl in El0.
  assert (Halloc : forall L, pred (nodes_ s) lo L < length (nodes_ s)).
  { intros L. eapply hgt_lt_length, (wf_allocated (nodes_ s) l0); eauto; [apply HInv|].
    pose proof (pred_in (nodes_ s) lo L) as Hin. apply elem_of_cons in Hin.
    destruct Hin as [->|Hin]; [left|right]. rewrite El0. apply elem_of_app. auto. }
  exists (mkSkipList m' (wrap_size_t (size_ s + 1)) (snd (sampled_height (rng_ s)))),
         (pred (nodes_ s) lo).
  cbn zeta. split; [|split; [exact Hhn|split; [exact Hkn|]]].
  - rewrite Hrun. do 2 f_equal. unfold link_events. rewrite Nat.sub_0_r.
    apply flat_map_agree. intros L _. rewrite link_alloc by apply Halloc. reflexivity.
  - intros L HL. cbn [nodes_]. split; [apply (pred_is_pred swo s l0 key lo hi); auto; lia|].
    pose proof (Halloc L) as HP. split.
    + rewrite Hl. rewrite decide_True by lia. rewrite decide_True by reflexivity.
      reflexivity.
    + rewrite Hl. rewrite decide_True by lia. rewrite decide_False by lia.
      rewrite decide_True by reflexivity. apply link_alloc. exact HP.
Qed.

(** * Further properties of the container *)

(** ** What [Print] shows *)

(** The (key, height) pairs of the nodes [l0]. *)
Definition Entries (s : SkipList) (l0 : list ptr) : list (K * nat) :=
  map (fun p => (keyof (nodes_ s) p, hgt (nodes_ s) p)) l0.

Lemma Height_cell m p : Height (cell m p) = hgt m p.
Proof.
  unfold cell, hgt. destruct (m !! p); [reflexivity|]. apply Height_SkipNode_new.
Qed.

Lemma Chain_bottom s l0 :
  Inv s l0 -> 0 < MaxHeight ->
  Chain s 0 = Ok (map (fun p => (p, cell (nodes_ s) p)) l0).
Proof.
  intros HInv HM. rewrite (Chain_abs s l0 0) by auto.
  rewrite filter_id_Forall; [reflexivity|].
  eapply Forall_impl; [apply (wf_nodes _ _ (proj1 HInv))|]. simpl. intros p. lia.
Qed.

Lemma Print_abs s l0 :
  Inv s l0 -> 0 < MaxHeight -> Print s = Ok (Entries s l0).
Proof.
  intros HInv HM. unfold Print, LOWEST_LEVEL. rewrite (Chain_bottom s l0) by auto.
  cbn [bind]. rewrite map_map. f_equal. apply map_ext. intros p. cbn [snd].
  rewrite Key_cell, Height_cell. reflexivity.
Qed.

Lemma Entries_keys s l0 : map fst (Entries s l0) = Keys s l0.
Proof. unfold Entries, Keys. rewrite map_map. reflexivity. Qed.

Lemma chain_nodes_bottom s l0 :
  Inv s l0 -> 0 < MaxHeight -> chain_nodes s 0 = l0.
Proof.
  intros HInv HM. unfold chain_nodes. rewrite (Chain_bottom s l0) by auto.
  rewrite map_map. simpl. apply map_id.
Qed.

Lemma existsb_map {A B} (f : B -> bool) (g : A -> B) (l : list A) :
  existsb f (map g l) = existsb (fun x => f (g x)) l.
Proof. induction l as [|x l IH]; simpl; [reflexivity|]. rewrite IH. reflexivity. Qed.

Lemma filter_map_fst {A B} (f : A -> bool) (l : list (A * B)) :
  map fst (List.filter (fun e => f (fst e)) l) = List.filter f (map fst l).
Proof.
  induction l as [|x l IH]; simpl; [reflexivity|].
  destruct (f (fst x)); simpl; rewrite IH; reflexivity.
Qed.

(** X1: in a reachable state the live count is the number of nodes of the
    level-0 chain (as a [size_t]; exactly that number below 2^64), and then
    [Empty] holds exactly when [Print] has nothing to show. *)
Theorem Size_counts_nodes (swo : StrictWeakOrder) (HM : 0 < MaxHeight) (s : SkipList) :
  reachable s ->
  exists out,
    Print s = Ok out /\
    Size s = wrap_size_t (Z.of_nat (length out)) /\
    ((Z.of_nat (length out) < size_t_modulus)%Z ->
     Size s = Z.of_nat (length out) /\ (Empty s = true <-> out = [])).
Proof.
  intros Hreach. destruct (reachable_Inv swo s HM Hreach) as (l0 & HInv).
  exists (Entries s l0). split; [apply Print_abs; auto|].
  destruct HInv as [_ Hsz]. unfold Size, Empty, Entries. rewrite length_map.
  split; [exact Hsz|]. intros Hlt.
  assert (E : size_ s = Z.of_nat (length l0)).
  { rewrite Hsz. unfold wrap_size_t. apply Z.mod_small. lia. }
  split; [exact E|]. rewrite E. split.
  - intros H0. apply Z.eqb_eq in H0. destruct l0; [reflexivity | simpl in H0; lia].
  - intros Hnil. destruct l0; [reflexivity | discriminate].
Qed.

(** X2: in a reachable state [Print] returns normally; the keys it shows
    increase strictly under the comparator and every height it shows lies
    between 1 and [MaxHeight]. *)
Theorem Print_ascending (swo : StrictWeakOrder) (HM : 0 < MaxHeight) (s : SkipList) :
  reachable s ->
  exists out,
    Print s = Ok out /\
    StronglySorted (fun a b => compare_ (fst a) (fst b) = true) out /\
    Forall (fun e => 1 <= snd e <= MaxHeight) out.
Proof.
  intros Hreach. destruct (reachable_Inv swo s HM Hreach) as (l0 & HInv).
  exists (Entries s l0). split; [apply Print_abs; auto|].
  destruct HInv as [Hwf _]. unfold Entries. split.
  - pose proof (wf_sorted _ _ Hwf) as Hs. clear Hwf.
    induction Hs as [|p l Hs IH Hall]; simpl; constructor; auto.
    clear Hs IH. induction Hall; simpl; constructor; auto.
  - pose proof (wf_nodes _ _ Hwf) as Hn. clear Hwf.
    induction Hn as [|p l [_ Hp] _ IH]; simpl; constructor; auto.
Qed.

(** X3: in a reachable state [Contains(key)] returns normally, and it
    returns true exactly when [Print] shows a key equivalent to [key]
    (neither compares less than the other). *)
Theorem Contains_iff_printed (swo : StrictWeakOrder) (HM : 0 < MaxHeight)
    (s : SkipList) (key : K) :
  reachable s ->
  exists out,
    Print s = Ok out /\
    Contains s key = Ok (existsb (fun e => equiv_key key (fst e)) out).
Proof.
  intros Hreach. destruct (reachable_Inv swo s HM Hreach) as (l0 & HInv).
  exists (Entries s l0). split; [apply Print_abs; auto|].
  rewrite (Contains_abs swo s l0 key HInv HM). f_equal.
  rewrite <- Entries_keys. apply existsb_map.
Qed.

Lemma filter_tall_map m L (l : list ptr) :
  List.filter (fun x : ptr * SkipNode => L <? Height (snd x))
              (map (fun p => (p, cell m p)) l) =
  map (fun p => (p, cell m p)) (filter (fun p => L < hgt m p) l).
Proof.
  induction l as [|p l IH]; [reflexivity|]. simpl. rewrite Height_cell.
  destruct (Nat.ltb_spec L (hgt m p)).
  - rewrite filter_cons_True by auto. simpl. rewrite IH. reflexivity.
  - rewrite filter_cons_False by lia. exact IH.
Qed.

(** X4: in a reachable state the levels are nested: the chain of a level
    [L] below [MaxHeight] consists of the nodes of the level-0 chain whose
    height exceeds [L], in the same order. *)
Theorem levels_nested (swo : StrictWeakOrder) (HM : 0 < MaxHeight)
    (s : SkipList) (L : nat) :
  reachable s -> L < MaxHeight ->
  exists c0,
    Chain s LOWEST_LEVEL = Ok c0 /\
    Chain s L = Ok (List.filter (fun x => L <? Height (snd x)) c0).
Proof.
  intros Hreach HL. destruct (reachable_Inv swo s HM Hreach) as (l0 & HInv).
  eexists. split; [apply (Chain_bottom s l0); auto|].
  rewrite (Chain_abs s l0 L) by auto. rewrite filter_tall_map. reflexivity.
Qed.

(** ** Nodes outside the container, and what an operation keeps *)

(** [clean m l0]: no node of the store other than the header and the nodes
    [l0] holds a forward reference. *)
Definition clean (m : store) (l0 : list ptr) : Prop :=
  forall q L, q ∉ header_ :: l0 -> link m q L = None.

(** [extends m m']: the store [m'] has every node of [m], with the same key
    and the same height. *)
Definition extends (m m' : store) : Prop :=
  length m <= length m' /\
  forall q, q < length m -> hgt m' q = hgt m q /\ keyof m' q = keyof m q.

Lemma extends_refl m : extends m m.
Proof. split; auto. Qed.

Lemma extends_trans m1 m2 m3 : extends m1 m2 -> extends m2 m3 -> extends m1 m3.
Proof.
  intros [H1 H1'] [H2 H2']. split; [lia|]. intros q Hq.
  destruct (H1' q Hq) as [<- <-]. apply H2'. lia.
Qed.

Lemma link_above_hgt m q L : hgt m q <= L -> link m q L = None.
Proof.
  unfold hgt, link. destruct (m !! q) as [n|]; [|reflexivity].
  unfold Height. intros H. rewrite lookup_ge_None_2 by lia. reflexivity.
Qed.

Lemma link_alloc_other m n q L : q <> length m -> link (m ++ [n]) q L = link m q L.
Proof.
  intros Hq. destruct (Nat.lt_ge_cases q (length m)); [apply link_alloc; auto|].
  unfold link. rewrite !lookup_ge_None_2; [reflexivity | lia |].
  rewrite length_app. simpl. lia.
Qed.

Lemma wf_live_lt m l0 q : wf m l0 -> 0 < MaxHeight -> q ∈ header_ :: l0 -> q < length m.
Proof. intros Hwf HM Hq. eapply hgt_lt_length, wf_allocated; eauto. Qed.

Lemma clean_insert m l0 key lo hi h m' :
  wf m l0 -> 0 < MaxHeight -> Split m key l0 lo [] hi -> clean m l0 ->
  linked (pred m lo) (length m) 0 h (m ++ [SkipNode_new h key]) m' ->
  clean m' (lo ++ length m :: hi).
Proof.
  intros Hwf HM Hsp Hcl (_ & _ & _ & Hl) q L Hq.
  pose proof (split_eq _ _ _ _ _ _ Hsp) as El0. simpl in El0.
  assert (Hqn : q <> length m).
  { intros ->. apply Hq. right. apply elem_of_app. right. left. }
  assert (Hq0 : q ∉ header_ :: l0).
  { intros Hin. apply Hq. apply elem_of_cons in Hin. destruct Hin as [->|Hin]; [left|right].
    rewrite El0 in Hin. apply elem_of_app in Hin. apply elem_of_app.
    destruct Hin; [left | right; right]; auto. }
  assert (HqP : q <> pred m lo L).
  { intros ->. apply Hq0. pose proof (pred_in m lo L) as Hin.
    apply elem_of_cons in Hin. destruct Hin as [->|Hin]; [left|right].
    rewrite El0. apply elem_of_app. auto. }
  rewrite Hl. destruct (decide (0 <= L < h)).
  - rewrite decide_False by auto. rewrite decide_False by auto.
    rewrite link_alloc_other by auto. apply Hcl. exact Hq0.
  - rewrite link_alloc_other by auto. apply Hcl. exact Hq0.
Qed.

Lemma clean_erase (swo : StrictWeakOrder) m l0 key lo t hi m' :
  wf m l0 -> Split m key l0 lo [t] hi -> clean m l0 ->
  unlinked (pred m lo) t 0 (hgt m t) m m' ->
  clean m' (lo ++ hi).
Proof.
  intros Hwf Hsp Hcl (_ & _ & _ & Hl) q L Hq.
  pose proof (split_eq _ _ _ _ _ _ Hsp) as El0. simpl in El0.
  assert (HqP : q <> pred m lo L).
  { intros ->. apply Hq. pose proof (pred_in m lo L) as Hin.
    apply elem_of_cons in Hin. destruct Hin as [->|Hin]; [left|right].
    apply elem_of_app. auto. }
  rewrite Hl. destruct (decide (q = t)) as [->|Hqt].
  - destruct (decide (0 <= L < hgt m t)).
    + rewrite decide_False by auto. reflexivity.
    + apply link_above_hgt. lia.
  - assert (Hq0 : q ∉ header_ :: l0).
    { intros Hin. apply Hq. apply elem_of_cons in Hin.
      destruct Hin as [->|Hin]; [left|right].
      rewrite El0 in Hin. apply elem_of_app in Hin. apply elem_of_app.
      destruct Hin as [Hin|Hin]; [left; auto|]. apply elem_of_cons in Hin.
      destruct Hin; [congruence | right; auto]. }
    destruct (decide (0 <= L < hgt m t)).
    + rewrite decide_False by auto. apply Hcl. exact Hq0.
    + apply Hcl. exact Hq0.
Qed.

Lemma Clear_full (swo : StrictWeakOrder) s l0 :
  Inv s l0 -> clean (nodes_ s) l0 -> 0 < MaxHeight ->
  exists m',
    Clear s = Ok (mkSkipList m' 0 (rng_ s)) /\
    Inv (mkSkipList m' 0 (rng_ s)) [] /\
    clean m' [] /\
    length m' = length (nodes_ s) /\
    (forall q, hgt m' q = hgt (nodes_ s) q /\ keyof m' q = keyof (nodes_ s) q) /\
    (forall q L, link m' q L = None).
Proof.
  intros HInv Hcl HM. pose proof HInv as [Hwf _]. set (m := nodes_ s) in *.
  destruct (Clear_spec swo s l0 HInv HM) as (m' & Hdrop & Hrun & HInv' & Hnull).
  destruct (Drop_levels_spec swo l0 MaxHeight 0 m) as (m'' & Hrun' & Hlen & Hh & Hk & Hl).
  - lia.
  - apply (wf_header _ _ Hwf).
  - apply (wf_bound _ _ Hwf).
  - eapply wf_NoDup; eauto.
  - intros L HL. apply (wf_chain _ _ Hwf). lia.
  - unfold Drop_traced in Hdrop. fold m in Hdrop. rewrite Hrun' in Hdrop.
    injection Hdrop as <-.
    assert (Hall : forall q L, link m'' q L = None).
    { intros q L. destruct (decide (q ∈ header_ :: l0)) as [Hq|Hq]; [apply Hnull; auto|].
      rewrite Hl. rewrite decide_False by tauto. apply Hcl. exact Hq. }
    exists m''. split; [exact Hrun|]. split; [exact HInv'|].
    split; [intros q L _; apply Hall|]. split; [exact Hlen|].
    split; [intros q; split; [apply Hh | apply Hk]|]. exact Hall.
Qed.

Lemma step_full (swo : StrictWeakOrder) s l0 o :
  Inv s l0 -> clean (nodes_ s) l0 -> 0 < MaxHeight ->
  exists s' l0',
    step s o = Ok s' /\ Inv s' l0' /\ clean (nodes_ s') l0' /\
    extends (nodes_ s) (nodes_ s') /\
    length (nodes_ s') <= S (length (nodes_ s)).
Proof.
  intros HInv Hcl HM. pose proof HInv as [Hwf _].
  destruct o as [key|key|]; cbn [step].
  - destruct (sorted_split swo (nodes_ s) key l0) as (lo & mid & hi & Hsp).
    { apply (wf_sorted _ _ Hwf). }
    pose proof (Insert_traced_split swo s l0 key lo mid hi HInv HM Hsp) as H.
    rewrite Insert_of_traced. destruct mid as [|t mid].
    + destruct H as (m' & Hrun & Hlk & HInv'). rewrite Hrun. cbn [bind fst snd].
      eexists _, _. split; [reflexivity|]. split; [exact HInv'|]. cbn [nodes_].
      destruct (wf_insert swo (nodes_ s) l0 key lo hi _ m' Hwf Hsp
                  (sampled_height_range (rng_ s) HM) Hlk) as (_ & _ & _ & Hold).
      pose proof Hlk as (Hlen & _). rewrite length_app in Hlen. simpl in Hlen.
      split; [eapply clean_insert; eauto|]. split; [|lia].
      split; [lia|]. intros q Hq. destruct (Hold q Hq). auto.
    + rewrite H. cbn [bind fst snd]. exists s, l0.
      split; [reflexivity|]. split; [auto|]. split; [auto|].
      split; [apply extends_refl | lia].
  - destruct (sorted_split swo (nodes_ s) key l0) as (lo & mid & hi & Hsp).
    { apply (wf_sorted _ _ Hwf). }
    pose proof (Erase_split swo s l0 key lo mid hi HInv HM Hsp) as H.
    pose proof (split_one _ _ _ _ _ _ Hsp) as Hone.
    destruct mid as [|t mid].
    + rewrite H. cbn [bind snd]. exists s, l0.
      split; [reflexivity|]. split; [auto|]. split; [auto|].
      split; [apply extends_refl | lia].
    + destruct mid as [|t' mid]; [|simpl in Hone; lia].
      destruct H as (m' & Hrun & Hlk & HInv'). rewrite Hrun. cbn [bind snd].
      eexists _, _. split; [reflexivity|]. split; [exact HInv'|]. cbn [nodes_].
      split; [eapply clean_erase; eauto|].
      destruct Hlk as (Hlen & Hh & Hk & _).
      split; [|lia]. split; [lia|]. intros q _. auto.
  - destruct (Clear_full swo s l0 HInv Hcl HM)
      as (m' & Hrun & HInv' & Hcl' & Hlen & Hobs & _).
    eexists _, _. split; [exact Hrun|]. split; [exact HInv'|]. cbn [nodes_].
    split; [exact Hcl'|]. split; [|lia]. split; [lia|]. intros q _. apply Hobs.
Qed.

Lemma run_full (swo : StrictWeakOrder) ops :
  forall s l0,
    Inv s l0 -> clean (nodes_ s) l0 -> 0 < MaxHeight ->
    exists s' l0',
      run s ops = Ok s' /\ Inv s' l0' /\ clean (nodes_ s') l0' /\
      extends (nodes_ s) (nodes_ s') /\
      length (nodes_ s') <= length ops + length (nodes_ s).
Proof.
  induction ops as [|o ops IH]; intros s l0 HInv Hcl HM; cbn [run].
  - exists s, l0. split; [reflexivity|]. split; [auto|]. split; [auto|].
    split; [apply extends_refl | simpl; lia].
  - destruct (step_full swo s l0 o HInv Hcl HM) as (s1 & l1 & Hrun & HInv1 & Hcl1 & Hex1 & Hlen1).
    rewrite Hrun. cbn [bind].
    destruct (IH s1 l1 HInv1 Hcl1 HM) as (s' & l0' & Hrun' & HInv' & Hcl' & Hex' & Hlen').
    exists s', l0'. split; [exact Hrun'|]. split; [auto|]. split; [auto|].
    split; [eapply extends_trans; eauto | simpl; lia].
Qed.

Lemma clean_new : clean (nodes_ SkipList_new) [].
Proof.
  intros q L Hq. unfold link, SkipList_new. cbn [nodes_].
  destruct q as [|q]; [exfalso; apply Hq; left|]. reflexivity.
Qed.

Lemma reachable_clean (swo : StrictWeakOrder) s :
  0 < MaxHeight -> reachable s -> exists l0, Inv s l0 /\ clean (nodes_ s) l0.
Proof.
  intros HM [ops Hrun].
  destruct (run_full swo ops SkipList_new [] (Inv_new HM) clean_new HM)
    as (s' & l0 & Hrun' & HInv & Hcl & _).
  rewrite Hrun in Hrun'. injection Hrun' as ->. eauto.
Qed.

Lemma lookup_obs m p n :
  m !! p = Some n -> hgt m p = Height n /\ keyof m p = Key n.
Proof. intros H. unfold hgt, keyof. rewrite H. auto. Qed.

Lemma extends_lookup m m' p n :
  extends m m' -> m !! p = Some n ->
  exists n', m' !! p = Some n' /\ Key n' = Key n /\ Height n' = Height n.
Proof.
  intros [Hlen Hobs] Hn. pose proof (lookup_lt_Some _ _ _ Hn) as Hp.
  destruct (lookup_lt_is_Some_2 m' p ltac:(lia)) as [n' Hn'].
  exists n'. split; [exact Hn'|].
  destruct (Hobs p Hp) as [Hh Hk].
  destruct (lookup_obs _ _ _ Hn) as [E1 E2], (lookup_obs _ _ _ Hn') as [E1' E2'].
  split; congruence.
Qed.

(** X5: through any history of [Insert], [Erase] and [Clear] started in a
    reachable state, every node already in the store keeps its key and its
    height (only forward references are ever rewritten), the header
    included; the store never shrinks and grows by at most one node per
    operation. *)
Theorem nodes_keep_key_and_height (swo : StrictWeakOrder) (HM : 0 < MaxHeight)
    (s : SkipList) (ops : list op) :
  reachable s ->
  exists s',
    run s ops = Ok s' /\
    length (nodes_ s) <= length (nodes_ s') <= length ops + length (nodes_ s) /\
    forall p n, nodes_ s !! p = Some n ->
      exists n', nodes_ s' !! p = Some n' /\ Key n' = Key n /\ Height n' = Height n.
Proof.
  intros Hreach. destruct (reachable_clean swo s HM Hreach) as (l0 & HInv & Hcl).
  destruct (run_full swo ops s l0 HInv Hcl HM) as (s' & l0' & Hrun & _ & _ & Hex & Hlen).
  exists s'. split; [exact Hrun|]. split; [destruct Hex; lia|].
  intros p n Hn. eapply extends_lookup; eauto.
Qed.

Lemma chain_next m L :
  forall l c p q,
    chain m L (link m c L) l -> p ∈ c :: l -> link m p L = Some q ->
    exists pre rest, c :: l = pre ++ p :: q :: rest.
Proof.
  induction l as [|x l IH]; intros c p q Hch Hp Hq.
  - apply chain_nil_inv in Hch. apply elem_of_cons in Hp.
    destruct Hp as [->|Hp]; [congruence | inversion Hp].
  - pose proof (chain_first _ _ _ _ _ Hch) as Hc.
    apply (chain_app_inv _ _ _ []) in Hch. destruct Hch as [_ Hch].
    destruct (decide (p = c)) as [->|Hne].
    + exists [], l. simpl. congruence.
    + apply elem_of_cons in Hp. destruct Hp as [Hp|Hp]; [congruence|].
      destruct (IH x p q Hch Hp Hq) as (pre & rest & E).
      exists (c :: pre), rest. simpl. rewrite E. reflexivity.
Qed.

Lemma sorted_filter (P : ptr -> Prop) `{!forall x, Decision (P x)} m (l : list ptr) :
  StronglySorted (key_lt m) l -> StronglySorted (key_lt m) (filter P l).
Proof.
  induction 1 as [|p l Hs IH Hall]; [constructor|].
  destruct (decide (P p)).
  - rewrite filter_cons_True by auto. constructor; [auto|].
    rewrite Forall_forall in Hall |- *.
    intros q Hq. apply list_elem_of_filter in Hq. apply Hall. tauto.
  - rewrite filter_cons_False by auto. auto.
Qed.

Lemma Next_link m p n L q :
  m !! p = Some n -> Next n L = Ok (Some q) -> L < hgt m p /\ link m p L = Some q.
Proof.
  intros Hn Hnext. unfold Next in Hnext. unfold hgt, link. rewrite Hn. unfold Height.
  destruct (Nat.leb_spec (length (links_ n)) L); [discriminate|].
  injection Hnext as Hnext. auto.
Qed.

(** X6: in a reachable state every forward reference stays inside the
    container.  If a node of the store holds a reference at some level,
    that node is the header or a node of the level-0 chain, and the node it
    designates is on the level-0 chain too, is taller than that level and,
    unless the reference is the header's, carries a strictly greater key.
    So no reference designates the header or an erased node, and erased
    nodes hold none. *)
Theorem references_stay_inside (swo : StrictWeakOrder) (HM : 0 < MaxHeight)
    (s : SkipList) (p : ptr) (n : SkipNode) (L : nat) (q : ptr) :
  reachable s ->
  nodes_ s !! p = Some n -> Next n L = Ok (Some q) ->
  (p = header_ \/ p ∈ chain_nodes s LOWEST_LEVEL) /\
  q ∈ chain_nodes s LOWEST_LEVEL /\ q <> header_ /\
  exists nq,
    nodes_ s !! q = Some nq /\ L < Height nq /\
    (p <> header_ -> compare_ (Key n) (Key nq) = true).
Proof.
  intros Hreach Hn Hnext. unfold LOWEST_LEVEL.
  destruct (reachable_clean swo s HM Hreach) as (l0 & HInv & Hcl).
  pose proof HInv as [Hwf _]. rewrite (chain_nodes_bottom s l0 HInv HM).
  set (m := nodes_ s) in *.
  destruct (Next_link m p n L q Hn Hnext) as [HL Hlink].
  assert (Hp : p ∈ header_ :: l0).
  { destruct (decide (p ∈ header_ :: l0)) as [|Hno]; [auto|].
    rewrite (Hcl p L Hno) in Hlink. discriminate. }
  pose proof (wf_nodes _ _ Hwf) as Hnodes. rewrite Forall_forall in Hnodes.
  assert (HLM : L < MaxHeight).
  { apply elem_of_cons in Hp. destruct Hp as [->|Hp].
    - rewrite (wf_header _ _ Hwf) in HL. exact HL.
    - apply Hnodes in Hp. lia. }
  pose proof (wf_chain _ _ Hwf L HLM) as Hch.
  set (fl := filter (fun p => L < hgt m p) l0) in *.
  assert (Hpf : p ∈ header_ :: fl).
  { apply elem_of_cons in Hp. destruct Hp as [->|Hp]; [left|right].
    apply list_elem_of_filter. auto. }
  destruct (chain_next m L fl header_ p q Hch Hpf Hlink) as (pre & rest & E).
  assert (Hs : StronglySorted (key_lt m) fl).
  { apply sorted_filter. apply (wf_sorted _ _ Hwf). }
  assert (Hq : q ∈ fl /\ (p <> header_ -> key_lt m p q)).
  { destruct pre as [|h pre]; simpl in E; injection E as E1 E2.
    - split; [rewrite E2; left | congruence].
    - split; [rewrite E2; apply elem_of_app; right; right; left|].
      intros _. rewrite E2 in Hs. apply StronglySorted_app in Hs.
      destruct Hs as (_ & _ & Hs). inversion Hs as [|? ? _ Hall]; subst.
      inversion Hall; auto. }
  destruct Hq as [Hq Hlt]. apply list_elem_of_filter in Hq. destruct Hq as [HLq Hq].
  split; [apply elem_of_cons in Hp; tauto|]. split; [exact Hq|].
  split; [apply Hnodes in Hq; tauto|].
  destruct (hgt_lookup m q L HLq) as (nq & Hnq & Hh).
  exists nq. split; [exact Hnq|]. split; [lia|].
  intros Hne. specialize (Hlt Hne). unfold key_lt in Hlt.
  destruct (lookup_obs _ _ _ Hn) as [_ <-], (lookup_obs _ _ _ Hnq) as [_ <-]. exact Hlt.
Qed.

(** ** Insert and Erase, seen through [Print] *)

Lemma Entries_app s (a b : list ptr) : Entries s (a ++ b) = Entries s a ++ Entries s b.
Proof. unfold Entries. apply map_app. Qed.

Lemma Entries_agree s s' (l : list ptr) :
  (forall q, q ∈ l -> keyof (nodes_ s') q = keyof (nodes_ s) q /\
                      hgt (nodes_ s') q = hgt (nodes_ s) q) ->
  Entries s' l = Entries s l.
Proof.
  intros H. unfold Entries. apply map_ext_in. intros q Hq.
  apply list_elem_of_In in Hq. destruct (H q Hq) as [-> ->]. reflexivity.
Qed.

Lemma Forall_Entries s (P : K -> Prop) (l : list ptr) :
  Forall (fun p => P (keyof (nodes_ s) p)) l -> Forall (fun e => P (fst e)) (Entries s l).
Proof. induction 1; simpl; constructor; auto. Qed.

Lemma Insert_entries (swo : StrictWeakOrder) s l0 key :
  Inv s l0 -> 0 < MaxHeight ->
  existsb (equiv_key key) (Keys s l0) = false ->
  exists s' l0' ev plo phi,
    Insert_traced s key = Ok (true, s', ev) /\ Inv s' l0' /\
    Entries s l0 = plo ++ phi /\
    Entries s' l0' = plo ++ (key, fst (sampled_height (rng_ s))) :: phi /\
    Forall (fun e => compare_ (fst e) key = true) plo /\
    Forall (fun e => compare_ key (fst e) = true) phi /\
    rng_ s' = snd (sampled_height (rng_ s)) /\
    size_ s' = wrap_size_t (size_ s + 1).
Proof.
  intros HInv HM Hex. pose proof HInv as [Hwf _].
  destruct (sorted_split swo (nodes_ s) key l0) as (lo & mid & hi & Hsp).
  { apply (wf_sorted _ _ Hwf). }
  pose proof (Insert_traced_split swo s l0 key lo mid hi HInv HM Hsp) as H.
  unfold Keys in Hex. rewrite (split_existsb _ _ _ _ _ _ Hsp) in Hex.
  destruct mid as [|t mid]; [|discriminate].
  destruct H as (m' & Hrun & Hlk & HInv').
  destruct (wf_insert swo (nodes_ s) l0 key lo hi _ m' Hwf Hsp
              (sampled_height_range (rng_ s) HM) Hlk) as (_ & Hkn & Hhn & Hold).
  pose proof (split_eq _ _ _ _ _ _ Hsp) as El0. simpl in El0.
  set (s' := mkSkipList m' (wrap_size_t (size_ s + 1)) (snd (sampled_height (rng_ s)))) in *.
  assert (Hag : forall l : list ptr, (forall q, q ∈ l -> q ∈ l0) ->
                Entries s' l = Entries s l).
  { intros l Hsub. apply Entries_agree. intros q Hq. apply Hold.
    eapply wf_live_lt; eauto. right. auto. }
  assert (Hnew : Entries s' [length (nodes_ s)] =
                 [(key, fst (sampled_height (rng_ s)))]).
  { unfold Entries. cbn [map]. subst s'. cbn [nodes_]. rewrite Hkn, Hhn. reflexivity. }
  eexists s', (lo ++ length (nodes_ s) :: hi), _, (Entries s lo), (Entries s hi).
  split; [exact Hrun|]. split; [exact HInv'|].
  split; [rewrite El0; apply Entries_app|]. split.
  - change (lo ++ length (nodes_ s) :: hi) with (lo ++ [length (nodes_ s)] ++ hi).
    rewrite !Entries_app, Hnew, !Hag; [reflexivity | |];
      intros q Hq; rewrite El0; apply elem_of_app; auto.
  - split; [|split; [|split; reflexivity]].
    + apply (Forall_Entries s (fun k => compare_ k key = true)).
      eapply Forall_impl; [apply (split_lo _ _ _ _ _ _ Hsp)|]. simpl. tauto.
    + apply (Forall_Entries s (fun k => compare_ key k = true)).
      apply (split_hi _ _ _ _ _ _ Hsp).
Qed.

Lemma Erase_entries (swo : StrictWeakOrder) s l0 key :
  Inv s l0 -> 0 < MaxHeight ->
  exists s' l0',
    Erase s key = Ok (existsb (equiv_key key) (Keys s l0), s') /\ Inv s' l0' /\
    Entries s' l0' = List.filter (fun e => key_other key (fst e)) (Entries s l0) /\
    length l0 = length l0' + (if existsb (equiv_key key) (Keys s l0) then 1 else 0).
Proof.
  intros HInv HM. pose proof HInv as [Hwf _].
  destruct (sorted_split swo (nodes_ s) key l0) as (lo & mid & hi & Hsp).
  { apply (wf_sorted _ _ Hwf). }
  pose proof (Erase_split swo s l0 key lo mid hi HInv HM Hsp) as H.
  pose proof (split_one _ _ _ _ _ _ Hsp) as Hone.
  unfold Keys. rewrite (split_existsb _ _ _ _ _ _ Hsp).
  pose proof (split_eq _ _ _ _ _ _ Hsp) as El0.
  assert (Hf : List.filter (fun e => key_other key (fst e)) (Entries s l0) =
               Entries s (lo ++ hi)).
  { rewrite El0, !Entries_app, !List.filter_app.
    rewrite (filter_all _ (Entries s lo)), (filter_all _ (Entries s hi)),
            (filter_none _ (Entries s mid)); [reflexivity| | |].
    - apply (Forall_Entries s (fun k => key_other key k = false)).
      eapply Forall_impl; [apply (split_mid _ _ _ _ _ _ Hsp)|].
      simpl. intros p Hp. unfold key_other. rewrite Hp. reflexivity.
    - apply (Forall_Entries s (fun k => key_other key k = true)).
      eapply Forall_impl; [apply (split_hi _ _ _ _ _ _ Hsp)|].
      simpl. intros p Hp. unfold key_other, equiv_key. rewrite Hp. reflexivity.
    - apply (Forall_Entries s (fun k => key_other key k = true)).
      eapply Forall_impl; [apply (split_lo _ _ _ _ _ _ Hsp)|].
      simpl. intros p [_ Hp]. unfold key_other, equiv_key. rewrite Hp.
      rewrite andb_false_r. reflexivity. }
  rewrite Hf. destruct mid as [|t mid].
  - exists s, l0. split; [exact H|]. split; [exact HInv|].
    split; [rewrite El0; reflexivity | lia].
  - destruct mid as [|t' mid]; [|simpl in Hone; lia].
    destruct H as (m' & Hrun & (_ & Hh & Hk & _) & HInv').
    eexists _, _. split; [exact Hrun|]. split; [exact HInv'|]. split.
    + apply Entries_agree. cbn [nodes_]. intros q _. auto.
    + rewrite El0, !length_app. simpl. lia.
Qed.

(** X7: in a reachable state a successful [Insert(key)] draws one height
    [h] from the sampler, leaves the generator where [RandomHeight] left
    it, and what [Print] shows afterwards is what it showed before with the
    pair (key, h) placed between the keys below [key] and the keys above
    it; keys and heights of the other nodes are unchanged. *)
Theorem Insert_places_key (swo : StrictWeakOrder) (HM : 0 < MaxHeight)
    (s : SkipList) (key : K) :
  reachable s -> Contains s key = Ok false ->
  exists s' h plo phi,
    RandomHeight (rng_ s) = Ok (h, rng_ s') /\
    Insert s key = Ok (true, s') /\
    Print s = Ok (plo ++ phi) /\
    Print s' = Ok (plo ++ (key, h) :: phi) /\
    Forall (fun e => compare_ (fst e) key = true) plo /\
    Forall (fun e => compare_ key (fst e) = true) phi.
Proof.
  intros Hreach Hc. destruct (reachable_Inv swo s HM Hreach) as (l0 & HInv).
  rewrite (Contains_abs swo s l0 key HInv HM) in Hc. injection Hc as Hc.
  destruct (Insert_entries swo s l0 key HInv HM Hc)
    as (s' & l0' & ev & plo & phi & Hrun & HInv' & E & E' & Hlo & Hhi & Hrng & _).
  exists s', (fst (sampled_height (rng_ s))), plo, phi.
  split; [rewrite RandomHeight_spec, Hrng by auto; destruct (sampled_height (rng_ s)); reflexivity|].
  split; [rewrite Insert_of_traced, Hrun; reflexivity|].
  split; [rewrite (Print_abs s l0 HInv HM), E; reflexivity|].
  split; [rewrite (Print_abs s' l0' HInv' HM), E'; reflexivity|]. auto.
Qed.

(** X8: in a reachable state, erasing a key that is present returns true
    and removes exactly one entry: what [Print] shows afterwards is what it
    showed before without the entry whose key is equivalent to [key], the
    other entries keeping their key, height and order.  The live count
    drops by one (without wrapping when it is the number of nodes), the key
    is absent afterwards and the generator is not touched. *)
Theorem Erase_present (swo : StrictWeakOrder) (HM : 0 < MaxHeight)
    (s : SkipList) (key : K) :
  reachable s -> Contains s key = Ok true ->
  exists s' out,
    Print s = Ok out /\
    Erase s key = Ok (true, s') /\
    Print s' = Ok (List.filter (fun e => key_other key (fst e)) out) /\
    length out = S (length (List.filter (fun e => key_other key (fst e)) out)) /\
    Size s' = wrap_size_t (Size s - 1) /\
    ((Z.of_nat (length out) < size_t_modulus)%Z -> Size s' = (Size s - 1)%Z) /\
    Contains s' key = Ok false /\
    rng_ s' = rng_ s.
Proof.
  intros Hreach Hc. destruct (reachable_Inv swo s HM Hreach) as (l0 & HInv).
  rewrite (Contains_abs swo s l0 key HInv HM) in Hc. injection Hc as Hc.
  destruct (Erase_entries swo s l0 key HInv HM) as (s' & l0' & Hrun & HInv' & E & Hlen).
  destruct (Erase_abs swo s l0 key HInv HM) as (s2 & l2 & Hrun2 & _ & Hk2 & Hrng & Hsz).
  rewrite Hrun in Hrun2. injection Hrun2 as <-. rewrite Hc in *.
  assert (Hk' : Keys s' l0' = List.filter (key_other key) (Keys s l0)).
  { rewrite <- !Entries_keys, E. apply filter_map_fst. }
  exists s', (Entries s l0). split; [apply Print_abs; auto|].
  split; [exact Hrun|].
  split; [rewrite (Print_abs s' l0' HInv' HM), E; reflexivity|].
  split; [rewrite <- E; unfold Entries; rewrite !length_map; lia|].
  unfold Size. split; [exact Hsz|]. split.
  - intros Hlt. rewrite Hsz. destruct HInv as [_ Hs]. rewrite Hs.
    unfold Entries in Hlt. rewrite length_map in Hlt.
    unfold wrap_size_t. rewrite (Z.mod_small (Z.of_nat (length l0))) by lia.
    apply Z.mod_small. lia.
  - split; [|exact Hrng].
    rewrite (Contains_abs swo s' l0' key HInv' HM), Hk', existsb_filter_other.
    reflexivity.
Qed.

(** The key an operation bears on, if any. *)
Definition op_key (o : op) : option K :=
  match o with
  | OpInsert key => Some key
  | OpErase key => Some key
  | OpClear => None
  end.

Lemma existsb_filter_other_ne (swo : StrictWeakOrder) k k' (ks : list K) :
  equiv_key k k' = false ->
  existsb (equiv_key k') (List.filter (key_other k) ks) = existsb (equiv_key k') ks.
Proof.
  intros Hne. induction ks as [|x ks IH]; simpl; [reflexivity|].
  unfold key_other at 1. destruct (equiv_key k x) eqn:Ex; simpl; rewrite IH.
  - destruct (equiv_key k' x) eqn:Ex'; [|reflexivity].
    rewrite (equiv_key_sym k' x) in Ex'.
    rewrite (swo_incomp swo _ _ _ Ex Ex') in Hne. discriminate.
  - reflexivity.
Qed.

(** X9: an [Insert] or an [Erase] of a key [k] leaves the membership of
    every key not equivalent to [k] as it was: in a reachable state the
    operation returns normally and [Contains(k')] answers afterwards what it
    answered before. *)
Theorem membership_of_other_keys (swo : StrictWeakOrder) (HM : 0 < MaxHeight)
    (s : SkipList) (o : op) (k k' : K) :
  reachable s -> op_key o = Some k -> equiv_key k k' = false ->
  exists s', step s o = Ok s' /\ Contains s' k' = Contains s k'.
Proof.
  intros Hreach Ho Hne. destruct (reachable_Inv swo s HM Hreach) as (l0 & HInv).
  rewrite (Contains_abs swo s l0 k' HInv HM).
  destruct o as [key|key|]; cbn [op_key] in Ho; [| |discriminate];
    injection Ho as ->; cbn [step].
  - destruct (Insert_abs swo s l0 k HInv HM) as (s' & l0' & ev & Hrun & HInv' & H).
    rewrite Insert_of_traced, Hrun. cbn [bind fst snd]. exists s'.
    split; [reflexivity|]. rewrite (Contains_abs swo s' l0' k' HInv' HM). f_equal.
    destruct (existsb (equiv_key k) (Keys s l0)).
    + destruct H as (-> & -> & _). reflexivity.
    + destruct H as (_ & _ & klo & khi & -> & -> & _).
      rewrite !existsb_app. simpl. rewrite equiv_key_sym, Hne. reflexivity.
  - destruct (Erase_abs swo s l0 k HInv HM) as (s' & l0' & Hrun & HInv' & Hk & _).
    rewrite Hrun. cbn [bind snd]. exists s'. split; [reflexivity|].
    rewrite (Contains_abs swo s' l0' k' HInv' HM), Hk. f_equal.
    apply existsb_filter_other_ne; auto.
Qed.

(** X10: inserting the same key a second time is refused and changes
    nothing: in a reachable state, whatever the first [Insert(k)] returned,
    the second returns false with the same container. *)
Theorem Insert_twice (swo : StrictWeakOrder) (HM : 0 < MaxHeight)
    (s : SkipList) (k : K) :
  reachable s ->
  exists b s1, Insert s k = Ok (b, s1) /\ Insert s1 k = Ok (false, s1).
Proof.
  intros Hreach. destruct (reachable_Inv swo s HM Hreach) as (l0 & HInv).
  destruct (Insert_abs swo s l0 k HInv HM) as (s1 & l1 & ev & Hrun & HInv1 & H).
  destruct (Insert_abs swo s1 l1 k HInv1 HM) as (s2 & l2 & ev2 & Hrun2 & _ & H2).
  assert (Hin : existsb (equiv_key k) (Keys s1 l1) = true).
  { destruct (existsb (equiv_key k) (Keys s l0)) eqn:Ex.
    - destruct H as (-> & -> & _). exact Ex.
    - destruct H as (_ & _ & klo & khi & _ & -> & _).
      rewrite existsb_app. simpl. rewrite (equiv_key_refl swo). apply orb_true_r. }
  rewrite Hin in *. destruct H2 as (-> & _).
  eexists _, s1. rewrite !Insert_of_traced, Hrun, Hrun2. split; reflexivity.
Qed.

(** X11: erasing the same key a second time fails and changes nothing: in
    a reachable state, whatever the first [Erase(k)] returned, the second
    returns false with the same container. *)
Theorem Erase_twice (swo : StrictWeakOrder) (HM : 0 < MaxHeight)
    (s : SkipList) (k : K) :
  reachable s ->
  exists b s1, Erase s k = Ok (b, s1) /\ Erase s1 k = Ok (false, s1).
Proof.
  intros Hreach. destruct (reachable_Inv swo s HM Hreach) as (l0 & HInv).
  destruct (Erase_abs swo s l0 k HInv HM) as (s1 & l1 & Hrun & HInv1 & Hk & _).
  destruct (Erase_abs swo s1 l1 k HInv1 HM) as (s2 & l2 & Hrun2 & _ & _ & _ & H2).
  rewrite Hk, existsb_filter_other in *. subst s2.
  eexists _, s1. split; [exact Hrun | exact Hrun2].
Qed.

(** ** How operations compose *)

Lemma sorted_perm_eq (swo : StrictWeakOrder) (l1 l2 : list K) :
  StronglySorted (fun a b => compare_ a b = true) l1 ->
  StronglySorted (fun a b => compare_ a b = true) l2 ->
  Permutation l1 l2 -> l1 = l2.
Proof.
  intros H1 H2 Hp.
  apply (StronglySorted_unique_strong (fun a b => compare_ a b = true)); auto.
  intros x1 x2 _ _ H12 H21. rewrite (compare_asym swo _ _ H12) in H21. discriminate.
Qed.

Lemma sorted_remove_perm (swo : StrictWeakOrder) k (ks : list K) :
  StronglySorted (fun a b => compare_ a b = true) ks -> In k ks ->
  Permutation (k :: List.filter (key_other k) ks) ks.
Proof.
  intros Hs Hin. apply in_split in Hin. destruct Hin as (a & b & ->).
  apply StronglySorted_app in Hs. destruct Hs as (Hcross & _ & Hs).
  inversion Hs as [|? ? _ Hb]; subst.
  rewrite List.filter_app. simpl. unfold key_other at 2.
  rewrite (equiv_key_refl swo). simpl.
  rewrite (filter_all _ a), (filter_all _ b).
  - apply Permutation_middle.
  - eapply Forall_impl; [exact Hb|]. simpl. intros x Hx.
    unfold key_other, equiv_key. rewrite Hx. reflexivity.
  - apply Forall_forall. intros x Hx.
    assert (Hxk : compare_ x k = true) by (apply Hcross; [auto | left]).
    unfold key_other. rewrite equiv_key_sym, (compare_not_equiv swo _ _ Hxk).
    reflexivity.
Qed.

(** X12: in a reachable state, erasing a key that the level-0 chain holds
    and inserting it again both succeed and restore the level-0 sequence of
    keys and the live count (the node is a new one, and its height is drawn
    afresh). *)
Theorem Erase_then_Insert (swo : StrictWeakOrder) (HM : 0 < MaxHeight)
    (s : SkipList) (k : K) (ks : list K) :
  reachable s -> ChainKeys s LOWEST_LEVEL = Ok ks -> In k ks ->
  exists s1 s2,
    Erase s k = Ok (true, s1) /\
    Insert s1 k = Ok (true, s2) /\
    ChainKeys s2 LOWEST_LEVEL = Ok ks /\
    Size s2 = Size s.
Proof.
  intros Hreach Hks Hin. unfold LOWEST_LEVEL in *.
  destruct (reachable_Inv swo s HM Hreach) as (l0 & HInv).
  rewrite (ChainKeys_bottom s l0 HInv HM) in Hks. injection Hks as <-.
  assert (Hex : existsb (equiv_key k) (Keys s l0) = true).
  { apply existsb_exists. exists k. split; [auto | apply (equiv_key_refl swo)]. }
  destruct (Erase_abs swo s l0 k HInv HM) as (s1 & l1 & Hrun1 & HInv1 & Hk1 & _ & Hsz1).
  rewrite Hex in *.
  destruct (Insert_abs swo s1 l1 k HInv1 HM) as (s2 & l2 & ev & Hrun2 & HInv2 & H2).
  rewrite Hk1, existsb_filter_other in *. cbn [negb] in Hrun2.
  destruct H2 as (Hsz2 & _ & klo & khi & E1 & E2 & _).
  exists s1, s2. split; [exact Hrun1|].
  split; [rewrite Insert_of_traced, Hrun2; reflexivity|]. split.
  - rewrite (ChainKeys_bottom s2 l2 HInv2 HM). f_equal.
    apply (sorted_perm_eq swo); [eapply Keys_sorted; eauto | eapply Keys_sorted; eauto |].
    rewrite E2. rewrite <- Permutation_middle, <- E1.
    apply sorted_remove_perm; [auto | eapply Keys_sorted; eauto | auto].
  - unfold Size. rewrite Hsz2, Hsz1. unfold wrap_size_t.
    rewrite Zplus_mod_idemp_l. replace (size_ s - 1 + 1)%Z with (size_ s) by lia.
    apply Z.mod_small. eapply Inv_size_range; eauto.
Qed.

Lemma filter_swap {A} (f g : A -> bool) (l : list A) :
  List.filter f (List.filter g l) = List.filter g (List.filter f l).
Proof.
  induction l as [|x l IH]; simpl; [reflexivity|].
  destruct (f x) eqn:Ef, (g x) eqn:Eg; simpl; rewrite ?Ef, ?Eg, IH; reflexivity.
Qed.

Lemma live_step_swap (swo : StrictWeakOrder) (ks : list K) o1 o2 a b :
  op_key o1 = Some a -> op_key o2 = Some b -> equiv_key a b = false ->
  Permutation (live_step (live_step ks o1) o2) (live_step (live_step ks o2) o1).
Proof.
  intros H1 H2 Hab.
  assert (Hba : equiv_key b a = false) by (rewrite equiv_key_sym; exact Hab).
  destruct o1 as [x|x|], o2 as [y|y|]; cbn [op_key] in H1, H2; try discriminate;
    injection H1 as ->; injection H2 as ->; cbn [live_step].
  - destruct (existsb (equiv_key a) ks) eqn:Ea, (existsb (equiv_key b) ks) eqn:Eb;
      simpl; rewrite ?Ea, ?Eb, ?Hab, ?Hba; simpl; rewrite ?Ea, ?Eb;
      try reflexivity. apply perm_swap.
  - rewrite (existsb_filter_other_ne swo b a ks Hba).
    destruct (existsb (equiv_key a) ks); [reflexivity|].
    simpl. unfold key_other at 1. rewrite Hba. reflexivity.
  - rewrite (existsb_filter_other_ne swo a b ks Hab).
    destruct (existsb (equiv_key b) ks); [reflexivity|].
    simpl. unfold key_other at 2. rewrite Hab. reflexivity.
  - rewrite filter_swap. reflexivity.
Qed.

(** X13: two operations ([Insert] or [Erase]) that bear on keys not
    equivalent to each other commute as far as the contents go: from a
    reachable state, performing them in either order returns normally and
    yields the same level-0 sequence of keys and the same live count
    (stores and heights may differ, the generator being consumed in a
    different order). *)
Theorem operations_commute (swo : StrictWeakOrder) (HM : 0 < MaxHeight)
    (s : SkipList) (o1 o2 : op) (a b : K) :
  reachable s ->
  op_key o1 = Some a -> op_key o2 = Some b -> equiv_key a b = false ->
  exists s12 s21 ks,
    run s [o1; o2] = Ok s12 /\
    run s [o2; o1] = Ok s21 /\
    ChainKeys s12 LOWEST_LEVEL = Ok ks /\
    ChainKeys s21 LOWEST_LEVEL = Ok ks /\
    Size s12 = Size s21.
Proof.
  intros Hreach H1 H2 Hab. unfold LOWEST_LEVEL.
  destruct (reachable_Inv swo s HM Hreach) as (l0 & HInv).
  destruct (run_abs swo [o1; o2] s l0 (Keys s l0) HInv HM (Permutation_refl _))
    as (s12 & l12 & Hrun12 & HInv12 & Hp12).
  destruct (run_abs swo [o2; o1] s l0 (Keys s l0) HInv HM (Permutation_refl _))
    as (s21 & l21 & Hrun21 & HInv21 & Hp21).
  cbn [fold_left] in Hp12, Hp21.
  assert (E : Keys s12 l12 = Keys s21 l21).
  { apply (sorted_perm_eq swo); [eapply Keys_sorted; eauto | eapply Keys_sorted; eauto |].
    rewrite Hp12, Hp21. eapply live_step_swap; eauto. }
  exists s12, s21, (Keys s12 l12). split; [exact Hrun12|]. split; [exact Hrun21|].
  split; [apply ChainKeys_bottom; auto|].
  split; [rewrite E; apply ChainKeys_bottom; auto|].
  unfold Size. destruct HInv12 as [_ ->], HInv21 as [_ ->].
  apply (f_equal (@length K)) in E. unfold Keys in E. rewrite !length_map in E.
  rewrite E. reflexivity.
Qed.

(** X14: after [Clear] a container cannot be told from a new one through
    its contents: from a reachable state, any history run after [Clear]
    returns normally and yields the level-0 keys, the live count and the
    answers of [Contains] that the same history yields on a freshly
    constructed container (generator state and heights apart). *)
Theorem Clear_like_new (swo : StrictWeakOrder) (HM : 0 < MaxHeight)
    (s : SkipList) (ops : list op) :
  reachable s ->
  exists s0 s1 s2 ks,
    Clear s = Ok s0 /\
    run s0 ops = Ok s1 /\
    run SkipList_new ops = Ok s2 /\
    ChainKeys s1 LOWEST_LEVEL = Ok ks /\
    ChainKeys s2 LOWEST_LEVEL = Ok ks /\
    Size s1 = Size s2 /\
    forall key, Contains s1 key = Contains s2 key.
Proof.
  intros Hreach. unfold LOWEST_LEVEL.
  destruct (reachable_Inv swo s HM Hreach) as (l0 & HInv).
  destruct (Clear_abs swo s l0 HInv HM) as (s0 & Hclear & HInv0 & _).
  destruct (run_abs swo ops s0 [] [] HInv0 HM (Permutation_refl _))
    as (s1 & l1 & Hrun1 & HInv1 & Hp1).
  destruct (run_abs swo ops SkipList_new [] [] (Inv_new HM) HM (Permutation_refl _))
    as (s2 & l2 & Hrun2 & HInv2 & Hp2).
  assert (E : Keys s1 l1 = Keys s2 l2).
  { apply (sorted_perm_eq swo); [eapply Keys_sorted; eauto | eapply Keys_sorted; eauto |].
    rewrite Hp1, Hp2. reflexivity. }
  exists s0, s1, s2, (Keys s1 l1). split; [exact Hclear|].
  split; [exact Hrun1|]. split; [exact Hrun2|].
  split; [apply ChainKeys_bottom; auto|].
  split; [rewrite E; apply ChainKeys_bottom; auto|]. split.
  - unfold Size. destruct HInv1 as [_ ->], HInv2 as [_ ->].
    apply (f_equal (@length K)) in E. unfold Keys in E. rewrite !length_map in E.
    rewrite E. reflexivity.
  - intros key. rewrite (Contains_abs swo s1 l1 key HInv1 HM),
      (Contains_abs swo s2 l2 key HInv2 HM), E. reflexivity.
Qed.

(** ** What [Erase] rewrites *)

(** X15: in a reachable state, erasing a key that is present bypasses one
    node [t] of the level-0 chain, whose key is equivalent to [key].  At
    every level below the height of [t] the node [P L] that designated [t]
    takes over the reference [t] held; every reference of [t] is null
    afterwards; no other forward reference of the store is changed. *)
Theorem Erase_bypasses_node (swo : StrictWeakOrder) (HM : 0 < MaxHeight)
    (s : SkipList) (key : K) :
  reachable s -> Contains s key = Ok true ->
  exists s' t P,
    Erase s key = Ok (true, s') /\
    t ∈ chain_nodes s LOWEST_LEVEL /\
    equiv_key key (keyof (nodes_ s) t) = true /\
    (forall L, L < hgt (nodes_ s) t ->
       P L <> t /\
       link (nodes_ s) (P L) L = Some t /\
       link (nodes_ s') (P L) L = link (nodes_ s) t L) /\
    (forall L, link (nodes_ s') t L = None) /\
    (forall q L, q <> t -> (L < hgt (nodes_ s) t -> q <> P L) ->
       link (nodes_ s') q L = link (nodes_ s) q L).
Proof.
  intros Hreach Hc. unfold LOWEST_LEVEL.
  destruct (reachable_Inv swo s HM Hreach) as (l0 & HInv).
  pose proof HInv as [Hwf _].
  destruct (sorted_split swo (nodes_ s) key l0) as (lo & mid & hi & Hsp).
  { apply (wf_sorted _ _ Hwf). }
  rewrite (Contains_split swo s l0 key lo mid hi HInv HM Hsp) in Hc.
  pose proof (Erase_split swo s l0 key lo mid hi HInv HM Hsp) as H.
  pose proof (mid_nodes _ _ _ _ _ _ Hwf Hsp) as Hmid.
  pose proof (split_mid _ _ _ _ _ _ Hsp) as Heq.
  pose proof (split_one _ _ _ _ _ _ Hsp) as Hone.
  pose proof (split_eq _ _ _ _ _ _ Hsp) as El0.
  pose proof (wf_NoDup swo _ _ Hwf) as Hnd.
  destruct mid as [|t mid]; [discriminate|].
  destruct mid as [|t' mid]; [|simpl in Hone; lia].
  destruct H as (m' & Hrun & (_ & _ & _ & Hl) & _).
  rewrite (chain_nodes_bottom s l0 HInv HM).
  set (m := nodes_ s) in *.
  inversion Hmid as [|? ? [_ Hth] _]; subst.
  inversion Heq as [|? ? Het _]; subst.
  assert (Hpt : forall L, pred m lo L <> t).
  { intros L E. pose proof (pred_in m lo L) as Hin. rewrite E in Hin.
    simpl in Hnd. change (header_ :: lo ++ t :: hi) with ((header_ :: lo) ++ t :: hi) in Hnd.
    apply NoDup_app in Hnd. destruct Hnd as (_ & Hd & _).
    apply (Hd t Hin). left. }
  exists (mkSkipList m' (wrap_size_t (size_ s - 1)) (rng_ s)), t, (pred m lo).
  cbn [nodes_]. split; [exact Hrun|].
  split; [apply elem_of_app; right; left|]. split; [exact Het|].
  split; [|split].
  - intros L HL. split; [apply Hpt|]. split.
    + destruct (pred_split m lo L) as (pre & post & E & Hpost & _).
      assert (HLM : L < MaxHeight) by lia.
      pose proof (rest_chain _ _ _ _ _ _ Hwf Hsp L pre _ post HLM E
                    (pred_hgt _ _ _ Hwf L HLM)) as Hch.
      rewrite Hpost in Hch. simpl in Hch.
      rewrite filter_cons_True in Hch by exact HL.
      apply chain_first in Hch. exact Hch.
    + rewrite Hl. rewrite decide_True by lia. rewrite decide_True by reflexivity.
      reflexivity.
  - intros L. rewrite Hl. destruct (decide (0 <= L < hgt m t)) as [HL|HL].
    + rewrite decide_False by (intros E; apply (Hpt L); auto).
      rewrite decide_True by reflexivity. reflexivity.
    + apply link_above_hgt. lia.
  - intros q L Hq HP. rewrite Hl. destruct (decide (0 <= L < hgt m t)) as [HL|HL].
    + rewrite decide_False by (apply HP; lia). rewrite decide_False by exact Hq.
      reflexivity.
    + reflexivity.
Qed.

(** ** What [Drop] releases *)

Lemma designates_spec p v : designates p v = true <-> v = Some p.
Proof.
  destruct v as [q|]; simpl; [|split; discriminate].
  rewrite Nat.eqb_eq. split; [intros ->; reflexivity | intros E; injection E; auto].
Qed.

Lemma In_links_link m p :
  In (Some p) (flat_map links_ m) <-> exists q L, link m q L = Some p.
Proof.
  rewrite in_flat_map. split.
  - intros (n & Hn & Hp). apply list_elem_of_In, list_elem_of_lookup in Hn, Hp.
    destruct Hn as [q Hq], Hp as [L HL]. exists q, L.
    unfold link. rewrite Hq, HL. reflexivity.
  - intros (q & L & H). unfold link in H.
    destruct (m !! q) as [n|] eqn:Hq; [|discriminate].
    destruct (links_ n !! L) as [v|] eqn:HL; [|discriminate]. simpl in H. subst v.
    exists n. split; apply list_elem_of_In, list_elem_of_lookup; eauto.
Qed.

Lemma use_count_zero m owners p :
  use_count m owners p = 0 <->
  (forall q L, link m q L <> Some p) /\ ~ In (Some p) owners.
Proof.
  unfold use_count.
  assert (E : forall l : list (option ptr),
            length (List.filter (designates p) l) = 0 <-> ~ In (Some p) l).
  { induction l as [|v l IH]; simpl; [tauto|].
    destruct (designates p v) eqn:Ev; simpl.
    - apply designates_spec in Ev. subst v. split; [lia | tauto].
    - rewrite IH. split; [|tauto]. intros Hn [->|H]; [|tauto].
      rewrite (proj2 (designates_spec p (Some p)) eq_refl) in Ev. discriminate. }
  rewrite E, in_app_iff, In_links_link. split.
  - intros H. split; [|tauto]. intros q L Hq. apply H. left. eauto.
  - intros [H1 H2] [(q & L & Hq)|H]; [eapply H1; eauto | tauto].
Qed.

Lemma set_link_id m p L : link m p L = None -> set_link m p L None = m.
Proof.
  unfold link, set_link. destruct (m !! p) as [n|] eqn:Hn; [|reflexivity].
  intros H. apply list_insert_id. rewrite Hn. f_equal.
  destruct n as [ls k]. cbn [links_ key_] in *. f_equal.
  symmetry. apply list_insert_id'. intros HL.
  destruct (lookup_lt_is_Some_2 ls L HL) as [v Hv]. rewrite Hv in H |- *.
  simpl in H. subst v. reflexivity.
Qed.

Lemma link_set_link_None m p i q L :
  link (set_link m p i None) q L = None \/
  link (set_link m p i None) q L = link m q L.
Proof.
  destruct (decide (q = p /\ L = i)) as [[-> ->]|Hn].
  - left. destruct (Nat.lt_ge_cases i (hgt m p)).
    + apply link_set_link_eq; auto.
    + apply link_above_hgt. rewrite hgt_set_link. auto.
  - right. apply link_set_link_ne.
    destruct (decide (q = p)); [right; intros ->|left]; tauto.
Qed.

Lemma destroy_links_null rel p :
  forall k L m,
    L + k <= hgt m p ->
    (forall L', link m p L' = None) ->
    destroy_links rel k L m p = Ok (m, [], 0).
Proof.
  induction k as [|k IH]; intros L m Hk Hnull; [reflexivity|].
  cbn [destroy_links]. rewrite MoveOut_ok by lia.
  rewrite Hnull, set_link_id by auto. cbn [bind fst snd].
  rewrite IH by (auto; lia). reflexivity.
Qed.

Lemma release_unowned fuel owners m p :
  use_count m owners p = 0 -> 0 < hgt m p ->
  (forall L, link m p L = None) ->
  release (S fuel) owners m p = Ok (m, [p], 1).
Proof.
  intros Hc Hh Hnull. cbn [release]. rewrite Hc. cbn [Nat.eqb].
  destruct (hgt_lookup m p 0 Hh) as (n & Hn & Hhn).
  unfold deref. rewrite Hn. cbn [bind].
  rewrite destroy_links_null by (auto; lia). reflexivity.
Qed.

Lemma release_owned fuel owners m p q L :
  link m q L = Some p -> release (S fuel) owners m p = Ok (m, [], 0).
Proof.
  intros Hq. cbn [release].
  destruct (Nat.eqb_spec (use_count m owners p) 0) as [E|_]; [|reflexivity].
  apply use_count_zero in E. destruct E as [E _]. exfalso. eapply E; eauto.
Qed.

Lemma chain_designated m L :
  forall l c p, chain m L (link m c L) l -> p ∈ l -> exists q, link m q L = Some p.
Proof.
  induction l as [|x l IH]; intros c p Hch Hp; [inversion Hp|].
  pose proof (chain_first _ _ _ _ _ Hch) as Hc.
  apply elem_of_cons in Hp. destruct Hp as [->|Hp]; [eauto|].
  apply (chain_app_inv _ _ _ []) in Hch. destruct Hch as [_ Hch]. eauto.
Qed.

Lemma chain_no_back m i p l q :
  chain m i (Some p) (p :: l) -> NoDup (p :: l) -> q ∈ p :: l ->
  link m q i <> Some p.
Proof.
  intros Hch Hnd Hq Hlink.
  apply (chain_app_inv _ _ _ []) in Hch. destruct Hch as [_ Hch].
  destruct (chain_next m i l p q p Hch Hq Hlink) as (pre & rest & E).
  apply NoDup_cons in Hnd. destruct Hnd as [Hp _]. apply Hp.
  destruct pre as [|h pre]; simpl in E; injection E as E1 E2; rewrite E2.
  - left.
  - apply elem_of_app. right. right. left.
Qed.

Lemma Drop_walk_released_spec i l :
  forall fuel m first,
    chain m i first l -> length l < fuel -> NoDup l -> header_ ∉ l ->
    (forall q L, L < i -> link m q L = None) ->
    (forall q, link m q i <> None -> q ∈ l) ->
    (forall p q L, p ∈ l -> link m q L = Some p -> L < hgt m p) ->
    (forall p, p ∈ l -> S i < hgt m p -> exists q L, L <> i /\ link m q L = Some p) ->
    exists m' ev d,
      Drop_walk fuel m first i = Ok (m', ev) /\
      Drop_walk_released fuel m first i =
        Ok (m', filter (fun p => hgt m p = S i) l, d) /\
      d <= 1.
Proof.
  induction l as [|p l IH]; intros fuel m first Hch Hf Hnd Hhd Hlow Hlev Htall Hown.
  - apply chain_nil_inv in Hch. subst first. exists m, [], 0.
    split; [destruct fuel; reflexivity|]. split; [destruct fuel; reflexivity | lia].
  - pose proof (chain_first _ _ _ _ _ Hch) as ->.
    pose proof Hch as Hch0.
    apply (chain_app_inv _ _ _ []) in Hch. destruct Hch as [Hp Hch].
    destruct fuel as [|fuel]; [simpl in Hf; lia|].
    cbn [Drop_walk Drop_walk_released].
    rewrite MoveOut_ok by auto. cbn [bind fst snd].
    pose proof Hnd as Hnd0. apply NoDup_cons in Hnd. destruct Hnd as [Hpl Hnd].
    set (m1 := set_link m p i None).
    assert (Hh1 : forall q, hgt m1 q = hgt m q) by (intros; apply hgt_set_link).
    assert (Hsub : forall q L x, link m1 q L = Some x -> link m q L = Some x).
    { intros q L x Hx. destruct (link_set_link_None m p i q L) as [E|E];
        fold m1 in E; congruence. }
    assert (Hnx : link m p i <> Some p).
    { intros E. rewrite E in Hch. inversion Hch; subst. apply Hpl. left. }
    assert (Hrel : exists d,
              release (gas m) [Some header_; link m p i] m1 p =
                Ok (m1, filter (fun p => hgt m p = S i) [p], d) /\ d <= 1).
    { unfold gas. destruct (decide (hgt m p = S i)) as [Hhp|Hhp].
      - exists 1. split; [|lia]. rewrite filter_cons_True by exact Hhp.
        apply release_unowned.
        + apply use_count_zero. split.
          * intros q L Hq. apply Hsub in Hq.
            assert (HL : L < hgt m p) by (eapply Htall; [left | eauto]).
            destruct (decide (L = i)) as [->|HLi].
            -- eapply chain_no_back; [exact Hch0 | exact Hnd0 | | exact Hq].
               apply Hlev. congruence.
            -- rewrite Hlow in Hq by lia. discriminate.
          * simpl. intros [E|[E|[]]]; [|congruence].
            injection E as E. apply Hhd. rewrite E. left.
        + rewrite Hh1. lia.
        + intros L. destruct (link m1 p L) as [x|] eqn:E; [|reflexivity].
          pose proof (Hsub _ _ _ E) as E'.
          destruct (decide (L = i)) as [->|HLi].
          * subst m1. rewrite link_set_link_eq in E by auto. discriminate.
          * destruct (Nat.lt_ge_cases L i) as [Hlt|Hge].
            -- rewrite Hlow in E' by auto. discriminate.
            -- rewrite link_above_hgt in E' by lia. discriminate.
      - exists 0. split; [|lia]. rewrite filter_cons_False by exact Hhp.
        destruct (Hown p) as (q & L & HL & Hq); [left | lia |].
        apply (release_owned _ _ _ _ q L). subst m1.
        rewrite link_set_link_ne by (right; exact HL). exact Hq. }
    destruct Hrel as (d & Hrel & Hd). rewrite Hrel. cbn [bind fst snd].
    destruct (IH fuel m1 (link m p i)) as (m' & ev & d' & Hrun & Hrun' & Hd').
    + eapply chain_ext; [|exact Hch]. intros q Hq. rewrite Hh1.
      split; [auto|]. apply link_set_link_ne. left. intros ->. auto.
    + simpl in Hf. lia.
    + auto.
    + intros H. apply Hhd. right. exact H.
    + intros q L HL. destruct (link m1 q L) as [x|] eqn:E; [|reflexivity].
      apply Hsub in E. rewrite Hlow in E by auto. discriminate.
    + intros q Hq. destruct (link m1 q i) as [x|] eqn:E; [|congruence].
      pose proof (Hsub _ _ _ E) as E'.
      assert (Hin : q ∈ p :: l) by (apply Hlev; congruence).
      apply elem_of_cons in Hin. destruct Hin as [->|Hin]; [|exact Hin].
      subst m1. rewrite link_set_link_eq in E by auto. discriminate.
    + intros p' q L Hp' Hq. rewrite Hh1. eapply Htall; [right; exact Hp' | eauto].
    + intros p' Hp' Hh. rewrite Hh1 in Hh.
      destruct (Hown p') as (q & L & HL & Hq); [right; exact Hp' | exact Hh |].
      exists q, L. split; [exact HL|]. subst m1.
      rewrite link_set_link_ne by (right; exact HL). exact Hq.
    + rewrite Hrun, Hrun'. cbn [bind fst snd]. exists m'.
      eexists _, (Nat.max d d'). split; [reflexivity|]. split; [|lia].
      do 3 f_equal.
      rewrite (filter_agree (fun p => hgt m1 p = S i) (fun p => hgt m p = S i))
        by (intros; rewrite Hh1; tauto).
      destruct (decide (hgt m p = S i)) as [Hhp|Hhp].
      * rewrite !filter_cons_True by exact Hhp. rewrite filter_nil. reflexivity.
      * rewrite !filter_cons_False by exact Hhp. rewrite filter_nil. reflexivity.
Qed.

Lemma filter_exact_tall m i (l : list ptr) :
  filter (fun p => hgt m p = S i) (filter (fun p => i < hgt m p) l) =
  filter (fun p => hgt m p = S i) l.
Proof. apply list_filter_filter_l. intros x. lia. Qed.

Lemma Drop_levels_released_spec (swo : StrictWeakOrder) l0 n :
  forall i m,
    n + i = MaxHeight ->
    hgt m header_ = MaxHeight ->
    length l0 < length m ->
    NoDup (header_ :: l0) ->
    (forall p, p ∈ l0 -> hgt m p <= MaxHeight) ->
    (forall L, i <= L < MaxHeight ->
       chain m L (link m header_ L) (filter (fun p => L < hgt m p) l0)) ->
    (forall q L, L < i -> link m q L = None) ->
    (forall q L, link m q L <> None -> q ∈ header_ :: l0) ->
    (forall p q L, p ∈ l0 -> link m q L = Some p -> L < hgt m p) ->
    exists m' ev d,
      Drop_levels n i m = Ok (m', ev) /\
      Drop_levels_released n i m =
        Ok (m', flat_map (fun L => filter (fun p => hgt m p = S L) l0) (seq i n), d) /\
      d <= 1.
Proof.
  induction n as [|n IH]; intros i m Hn Hhd Hb Hnd Hmax Hch Hlow Hlive Htall.
  - exists m, [], 0. split; [reflexivity|]. split; [reflexivity | lia].
  - cbn [Drop_levels Drop_levels_released]. rewrite MoveOut_ok by lia.
    cbn [bind fst snd].
    set (m1 := set_link m header_ i None).
    set (li := filter (fun p => i < hgt m p) l0).
    assert (Hnd' : NoDup l0) by (apply NoDup_cons in Hnd; tauto).
    assert (Hhl : header_ ∉ l0) by (apply NoDup_cons in Hnd; tauto).
    assert (Hh1 : forall q, hgt m1 q = hgt m q) by (intros; apply hgt_set_link).
    assert (Hsub : forall q L x, link m1 q L = Some x -> link m q L = Some x).
    { intros q L x Hx. destruct (link_set_link_None m header_ i q L) as [E|E];
        fold m1 in E; congruence. }
    assert (Hch1 : chain m1 i (link m header_ i) li).
    { eapply chain_ext; [|apply Hch; lia]. intros q Hq. subst m1.
      rewrite hgt_set_link. split; [auto|]. apply link_set_link_ne. left.
      intros ->. apply list_elem_of_filter in Hq. tauto. }
    assert (Hlen : length li < gas m).
    { subst li. pose proof (length_filter (fun p => i < hgt m p) l0).
      unfold gas. lia. }
    assert (Hndi : NoDup li) by (subst li; apply NoDup_filter; auto).
    assert (Hlev1 : forall q, link m1 q i <> None -> q ∈ li).
    { intros q Hq. destruct (link m1 q i) as [x|] eqn:E; [|congruence].
      pose proof (Hsub _ _ _ E) as E'.
      assert (Hin : q ∈ header_ :: l0) by (apply (Hlive q i); congruence).
      apply elem_of_cons in Hin. destruct Hin as [->|Hin].
      - subst m1. rewrite link_set_link_eq in E by lia. discriminate.
      - apply list_elem_of_filter. split; [|exact Hin].
        destruct (Nat.lt_ge_cases i (hgt m q)) as [|Hge]; [auto|].
        rewrite link_above_hgt in E' by auto. discriminate. }
    destruct (Drop_walk_spec i li (gas m) m1 (link m header_ i))
      as (m2 & Hrun & Hlen2 & Hh & Hk & Hl); auto.
    destruct (Drop_walk_released_spec i li (gas m) m1 (link m header_ i))
      as (m2' & ev & d & Hrun' & Hrel & Hd); auto.
    { intros H. apply list_elem_of_filter in H. tauto. }
    { intros q L HL. destruct (link m1 q L) as [x|] eqn:E; [|reflexivity].
      apply Hsub in E. rewrite Hlow in E by auto. discriminate. }
    { intros p q L Hp Hq. rewrite Hh1. apply list_elem_of_filter in Hp.
      eapply Htall; [apply Hp | eauto]. }
    { intros p Hp Hh'. rewrite Hh1 in Hh'. apply list_elem_of_filter in Hp.
      destruct Hp as [_ Hp]. pose proof (Hmax p Hp) as Hpm.
      destruct (chain_designated m (S i) _ header_ p (Hch (S i) ltac:(lia))) as [q Hq].
      { apply list_elem_of_filter. auto. }
      exists q, (S i). split; [lia|]. subst m1.
      rewrite link_set_link_ne by (right; lia). exact Hq. }
    rewrite Hrun in Hrun'. injection Hrun' as <- <-.
    rewrite Hrun, Hrel. cbn [bind fst snd].
    assert (Hh2 : forall q, hgt m2 q = hgt m q).
    { intros q. rewrite Hh. apply Hh1. }
    assert (Hsub2 : forall q L x, link m2 q L = Some x -> link m q L = Some x).
    { intros q L x Hx. rewrite Hl in Hx.
      destruct (decide (L = i /\ q ∈ li)); [discriminate | auto]. }
    destruct (IH (S i) m2) as (m' & ev' & d' & Hrun2 & Hrel2 & Hd').
    + lia.
    + rewrite Hh2. auto.
    + rewrite Hlen2. subst m1. rewrite length_set_link. auto.
    + auto.
    + intros p Hp. rewrite Hh2. auto.
    + intros L HL.
      rewrite (filter_agree (fun p => L < hgt m2 p) (fun p => L < hgt m p))
        by (intros; rewrite Hh2; tauto).
      rewrite Hl, decide_False by lia. subst m1.
      rewrite link_set_link_ne by (right; lia).
      eapply chain_ext; [|apply Hch; lia]. intros q Hq. split; [auto|].
      rewrite Hl, decide_False by lia. apply link_set_link_ne. right. lia.
    + intros q L HL. rewrite Hl.
      destruct (decide (L = i /\ q ∈ li)) as [|Hno]; [reflexivity|].
      destruct (link m1 q L) as [x|] eqn:E; [|reflexivity].
      destruct (decide (L = i)) as [->|HLi].
      * exfalso. apply Hno. split; [reflexivity|]. apply Hlev1. congruence.
      * apply Hsub in E. rewrite Hlow in E by lia. discriminate.
    + intros q L Hq. destruct (link m2 q L) as [x|] eqn:E; [|congruence].
      apply (Hlive q L). rewrite (Hsub2 _ _ _ E). discriminate.
    + intros p q L Hp Hq. rewrite Hh2. eapply Htall; eauto.
    + rewrite Hrun2, Hrel2. cbn [bind fst snd]. exists m'.
      eexists _, (Nat.max d d'). split; [reflexivity|]. split; [|lia].
      do 3 f_equal. cbn [seq flat_map]. f_equal.
      * rewrite (filter_agree (fun p => hgt m1 p = S i) (fun p => hgt m p = S i))
          by (intros; rewrite Hh1; tauto).
        subst li. apply filter_exact_tall.
      * apply flat_map_agree. intros L _. apply filter_agree.
        intros x _. rewrite Hh2. tauto.
Qed.

Lemma filter_by_height m (l : list ptr) H :
  Permutation (filter (fun p => 0 < hgt m p <= H) l ++ filter (fun p => hgt m p = S H) l)
              (filter (fun p => 0 < hgt m p <= S H) l).
Proof.
  induction l as [|x l IH]; [reflexivity|].
  destruct (decide (hgt m x = S H)) as [E|E].
  - rewrite (filter_cons_False (fun p => 0 < hgt m p <= H)) by lia.
    rewrite (filter_cons_True (fun p => hgt m p = S H)) by exact E.
    rewrite (filter_cons_True (fun p => 0 < hgt m p <= S H)) by lia.
    rewrite <- Permutation_middle. constructor. exact IH.
  - rewrite (filter_cons_False (fun p => hgt m p = S H)) by exact E.
    destruct (decide (0 < hgt m x <= H)) as [E'|E'].
    + rewrite (filter_cons_True (fun p => 0 < hgt m p <= H)) by exact E'.
      rewrite (filter_cons_True (fun p => 0 < hgt m p <= S H)) by lia.
      simpl. constructor. exact IH.
    + rewrite (filter_cons_False (fun p => 0 < hgt m p <= H)) by exact E'.
      rewrite (filter_cons_False (fun p => 0 < hgt m p <= S H)) by lia.
      exact IH.
Qed.

Lemma levels_partition m (l : list ptr) H :
  Permutation (flat_map (fun L => filter (fun p => hgt m p = S L) l) (seq 0 H))
              (filter (fun p => 0 < hgt m p <= H) l).
Proof.
  induction H as [|H IH].
  - simpl. rewrite (proj2 (filter_nil_Forall (fun p => 0 < hgt m p <= 0) l));
      [reflexivity|]. apply Forall_forall. intros x _. lia.
  - rewrite seq_S, flat_map_app. cbn [flat_map Nat.add]. rewrite app_nil_r.
    rewrite IH. apply filter_by_height.
Qed.

Lemma link_target (swo : StrictWeakOrder) m l0 q L p :
  wf m l0 -> clean m l0 -> link m q L = Some p ->
  q ∈ header_ :: l0 /\ p ∈ l0 /\ L < hgt m p.
Proof.
  intros Hwf Hcl Hlink.
  assert (Hq : q ∈ header_ :: l0).
  { destruct (decide (q ∈ header_ :: l0)) as [|Hno]; [auto|].
    rewrite (Hcl q L Hno) in Hlink. discriminate. }
  split; [exact Hq|].
  assert (HL : L < hgt m q).
  { destruct (Nat.lt_ge_cases L (hgt m q)) as [|Hge]; [auto|].
    rewrite link_above_hgt in Hlink by auto. discriminate. }
  pose proof (wf_nodes _ _ Hwf) as Hnodes. rewrite Forall_forall in Hnodes.
  assert (HLM : L < MaxHeight).
  { apply elem_of_cons in Hq. destruct Hq as [->|Hq].
    - rewrite (wf_header _ _ Hwf) in HL. exact HL.
    - apply Hnodes in Hq. lia. }
  pose proof (wf_chain _ _ Hwf L HLM) as Hch.
  assert (Hqf : q ∈ header_ :: filter (fun p => L < hgt m p) l0).
  { apply elem_of_cons in Hq. destruct Hq as [->|Hq]; [left|right].
    apply list_elem_of_filter. auto. }
  destruct (chain_next m L _ header_ q p Hch Hqf Hlink) as (pre & rest & E).
  assert (Hp : p ∈ filter (fun p => L < hgt m p) l0).
  { destruct pre as [|h pre]; simpl in E; injection E as E1 E2; rewrite E2.
    - left.
    - apply elem_of_app. right. right. left. }
  apply list_elem_of_filter in Hp. tauto.
Qed.

Lemma Drop_released_spec (swo : StrictWeakOrder) m l0 m' ev :
  wf m l0 -> clean m l0 -> 0 < MaxHeight ->
  Drop_traced m = Ok (m', ev) ->
  exists freed depth,
    Drop_released m = Ok (m', freed, depth) /\
    depth <= 1 /\
    Permutation freed l0.
Proof.
  intros Hwf Hcl HM Hdrop.
  pose proof (wf_nodes _ _ Hwf) as Hnodes.
  destruct (Drop_levels_released_spec swo l0 MaxHeight 0 m)
    as (m'' & ev' & d & Hrun & Hrel & Hd).
  - lia.
  - apply (wf_header _ _ Hwf).
  - apply (wf_bound _ _ Hwf).
  - eapply wf_NoDup; eauto.
  - intros p Hp. rewrite Forall_forall in Hnodes. apply Hnodes in Hp. lia.
  - intros L HL. apply (wf_chain _ _ Hwf). lia.
  - intros q L HL. lia.
  - intros q L Hq. destruct (link m q L) as [x|] eqn:E; [|congruence].
    apply (link_target swo m l0 q L x Hwf Hcl E).
  - intros p q L _ Hq. apply (link_target swo m l0 q L p Hwf Hcl Hq).
  - unfold Drop_traced in Hdrop. rewrite Hdrop in Hrun. injection Hrun as <- <-.
    eexists _, d. split; [exact Hrel|]. split; [exact Hd|].
    rewrite levels_partition. rewrite filter_id_Forall; [reflexivity|].
    eapply Forall_impl; [exact Hnodes|]. simpl. intros x. lia.
Qed.

(** C6: on a reachable state [Clear] returns normally; afterwards [Size]
    is 0, [Empty] holds and [Contains] is false for every key.  The
    teardown proceeds level by level from 0 to [MaxHeight - 1]; at each
    level it empties the header's slot and then, walking the chain of that
    level in order, the slot of one node at a time.  When it is done, no
    node that was in the container holds a forward reference any more.
    Under reference counting every node of the container is released
    during this walk, each one once, and never from within the destructor
    of another node: the depth of destructor calls is at most 1, whatever
    the length of the chains, so nothing is released as a nested
    cascade. *)
Theorem Clear_empties (swo : StrictWeakOrder) (HM : 0 < MaxHeight) (s : SkipList) :
  reachable s ->
  exists s',
    Clear s = Ok s' /\
    Size s' = 0%Z /\ Empty s' = true /\
    (forall key, Contains s' key = Ok false) /\
    Drop_traced (nodes_ s) =
      Ok (nodes_ s',
          flat_map (fun L => map (fun p => EvMoveOut p L) (header_ :: chain_nodes s L))
                   (seq 0 MaxHeight)) /\
    (forall p L, p ∈ header_ :: chain_nodes s LOWEST_LEVEL -> link (nodes_ s') p L = None) /\
    exists freed depth,
      Drop_released (nodes_ s) = Ok (nodes_ s', freed, depth) /\
      depth <= 1 /\
      Permutation freed (chain_nodes s LOWEST_LEVEL).
Proof.
  intros Hreach. unfold LOWEST_LEVEL.
  destruct (reachable_clean swo s HM Hreach) as (l0 & HInv & Hcl).
  destruct (Clear_spec swo s l0 HInv HM) as (m' & Hdrop & Hrun & HInv' & Hnull).
  assert (Hcn : forall L, L < MaxHeight ->
            chain_nodes s L = filter (fun p => L < hgt (nodes_ s) p) l0).
  { intros L HL. unfold chain_nodes. rewrite (Chain_abs s l0 L) by auto.
    rewrite map_map. simpl. apply map_id. }
  assert (Hc0 : chain_nodes s 0 = l0).
  { rewrite Hcn by auto. apply filter_id_Forall.
    eapply Forall_impl; [apply (wf_nodes _ _ (proj1 HInv))|]. simpl. intros q. lia. }
  eexists. split; [exact Hrun|]. split; [reflexivity|]. split; [reflexivity|].
  split; [|split; [|split]].
  - intros key. rewrite (Contains_abs swo _ [] key HInv' HM). reflexivity.
  - cbn [nodes_]. rewrite Hdrop. do 2 f_equal.
    apply flat_map_agree. intros L HL. apply in_seq in HL.
    rewrite Hcn by lia. reflexivity.
  - cbn [nodes_]. intros p L Hp. apply Hnull. rewrite Hc0 in Hp. exact Hp.
  - cbn [nodes_]. rewrite Hc0.
    apply (Drop_released_spec swo (nodes_ s) l0 m' _ (proj1 HInv) Hcl HM Hdrop).
Qed.


(** ** What [Drop] empties *)

Lemma NoDup_drop_events i (l : list ptr) : NoDup l -> NoDup (drop_events i l).
Proof.
  induction 1 as [|p l Hp _ IH]; simpl; constructor; auto.
  intros Hin. apply list_elem_of_In, in_map_iff in Hin.
  destruct Hin as (q & E & Hq). injection E as ->.
  apply Hp, list_elem_of_In, Hq.
Qed.

Lemma elem_of_drop_events e i (l : list ptr) :
  e ∈ drop_events i l <-> exists p, e = EvMoveOut p i /\ p ∈ l.
Proof.
  unfold drop_events. rewrite list_elem_of_In, in_map_iff. split.
  - intros (p & <- & Hp). exists p. split; [reflexivity | apply list_elem_of_In, Hp].
  - intros (p & -> & Hp). exists p. split; [reflexivity | apply list_elem_of_In, Hp].
Qed.

Lemma NoDup_drop_levels (F : nat -> list ptr) (ls : list nat) :
  NoDup ls -> (forall L, NoDup (F L)) ->
  NoDup (flat_map (fun L => drop_events L (F L)) ls).
Proof.
  intros Hls HF. induction Hls as [|L ls HL _ IH]; simpl; [constructor|].
  apply NoDup_app. split; [apply NoDup_drop_events, HF|]. split; [|exact IH].
  intros e He Hin. apply elem_of_drop_events in He. destruct He as (p & -> & _).
  apply list_elem_of_In, in_flat_map in Hin. destruct Hin as (L' & HL' & Hin).
  apply list_elem_of_In, elem_of_drop_events in Hin. destruct Hin as (p' & E & _).
  injection E as _ <-. apply HL, list_elem_of_In, HL'.
Qed.

(** X16: in a reachable state [Drop] returns normally and moves out every
    slot of the header and of every node of the level-0 chain, each one
    exactly once, and touches no slot of any other node. *)
Theorem Drop_empties_each_slot_once (swo : StrictWeakOrder) (HM : 0 < MaxHeight)
    (s : SkipList) :
  reachable s ->
  exists m' ev,
    Drop_traced (nodes_ s) = Ok (m', ev) /\
    NoDup ev /\
    forall e, e ∈ ev <->
      exists p L, e = EvMoveOut p L /\
                  (p = header_ \/ p ∈ chain_nodes s LOWEST_LEVEL) /\
                  L < hgt (nodes_ s) p.
Proof.
  intros Hreach. unfold LOWEST_LEVEL.
  destruct (reachable_Inv swo s HM Hreach) as (l0 & HInv).
  pose proof HInv as [Hwf _].
  destruct (Clear_spec swo s l0 HInv HM) as (m' & Hdrop & _).
  rewrite (chain_nodes_bottom s l0 HInv HM).
  pose proof (wf_NoDup swo _ _ Hwf) as Hnd. apply NoDup_cons in Hnd.
  destruct Hnd as [Hh Hnd].
  pose proof (wf_nodes _ _ Hwf) as Hnodes. rewrite Forall_forall in Hnodes.
  set (m := nodes_ s) in *.
  eexists _, _. split; [exact Hdrop|]. split.
  - apply (NoDup_drop_levels (fun L => header_ :: filter (fun p => L < hgt m p) l0)).
    + apply NoDup_ListNoDup, seq_NoDup.
    + intros L. apply NoDup_cons. split; [|apply NoDup_filter, Hnd].
      intros Hin. apply list_elem_of_filter in Hin. tauto.
  - intros e. rewrite list_elem_of_In, in_flat_map. split.
    + intros (L & HL & Hin). apply in_seq in HL.
      apply list_elem_of_In, elem_of_drop_events in Hin.
      destruct Hin as (p & -> & Hp). exists p, L. split; [reflexivity|].
      apply elem_of_cons in Hp. destruct Hp as [->|Hp].
      * split; [left; reflexivity|]. rewrite (wf_header _ _ Hwf). lia.
      * apply list_elem_of_filter in Hp. tauto.
    + intros (p & L & -> & Hp & HL). exists L.
      assert (HLM : L < MaxHeight).
      { destruct Hp as [->|Hp]; [rewrite (wf_header _ _ Hwf) in HL; exact HL|].
        apply Hnodes in Hp. lia. }
      split; [apply in_seq; lia|].
      apply list_elem_of_In, elem_of_drop_events. exists p. split; [reflexivity|].
      destruct Hp as [->|Hp]; [left|]. right. apply list_elem_of_filter. auto.
Qed.

(** ** The generator, as [RandomHeight] consumes it *)

(** The generator after [n] calls, and the outputs of these calls. *)
Fixpoint advance (n : nat) (g : Rng) : Rng :=
  match n with
  | 0 => g
  | S n' => advance n' (snd (rng_call g))
  end.

Fixpoint draws (n : nat) (g : Rng) : list N :=
  match n with
  | 0 => []
  | S n' => fst (rng_call g) :: draws n' (snd (rng_call g))
  end.

Lemma RandomHeight_loop_draws :
  forall fuel height g,
    MaxHeight - height < fuel ->
    exists k,
      RandomHeight_loop fuel height g =
        Ok (height + k, advance (Nat.min (S k) (MaxHeight - height)) g) /\
      (height + k <= MaxHeight \/ k = 0) /\
      Forall (fun x => (x mod branching_factor = 0)%N) (draws k g) /\
      (height + k < MaxHeight ->
       exists x, draws (S k) g !! k = Some x /\ (x mod branching_factor <> 0)%N).
Proof.
  induction fuel as [|fuel IH]; intros height g Hf; [lia|].
  cbn [RandomHeight_loop]. destruct (Nat.ltb_spec height MaxHeight) as [Hlt|Hge].
  - destruct (N.eqb_spec (fst (rng_call g) mod branching_factor) 0) as [E|E].
    + destruct (IH (S height) (snd (rng_call g)) ltac:(lia)) as (k & Hrun & Hle & Hall & Hlast).
      exists (S k). rewrite Hrun.
      replace (Nat.min (S (S k)) (MaxHeight - height))
        with (S (Nat.min (S k) (MaxHeight - S height))) by lia.
      replace (height + S k) with (S height + k) by lia.
      split; [reflexivity|]. split; [left; lia|].
      split; [constructor; auto|]. exact Hlast.
    + exists 0. replace (Nat.min 1 (MaxHeight - height)) with 1 by lia.
      rewrite Nat.add_0_r. split; [reflexivity|]. split; [auto|].
      split; [constructor|]. intros _. exists (fst (rng_call g)). auto.
  - exists 0. replace (Nat.min 1 (MaxHeight - height)) with 0 by lia.
    rewrite Nat.add_0_r. split; [reflexivity|]. split; [auto|].
    split; [constructor|]. lia.
Qed.

(** X17: [RandomHeight] returns a height [h] between 1 and [MaxHeight]
    read off the outputs of the generator: the first [h - 1] outputs are
    multiples of the branching factor and, when [h] is below [MaxHeight],
    the next one is not.  The generator is called once per trial, that is
    [h] times when [h] is below [MaxHeight] and [MaxHeight - 1] times
    otherwise, and is left in the state after these calls. *)
Theorem RandomHeight_draws (HM : 0 < MaxHeight) (g : Rng) :
  exists h,
    RandomHeight g = Ok (h, advance (Nat.min h (MaxHeight - 1)) g) /\
    1 <= h <= MaxHeight /\
    Forall (fun x => (x mod branching_factor = 0)%N) (draws (h - 1) g) /\
    (h < MaxHeight ->
     exists x, draws h g !! (h - 1) = Some x /\ (x mod branching_factor <> 0)%N).
Proof.
  destruct (RandomHeight_loop_draws (S MaxHeight) 1 g ltac:(lia))
    as (k & Hrun & Hle & Hall & Hlast).
  exists (1 + k). unfold RandomHeight. rewrite Hrun.
  replace (1 + k - 1) with k by lia.
  split; [reflexivity|]. split; [lia|]. split; [exact Hall|]. exact Hlast.
Qed.

(** ** A container without levels *)

(** X18: the requirement [0 < MaxHeight] cannot be dropped.  With
    [MaxHeight = 0] the level loops [for (int i = MaxHeight - 1; i >= 0; --i)]
    have no round, so in every state [Contains] answers false and [Erase]
    returns false without a change, while [RandomHeight] still returns 1 and
    [Insert] then pops its empty stack of predecessors, which is undefined
    behaviour. *)
Theorem Insert_needs_a_level (s : SkipList) (key : K) :
  MaxHeight = 0 ->
  Contains s key = Ok false /\
  Erase s key = Ok (false, s) /\
  RandomHeight (rng_ s) = Ok (1, rng_ s) /\
  Insert s key = Undefined.
Proof.
  intros HM0. unfold Insert, Insert_traced, Erase, Contains, RandomHeight.
  rewrite HM0. cbn. rewrite HM0. cbn. auto.
Qed.

End SkipList.

(** * A concrete container

    Integer keys ordered by [<], four levels, and a generator that counts
    up from its seed, so that every fourth draw is a successful trial. *)
Module Example.

Definition counting (g : N) : N * N := (g, N.succ g).

Definition fresh : SkipList (K := Z) (Rng := N) := SkipList_new 4 0%Z 0%N.

Lemma Zlt_swo : StrictWeakOrder Z.ltb.
Proof.
  constructor.
  - intros a. apply Z.ltb_irrefl.
  - intros a b c H1 H2. apply Z.ltb_lt in H1, H2. apply Z.ltb_lt. lia.
  - intros a b c. unfold equiv_key.
    destruct (Z.ltb_spec a b), (Z.ltb_spec b a), (Z.ltb_spec b c),
      (Z.ltb_spec c b), (Z.ltb_spec a c), (Z.ltb_spec c a);
      simpl; intros; try discriminate; try reflexivity; lia.
Qed.

(** The scenario of the specification: 5, 3 and 8 are inserted, 3 is
    refused the second time, then 5 is erased. *)
Definition history : list (op (K := Z)) :=
  [OpInsert 5%Z; OpInsert 3%Z; OpInsert 8%Z; OpInsert 3%Z; OpErase 5%Z].

Definition after_history : SkipList (K := Z) (Rng := N) :=
  Eval vm_compute in
    match run Z.ltb 4 counting fresh history with
    | Ok s => s
    | _ => fresh
    end.

Lemma after_history_reachable : reachable Z.ltb 4 0%Z counting 0%N after_history.
Proof. exists history. vm_compute. reflexivity. Qed.

Example scenario_inserts :
  exists s1 s2 s3,
    Insert Z.ltb 4 counting fresh 5%Z = Ok (true, s1) /\
    Insert Z.ltb 4 counting s1 3%Z = Ok (true, s2) /\
    Insert Z.ltb 4 counting s2 8%Z = Ok (true, s3) /\
    Insert Z.ltb 4 counting s3 3%Z = Ok (false, s3) /\
    Size s3 = 3%Z /\
    Print s3 = Ok [(3%Z, 1); (5%Z, 2); (8%Z, 1)].
Proof.
  eexists _, _, _.
  do 5 (split; [vm_compute; reflexivity|]). vm_compute; reflexivity.
Qed.

Example scenario_erase :
  Print after_history = Ok [(3%Z, 1); (8%Z, 1)] /\
  Size after_history = 2%Z /\
  Erase Z.ltb 4 after_history 5%Z = Ok (false, after_history).
Proof. vm_compute. repeat split. Qed.

Lemma chains_strictly_sorted_witness :
  exists s,
    run Z.ltb 4 counting fresh history = Ok s /\
    (forall L, L < 4 ->
       exists ks, ChainKeys s L = Ok ks /\
                  StronglySorted (fun a b => Z.ltb a b = true) ks) /\
    exists ks0,
      ChainKeys s LOWEST_LEVEL = Ok ks0 /\
      Permutation ks0 (live Z.ltb history) /\
      ForallOrdPairs (fun a b => equiv_key Z.ltb a b = false) ks0.
Proof.
  apply (chains_strictly_sorted Z.ltb 4 0%Z counting 0%N Zlt_swo); lia.
Defined.

Lemma Insert_fresh_witness :
  Contains Z.ltb 4 after_history 7%Z = Ok false /\
  exists s',
    Insert Z.ltb 4 counting after_history 7%Z = Ok (true, s') /\
    Size s' = wrap_size_t (Size after_history + 1) /\
    ((Size after_history + 1 < size_t_modulus)%Z -> Size s' = (Size after_history + 1)%Z) /\
    Contains Z.ltb 4 s' 7%Z = Ok true.
Proof.
  split; [vm_compute; reflexivity|].
  apply (proj1 (Insert_fresh Z.ltb 4 0%Z counting 0%N Zlt_swo ltac:(lia))).
  - exact after_history_reachable.
  - vm_compute; reflexivity.
Defined.

Lemma Insert_duplicate_witness :
  Contains Z.ltb 4 after_history 3%Z = Ok true /\
  Insert Z.ltb 4 counting after_history 3%Z = Ok (false, after_history) /\
  Insert_traced Z.ltb 4 counting after_history 3%Z = Ok (false, after_history, []).
Proof.
  split; [vm_compute; reflexivity|].
  apply (Insert_duplicate Z.ltb 4 counting after_history 3%Z).
  vm_compute; reflexivity.
Defined.

Lemma Erase_absent_witness :
  ChainKeys after_history LOWEST_LEVEL = Ok [3; 8]%Z /\
  Erase Z.ltb 4 after_history 5%Z = Ok (false, after_history).
Proof.
  split; [vm_compute; reflexivity|].
  apply (Erase_absent Z.ltb 4 0%Z counting 0%N Zlt_swo ltac:(lia)
           after_history 5%Z [3; 8]%Z).
  - exact after_history_reachable.
  - vm_compute; reflexivity.
  - repeat constructor.
Defined.

Lemma Insert_then_Erase_witness :
  exists b s1 s2 ks,
    Insert Z.ltb 4 counting after_history 7%Z = Ok (b, s1) /\
    Erase Z.ltb 4 s1 7%Z = Ok (true, s2) /\
    Contains Z.ltb 4 s2 7%Z = Ok false /\
    ChainKeys after_history LOWEST_LEVEL = Ok ks /\
    ChainKeys s2 LOWEST_LEVEL = Ok (List.filter (key_other Z.ltb 7%Z) ks) /\
    Forall (fun k' => equiv_key Z.ltb 7%Z k' = false ->
                      Contains Z.ltb 4 s2 k' = Ok true) ks.
Proof.
  apply (Insert_then_Erase Z.ltb 4 0%Z counting 0%N Zlt_swo ltac:(lia)).
  exact after_history_reachable.
Defined.

Lemma RandomHeight_sampler_witness :
  RandomHeight 4 counting 0%N = Ok (2, 2%N) /\
  RandomHeights 4 counting 5 0%N = Ok [2; 1; 1; 2; 1].
Proof.
  destruct (RandomHeight_sampler 4 counting ltac:(lia) 0%N) as (H1 & _ & H2).
  split; [exact H1|]. exact (proj1 (H2 5)).
Defined.

Lemma no_out_of_range_witness :
  (exists b, Contains Z.ltb 4 after_history 7%Z = Ok b) /\
  (exists r, Insert Z.ltb 4 counting after_history 7%Z = Ok r) /\
  (exists r, Erase Z.ltb 4 after_history 7%Z = Ok r) /\
  (forall level,
     Contains Z.ltb 4 after_history 7%Z <> OutOfRange level /\
     Insert Z.ltb 4 counting after_history 7%Z <> OutOfRange level /\
     Erase Z.ltb 4 after_history 7%Z <> OutOfRange level).
Proof.
  apply (no_out_of_range Z.ltb 4 0%Z counting 0%N Zlt_swo ltac:(lia)).
  exact after_history_reachable.
Defined.

Lemma Insert_splice_order_witness :
  exists s' P,
    Insert_traced Z.ltb 4 counting after_history 7%Z =
      Ok (true, s',
          flat_map (fun L => [EvSetNext (P L) L (Some 4);
                              EvSetNext 4 L (link (nodes_ after_history) (P L) L)])
                   (seq 0 2)) /\
    hgt (nodes_ s') 4 = 2 /\
    keyof 0%Z (nodes_ s') 4 = 7%Z /\
    forall L, L < 2 ->
      is_pred Z.ltb 0%Z after_history L 7%Z (P L) /\
      link (nodes_ s') (P L) L = Some 4 /\
      link (nodes_ s') 4 L = link (nodes_ after_history) (P L) L.
Proof.
  apply (Insert_splice_order Z.ltb 4 0%Z counting 0%N Zlt_swo ltac:(lia)
           after_history 7%Z).
  - exact after_history_reachable.
  - vm_compute; reflexivity.
Defined.

(** The very first insert already writes the header's reference before
    the new node's: the order worded in the specification is not the one
    of the code. *)
Lemma splice_order_counterexample :
  exists s' ev,
    Insert_traced Z.ltb 4 counting fresh 5%Z = Ok (true, s', ev) /\
    ev = [EvSetNext 0 0 (Some 1); EvSetNext 1 0 None;
          EvSetNext 0 1 (Some 1); EvSetNext 1 1 None] /\
    ~ new_node_written_first ev 1.
Proof.
  eexists _, _. split; [vm_compute; reflexivity|]. split; [reflexivity|].
  intros H. destruct (H 0 0 0 eq_refl) as (j & v & Hj & _). lia.
Qed.


(** ** The further properties, on the same scenario *)

Lemma Size_counts_nodes_witness :
  exists out,
    Print after_history = Ok out /\
    Size after_history = wrap_size_t (Z.of_nat (length out)) /\
    ((Z.of_nat (length out) < size_t_modulus)%Z ->
     Size after_history = Z.of_nat (length out) /\
     (Empty after_history = true <-> out = [])).
Proof.
  apply (Size_counts_nodes Z.ltb 4 0%Z counting 0%N Zlt_swo ltac:(lia)).
  exact after_history_reachable.
Defined.

Lemma Print_ascending_witness :
  exists out,
    Print after_history = Ok out /\
    StronglySorted (fun a b => Z.ltb (fst a) (fst b) = true) out /\
    Forall (fun e => 1 <= snd e <= 4) out.
Proof.
  apply (Print_ascending Z.ltb 4 0%Z counting 0%N Zlt_swo ltac:(lia)).
  exact after_history_reachable.
Defined.

Lemma Contains_iff_printed_witness :
  exists out,
    Print after_history = Ok out /\
    Contains Z.ltb 4 after_history 8%Z =
      Ok (existsb (fun e => equiv_key Z.ltb 8%Z (fst e)) out).
Proof.
  apply (Contains_iff_printed Z.ltb 4 0%Z counting 0%N Zlt_swo ltac:(lia)).
  exact after_history_reachable.
Defined.

Lemma levels_nested_witness :
  exists c0,
    Chain after_history LOWEST_LEVEL = Ok c0 /\
    Chain after_history 1 = Ok (List.filter (fun x => 1 <? Height (snd x)) c0).
Proof.
  apply (levels_nested Z.ltb 4 0%Z counting 0%N Zlt_swo ltac:(lia)).
  - exact after_history_reachable.
  - lia.
Defined.

Lemma nodes_keep_key_and_height_witness :
  exists s',
    run Z.ltb 4 counting after_history [OpInsert 7%Z; OpClear] = Ok s' /\
    length (nodes_ after_history) <= length (nodes_ s')
      <= length [OpInsert 7%Z; OpClear] + length (nodes_ after_history) /\
    forall p n, nodes_ after_history !! p = Some n ->
      exists n', nodes_ s' !! p = Some n' /\ Key n' = Key n /\ Height n' = Height n.
Proof.
  apply (nodes_keep_key_and_height Z.ltb 4 0%Z counting 0%N Zlt_swo ltac:(lia)).
  exact after_history_reachable.
Defined.

Lemma references_stay_inside_witness :
  (2 = header_ \/ 2 ∈ chain_nodes after_history LOWEST_LEVEL) /\
  3 ∈ chain_nodes after_history LOWEST_LEVEL /\ 3 <> header_ /\
  exists nq,
    nodes_ after_history !! 3 = Some nq /\ 0 < Height nq /\
    (2 <> header_ -> Z.ltb (Key (mkSkipNode [Some 3] 3%Z)) (Key nq) = true).
Proof.
  apply (references_stay_inside Z.ltb 4 0%Z counting 0%N Zlt_swo ltac:(lia)
           after_history 2 (mkSkipNode [Some 3] 3%Z) 0 3).
  - exact after_history_reachable.
  - reflexivity.
  - reflexivity.
Defined.

Lemma Insert_places_key_witness :
  exists s' h plo phi,
    RandomHeight 4 counting (rng_ after_history) = Ok (h, rng_ s') /\
    Insert Z.ltb 4 counting after_history 7%Z = Ok (true, s') /\
    Print after_history = Ok (plo ++ phi) /\
    Print s' = Ok (plo ++ (7%Z, h) :: phi) /\
    Forall (fun e => Z.ltb (fst e) 7%Z = true) plo /\
    Forall (fun e => Z.ltb 7%Z (fst e) = true) phi.
Proof.
  apply (Insert_places_key Z.ltb 4 0%Z counting 0%N Zlt_swo ltac:(lia)).
  - exact after_history_reachable.
  - vm_compute; reflexivity.
Defined.

Lemma Erase_present_witness :
  exists s' out,
    Print after_history = Ok out /\
    Erase Z.ltb 4 after_history 8%Z = Ok (true, s') /\
    Print s' = Ok (List.filter (fun e => key_other Z.ltb 8%Z (fst e)) out) /\
    length out = S (length (List.filter (fun e => key_other Z.ltb 8%Z (fst e)) out)) /\
    Size s' = wrap_size_t (Size after_history - 1) /\
    ((Z.of_nat (length out) < size_t_modulus)%Z -> Size s' = (Size after_history - 1)%Z) /\
    Contains Z.ltb 4 s' 8%Z = Ok false /\
    rng_ s' = rng_ after_history.
Proof.
  apply (Erase_present Z.ltb 4 0%Z counting 0%N Zlt_swo ltac:(lia)).
  - exact after_history_reachable.
  - vm_compute; reflexivity.
Defined.

Lemma membership_of_other_keys_witness :
  exists s',
    step Z.ltb 4 counting after_history (OpInsert 7%Z) = Ok s' /\
    Contains Z.ltb 4 s' 3%Z = Contains Z.ltb 4 after_history 3%Z.
Proof.
  apply (membership_of_other_keys Z.ltb 4 0%Z counting 0%N Zlt_swo ltac:(lia)
           after_history (OpInsert 7%Z) 7%Z 3%Z).
  - exact after_history_reachable.
  - reflexivity.
  - reflexivity.
Defined.

Lemma Insert_twice_witness :
  exists b s1,
    Insert Z.ltb 4 counting after_history 7%Z = Ok (b, s1) /\
    Insert Z.ltb 4 counting s1 7%Z = Ok (false, s1).
Proof.
  apply (Insert_twice Z.ltb 4 0%Z counting 0%N Zlt_swo ltac:(lia)).
  exact after_history_reachable.
Defined.

Lemma Erase_twice_witness :
  exists b s1,
    Erase Z.ltb 4 after_history 3%Z = Ok (b, s1) /\
    Erase Z.ltb 4 s1 3%Z = Ok (false, s1).
Proof.
  apply (Erase_twice Z.ltb 4 0%Z counting 0%N Zlt_swo ltac:(lia)).
  exact after_history_reachable.
Defined.

Lemma Erase_then_Insert_witness :
  exists s1 s2,
    Erase Z.ltb 4 after_history 8%Z = Ok (true, s1) /\
    Insert Z.ltb 4 counting s1 8%Z = Ok (true, s2) /\
    ChainKeys s2 LOWEST_LEVEL = Ok [3; 8]%Z /\
    Size s2 = Size after_history.
Proof.
  apply (Erase_then_Insert Z.ltb 4 0%Z counting 0%N Zlt_swo ltac:(lia)).
  - exact after_history_reachable.
  - vm_compute; reflexivity.
  - simpl; auto.
Defined.

Lemma operations_commute_witness :
  exists s12 s21 ks,
    run Z.ltb 4 counting after_history [OpInsert 7%Z; OpErase 3%Z] = Ok s12 /\
    run Z.ltb 4 counting after_history [OpErase 3%Z; OpInsert 7%Z] = Ok s21 /\
    ChainKeys s12 LOWEST_LEVEL = Ok ks /\
    ChainKeys s21 LOWEST_LEVEL = Ok ks /\
    Size s12 = Size s21.
Proof.
  apply (operations_commute Z.ltb 4 0%Z counting 0%N Zlt_swo ltac:(lia)
           after_history (OpInsert 7%Z) (OpErase 3%Z) 7%Z 3%Z).
  - exact after_history_reachable.
  - reflexivity.
  - reflexivity.
  - reflexivity.
Defined.

Lemma Clear_like_new_witness :
  exists s0 s1 s2 ks,
    Clear 4 after_history = Ok s0 /\
    run Z.ltb 4 counting s0 [OpInsert 2%Z; OpInsert 1%Z] = Ok s1 /\
    run Z.ltb 4 counting fresh [OpInsert 2%Z; OpInsert 1%Z] = Ok s2 /\
    ChainKeys s1 LOWEST_LEVEL = Ok ks /\
    ChainKeys s2 LOWEST_LEVEL = Ok ks /\
    Size s1 = Size s2 /\
    forall key, Contains Z.ltb 4 s1 key = Contains Z.ltb 4 s2 key.
Proof.
  apply (Clear_like_new Z.ltb 4 0%Z counting 0%N Zlt_swo ltac:(lia)).
  exact after_history_reachable.
Defined.

Lemma Erase_bypasses_node_witness :
  exists s' t P,
    Erase Z.ltb 4 after_history 8%Z = Ok (true, s') /\
    t ∈ chain_nodes after_history LOWEST_LEVEL /\
    equiv_key Z.ltb 8%Z (keyof 0%Z (nodes_ after_history) t) = true /\
    (forall L, L < hgt (nodes_ after_history) t ->
       P L <> t /\
       link (nodes_ after_history) (P L) L = Some t /\
       link (nodes_ s') (P L) L = link (nodes_ after_history) t L) /\
    (forall L, link (nodes_ s') t L = None) /\
    (forall q L, q <> t -> (L < hgt (nodes_ after_history) t -> q <> P L) ->
       link (nodes_ s') q L = link (nodes_ after_history) q L).
Proof.
  apply (Erase_bypasses_node Z.ltb 4 0%Z counting 0%N Zlt_swo ltac:(lia)).
  - exact after_history_reachable.
  - vm_compute; reflexivity.
Defined.

Lemma Drop_empties_each_slot_once_witness :
  exists m' ev,
    Drop_traced 4 (nodes_ after_history) = Ok (m', ev) /\
    NoDup ev /\
    forall e, e ∈ ev <->
      exists p L, e = EvMoveOut p L /\
                  (p = header_ \/ p ∈ chain_nodes after_history LOWEST_LEVEL) /\
                  L < hgt (nodes_ after_history) p.
Proof.
  apply (Drop_empties_each_slot_once Z.ltb 4 0%Z counting 0%N Zlt_swo ltac:(lia)).
  exact after_history_reachable.
Defined.

Lemma RandomHeight_draws_witness :
  exists h,
    RandomHeight 4 counting 0%N = Ok (h, advance counting (Nat.min h (4 - 1)) 0%N) /\
    1 <= h <= 4 /\
    Forall (fun x => (x mod branching_factor = 0)%N) (draws counting (h - 1) 0%N) /\
    (h < 4 ->
     exists x, draws counting h 0%N !! (h - 1) = Some x /\
               (x mod branching_factor <> 0)%N).
Proof.
  apply (RandomHeight_draws 4 counting ltac:(lia) 0%N).
Defined.

(** A container declared with no level at all. *)
Definition flat : SkipList (K := Z) (Rng := N) := SkipList_new 0 0%Z 0%N.

Lemma Insert_needs_a_level_witness :
  Contains Z.ltb 0 flat 5%Z = Ok false /\
  Erase Z.ltb 0 flat 5%Z = Ok (false, flat) /\
  RandomHeight 0 counting (rng_ flat) = Ok (1, rng_ flat) /\
  Insert Z.ltb 0 counting flat 5%Z = Undefined.
Proof.
  apply (Insert_needs_a_level Z.ltb 0 counting flat 5%Z). reflexivity.
Defined.


Lemma Clear_empties_witness :
  exists s',
    Clear 4 after_history = Ok s' /\
    Size s' = 0%Z /\ Empty s' = true /\
    (forall key, Contains Z.ltb 4 s' key = Ok false) /\
    Drop_traced 4 (nodes_ after_history) =
      Ok (nodes_ s',
          flat_map (fun L => map (fun p => EvMoveOut p L)
                                 (header_ :: chain_nodes after_history L))
                   (seq 0 4)) /\
    (forall p L, p ∈ header_ :: chain_nodes after_history LOWEST_LEVEL ->
                 link (nodes_ s') p L = None) /\
    exists freed depth,
      Drop_released 4 (nodes_ after_history) = Ok (nodes_ s', freed, depth) /\
      depth <= 1 /\
      Permutation freed (chain_nodes after_history LOWEST_LEVEL).
Proof.
  apply (Clear_empties Z.ltb 4 0%Z counting 0%N Zlt_swo ltac:(lia)).
  exact after_history_reachable.
Defined.

(** Twelve keys, of heights 1 and 2.  [Drop] destroys every node from the
    walk itself; giving up the header alone destroys them from within one
    another's destructors, seven calls deep. *)
Definition twelve : SkipList (K := Z) (Rng := N) :=
  Eval vm_compute in
    match run Z.ltb 4 counting fresh
              (map OpInsert [1; 2; 3; 4; 5; 6; 7; 8; 9; 10; 11; 12]%Z) with
    | Ok s => s
    | _ => fresh
    end.

Example release_without_Drop_nests :
  (exists m, Drop_released 4 (nodes_ twelve) =
               Ok (m, [2; 3; 5; 6; 8; 9; 11; 12; 1; 4; 7; 10], 1)) /\
  (exists m, release_header (nodes_ twelve) =
               Ok (m, [0; 1; 2; 3; 4; 5; 6; 7; 8; 9; 10; 11; 12], 7)).
Proof. split; eexists; vm_compute; reflexivity. Qed.

End Example.
